(** * PulseAudio device core: source, source output, sink input, ALSA mixer paths

    A shallow embedding of the parts of [pulsecore/source.c],
    [pulsecore/source-output.c], [pulsecore/sink-input.c] and
    [modules/alsa/alsa-mixer.c] that the specification's properties talk
    about, together with the proofs (or refutations) of those properties.

    Conventions.
    - C integers are [Z]; where the C type is unsigned and the arithmetic can
      wrap, the wrap-around is written out with [wrap64].
    - A failed [pa_assert] aborts the daemon: functions that can hit one
      return [option], with [None] for the abort. Functions that also
      recurse or loop on a budget return [outcome], which tells the abort
      ([Abort]) from the exhausted budget ([OutOfFuel]).
    - Function pointers of the implementor (the [set_port], [update_rate],
      [push] ... members) are section variables acting on an opaque
      [userdata]; their being [NULL] is a boolean member of the record.
    - Every record lists the members of the C struct that the embedded
      functions read or write. *)

From Stdlib Require Import ZArith Lia Bool.
From stdpp Require Import base option list sorting gmap strings.

Local Open Scope Z_scope.

(** ** Shared declarations (source.h, source-output.h, pulse/volume.h) *)

Module Core.

(** [pa_source_state_t] (source.h). *)
Inductive pa_source_state_t :=
| PA_SOURCE_INIT
| PA_SOURCE_IDLE
| PA_SOURCE_RUNNING
| PA_SOURCE_SUSPENDED
| PA_SOURCE_UNLINKED.

(** The macros of source.h. *)
Definition PA_SOURCE_IS_RUNNING (x : pa_source_state_t) : bool :=
  match x with PA_SOURCE_RUNNING => true | _ => false end.

Definition PA_SOURCE_IS_LINKED (x : pa_source_state_t) : bool :=
  match x with
  | PA_SOURCE_RUNNING | PA_SOURCE_IDLE | PA_SOURCE_SUSPENDED => true
  | _ => false
  end.

(** [pa_source_output_state_t] (source-output.h). *)
Inductive pa_source_output_state_t :=
| PA_SOURCE_OUTPUT_INIT
| PA_SOURCE_OUTPUT_RUNNING
| PA_SOURCE_OUTPUT_CORKED
| PA_SOURCE_OUTPUT_UNLINKED.

Definition PA_SOURCE_OUTPUT_IS_LINKED (x : pa_source_output_state_t) : bool :=
  match x with
  | PA_SOURCE_OUTPUT_RUNNING | PA_SOURCE_OUTPUT_CORKED => true
  | _ => false
  end.

(** How a call ends: normally, on a failed [pa_assert] (or a pointer that
    leads nowhere), or, in the model only, with the bound on its recursion
    used up. *)
Inductive outcome (A : Type) :=
| Done (a : A)
| Abort
| OutOfFuel.
Arguments Done {A} a.
Arguments Abort {A}.
Arguments OutOfFuel {A}.

#[global] Instance outcome_ret : MRet outcome := fun A a => Done a.
#[global] Instance outcome_bind : MBind outcome :=
  fun A B f x => match x with
                 | Done a => f a
                 | Abort => Abort
                 | OutOfFuel => OutOfFuel
                 end.
#[global] Instance outcome_fmap : FMap outcome :=
  fun A B f x => match x with
                 | Done a => Done (f a)
                 | Abort => Abort
                 | OutOfFuel => OutOfFuel
                 end.

(** Following a pointer. *)
Definition of_option {A : Type} (x : option A) : outcome A :=
  match x with Some a => Done a | None => Abort end.

(** [pa_assert]. *)
Definition assert (b : bool) : outcome unit := if b then Done tt else Abort.

(** 64-bit unsigned arithmetic ([size_t], [uint64_t], [pa_usec_t]). *)
Definition wrap64 (z : Z) : Z := z mod 2 ^ 64.

Lemma wrap64_range (z : Z) : 0 <= wrap64 z < 2 ^ 64.
Proof. unfold wrap64. apply Z.mod_pos_bound. lia. Qed.

End Core.

(** ** Channel volumes (pulse/volume.h)

    A [pa_cvolume] is the list of its [values], its [channels] member being
    the length of the list. *)

Module Volume.

Definition pa_volume_t := Z.
Definition pa_cvolume := list pa_volume_t.

Definition PA_VOLUME_MUTED : pa_volume_t := 0.
Definition PA_VOLUME_NORM : pa_volume_t := 65536.   (* 0x10000 *)

Definition channels (v : pa_cvolume) : Z := Z.of_nat (length v).

(** Modelled from the spec: [pa_cvolume_equal] of pulse/volume.c, which is
    not among the sources; two channel volumes are equal when they have the
    same channels with the same values. *)
Definition pa_cvolume_equal (a b : pa_cvolume) : bool := bool_decide (a = b).

(** Modelled from the spec: [pa_cvolume_set] of pulse/volume.c; all of the
    given number of channels get the one value. *)
Definition pa_cvolume_set (n : nat) (x : pa_volume_t) : pa_cvolume := replicate n x.

(** Modelled from the spec: the [pa_cvolume_mute] and [pa_cvolume_reset]
    macros of pulse/volume.h, [pa_cvolume_set] with MUTED and with NORM. *)
Definition pa_cvolume_mute (n : nat) : pa_cvolume := pa_cvolume_set n PA_VOLUME_MUTED.
Definition pa_cvolume_reset (n : nat) : pa_cvolume := pa_cvolume_set n PA_VOLUME_NORM.

(** Modelled from the spec: [pa_cvolume_max] of pulse/volume.c, the largest
    channel value (MUTED for no channels). *)
Definition pa_cvolume_max (v : pa_cvolume) : pa_volume_t :=
  foldr Z.max PA_VOLUME_MUTED v.

(** Modelled from the spec: [pa_cvolume_avg] of pulse/volume.c, the "average
    volume" of the push rule: the sum of the channel values divided by the
    number of channels. *)
Definition pa_cvolume_avg (v : pa_cvolume) : pa_volume_t :=
  foldr Z.add 0 v / channels v.

(** Modelled from the spec: [pa_cvolume_merge] of pulse/volume.c, the
    channelwise maximum over the channels both volumes have. *)
Definition pa_cvolume_merge (a b : pa_cvolume) : pa_cvolume := zip_with Z.max a b.

(** Modelled from the spec: the [pa_cvolume_is_norm] macro of
    pulse/volume.h; every channel is at NORM. *)
Definition pa_cvolume_is_norm (v : pa_cvolume) : bool :=
  forallb (fun x => x =? PA_VOLUME_NORM) v.

End Volume.

(** ** Rate switching: [pa_source_update_rate] (source.c) *)

Module SourceRate.
Import Core.

Section UpdateRate.

(** Implementor data and the resampler state of an output are opaque. *)
Variable userdata : Type.
Variable resampler : Type.

Record pa_source_output := mk_output {
  o_index : Z;
  o_state : pa_source_output_state_t;
  o_resampler : resampler
}.

Record pa_source := mk_source {
  state : pa_source_state_t;
  sample_spec_rate : Z;
  default_sample_rate : Z;
  alternate_sample_rate : Z;
  has_update_rate : bool;          (* s->update_rate != NULL *)
  outputs : list pa_source_output; (* the idxset, in iteration order *)
  n_corked : Z;
  suspend_cause : Z;
  s_userdata : userdata
}.

(** [PA_RATE_MAX] of pulse/sample.h. *)
Variable PA_RATE_MAX : Z.

(** The implementor's [update_rate] member: it reprograms the device and
    reports success. *)
Variable update_rate_cb : pa_source -> Z -> bool * pa_source.

(** [pa_source_suspend (s, TRUE, PA_SUSPEND_IDLE)] and
    [pa_source_output_update_rate], which this function only calls. *)
Variable pa_source_suspend_idle : pa_source -> pa_source.
Variable pa_source_output_update_rate : pa_source -> pa_source_output -> pa_source_output.

(** [pa_source_used_by]: the number of non-corked outputs; it asserts that
    the source is linked and that [n_corked] does not exceed the set size. *)
Definition pa_source_used_by (s : pa_source) : option Z :=
  if negb (PA_SOURCE_IS_LINKED (state s)) then None
  else
    let ret := Z.of_nat (length (outputs s)) in
    if ret <? n_corked s then None else Some (ret - n_corked s).

Definition set_outputs (s : pa_source) (os : list pa_source_output) : pa_source :=
  mk_source (state s) (sample_spec_rate s) (default_sample_rate s)
            (alternate_sample_rate s) (has_update_rate s) os (n_corked s)
            (suspend_cause s) (s_userdata s).

(** The part of [pa_source_update_rate] after the rate has been chosen. *)
Definition switch_rate (s : pa_source) (desired_rate : Z) (passthrough : bool)
  : option (bool * pa_source) :=
  if desired_rate =? sample_spec_rate s then Some (false, s)
  else
    used ← (if passthrough then Some 0 else pa_source_used_by s);
    if negb passthrough && (0 <? used) then Some (false, s)
    else
      let s1 := pa_source_suspend_idle s in
      let '(ok, s2) := update_rate_cb s1 desired_rate in
      if ok then
        let os := map (fun o =>
                         match o_state o with
                         | PA_SOURCE_OUTPUT_CORKED => pa_source_output_update_rate s2 o
                         | _ => o
                         end) (outputs s2) in
        Some (true, set_outputs s2 os)
      else Some (false, s2).

(** [pa_source_update_rate (s, rate, passthrough)]. *)
Definition pa_source_update_rate (s : pa_source) (rate : Z) (passthrough : bool)
  : option (bool * pa_source) :=
  if has_update_rate s then
    let desired_rate := rate in
    let default_rate := default_sample_rate s in
    let alternate_rate := alternate_sample_rate s in
    if default_rate =? alternate_rate then Some (false, s)
    else if PA_SOURCE_IS_RUNNING (state s) then Some (false, s)
    else if (desired_rate <? 8000) || (PA_RATE_MAX <? desired_rate) then Some (false, s)
    else if negb passthrough then
      (* pa_assert(default_rate % 4000 || default_rate % 11025) and the same
         for the alternate rate *)
      if (default_rate mod 4000 =? 0) && (default_rate mod 11025 =? 0) then None
      else if (alternate_rate mod 4000 =? 0) && (alternate_rate mod 11025 =? 0) then None
      else
        let use_alternate :=
          if negb (default_rate mod 4000 =? 0)
          then (alternate_rate mod 4000 =? 0) && (desired_rate mod 4000 =? 0)
          else (alternate_rate mod 11025 =? 0) && (desired_rate mod 11025 =? 0) in
        switch_rate s (if use_alternate then alternate_rate else default_rate) passthrough
    else switch_rate s rate passthrough
  else Some (false, s).

(** C6. A source in the RUNNING state refuses every rate update:
    [pa_source_update_rate] returns FALSE and the source, in particular
    [sample_spec.rate], is left as it was. *)
Theorem update_rate_refused_while_running (s : pa_source) (rate : Z) (passthrough : bool) :
  state s = PA_SOURCE_RUNNING ->
  pa_source_update_rate s rate passthrough = Some (false, s)
  /\ forall b s', pa_source_update_rate s rate passthrough = Some (b, s') ->
                  b = false /\ sample_spec_rate s' = sample_spec_rate s.
Proof.
  intros Hrun.
  assert (Hres : pa_source_update_rate s rate passthrough = Some (false, s)).
  { unfold pa_source_update_rate. rewrite Hrun. simpl.
    destruct (has_update_rate s); [|reflexivity].
    destruct (default_sample_rate s =? alternate_sample_rate s); reflexivity. }
  split; [exact Hres|].
  intros b s' H. rewrite Hres in H. injection H as <- <-. split; reflexivity.
Qed.

End UpdateRate.

(** A running source that has an implementor callback and different default
    and alternate rates: the refusal comes from the RUNNING guard itself. *)
Definition running_source : pa_source unit unit :=
  mk_source unit unit PA_SOURCE_RUNNING 44100 44100 48000 true
            [mk_output unit 0 PA_SOURCE_OUTPUT_RUNNING tt] 0 0 tt.

Lemma update_rate_refused_while_running_witness :
  pa_source_update_rate unit unit 192000
      (fun s r => (true, mk_source unit unit (state _ _ s) r (default_sample_rate _ _ s)
                                   (alternate_sample_rate _ _ s) true (outputs _ _ s)
                                   (n_corked _ _ s) (suspend_cause _ _ s) tt))
      (fun s => s) (fun _ o => o) running_source 48000 false
  = Some (false, running_source).
Proof.
  apply (update_rate_refused_while_running unit unit 192000 _ _ _ running_source 48000 false).
  reflexivity.
Defined.

End SourceRate.

(** ** Port switching: [pa_source_set_port] (source.c) *)

Module SourcePort.

(** What the control thread leaves behind for observers. *)
Inductive event :=
| Subscription_source_change (index : Z)
| Hook_source_port_changed (index : Z)
| Msg_set_port (port : string).   (* a SET_PORT round trip to the IO thread *)

Section SetPort.

Variable userdata : Type.

Record pa_device_port := mk_port {
  port_name : string;
  port_priority : Z;
  port_latency_offset : Z
}.

Record pa_source := mk_source {
  index : Z;
  has_set_port : bool;                   (* s->set_port != NULL *)
  deferred_volume : bool;                (* s->flags & PA_SOURCE_DEFERRED_VOLUME *)
  ports : gmap string pa_device_port;    (* the hashmap, keyed by port name *)
  active_port : option string;           (* the pointer, as the key of the port it points to *)
  save_port : bool;
  s_userdata : userdata;
  events : list event
}.

(** The error numbers of pulse/def.h. *)
Variable PA_ERR_NOENTITY : Z.
Variable PA_ERR_NOTIMPLEMENTED : Z.

(** The implementor's [set_port] member. *)
Variable set_port_cb : userdata -> pa_device_port -> Z * userdata.

Definition with_userdata (s : pa_source) (u : userdata) : pa_source :=
  mk_source (index s) (has_set_port s) (deferred_volume s) (ports s)
            (active_port s) (save_port s) u (events s).

Definition with_save_port (s : pa_source) (b : bool) : pa_source :=
  mk_source (index s) (has_set_port s) (deferred_volume s) (ports s)
            (active_port s) b (s_userdata s) (events s).

Definition with_active_port (s : pa_source) (p : option string) : pa_source :=
  mk_source (index s) (has_set_port s) (deferred_volume s) (ports s)
            p (save_port s) (s_userdata s) (events s).

Definition post (s : pa_source) (e : event) : pa_source :=
  mk_source (index s) (has_set_port s) (deferred_volume s) (ports s)
            (active_port s) (save_port s) (s_userdata s) (events s ++ [e]).

(** [case PA_SOURCE_MESSAGE_SET_PORT] of [pa_source_process_msg], run by the
    IO thread while the sender waits: [msg_data->ret] keeps its initial 0
    when [set_port] is not set. *)
Definition process_msg_set_port (s : pa_source) (port : pa_device_port) (ret0 : Z)
  : Z * pa_source :=
  if has_set_port s then
    let '(r, u) := set_port_cb (s_userdata s) port in (r, with_userdata s u)
  else (ret0, s).

(** [pa_source_set_port (s, name, save)]; [name = None] is the NULL pointer. *)
Definition pa_source_set_port (s : pa_source) (name : option string) (save : bool)
  : Z * pa_source :=
  if negb (has_set_port s) then (- PA_ERR_NOTIMPLEMENTED, s)
  else
    match name with
    | None => (- PA_ERR_NOENTITY, s)
    | Some name =>
        match ports s !! name with
        | None => (- PA_ERR_NOENTITY, s)
        | Some port =>
            if decide (active_port s = Some name) then
              (0, with_save_port s (save_port s || save))
            else
              let '(ret, s1) :=
                if deferred_volume s
                then process_msg_set_port (post s (Msg_set_port name)) port 0
                else let '(r, u) := set_port_cb (s_userdata s) port in
                     (r, with_userdata s u) in
              if ret <? 0 then (- PA_ERR_NOENTITY, s1)
              else
                let s2 := post s1 (Subscription_source_change (index s1)) in
                let s3 := with_save_port (with_active_port s2 (Some name)) save in
                (0, post s3 (Hook_source_port_changed (index s3)))
        end
    end.

(** The status the port switch itself reports: the [set_port] member called
    directly, or through the IO thread under deferred volume. *)
Definition port_switch_status (s : pa_source) (port : pa_device_port) : Z :=
  fst (set_port_cb (s_userdata s) port).

(** C9. When the name is known, the port is not the active one and the switch
    itself reports a negative status, [pa_source_set_port] returns
    [-PA_ERR_NOENTITY], which is what an unknown name returns, whatever the
    status was, and neither [active_port] nor [save_port] changes; no
    subscription event or port-changed hook is fired either. *)
Theorem set_port_failure_is_noentity
    (s : pa_source) (name : string) (port : pa_device_port) (save : bool)
    (unknown : string) :
  has_set_port s = true ->
  ports s !! name = Some port ->
  active_port s <> Some name ->
  port_switch_status s port < 0 ->
  ports s !! unknown = None ->
  fst (pa_source_set_port s (Some name) save) = - PA_ERR_NOENTITY
  /\ fst (pa_source_set_port s (Some name) save)
     = fst (pa_source_set_port s (Some unknown) save)
  /\ active_port (snd (pa_source_set_port s (Some name) save)) = active_port s
  /\ save_port (snd (pa_source_set_port s (Some name) save)) = save_port s
  /\ (forall e, e ∈ events (snd (pa_source_set_port s (Some name) save)) ->
                e ∈ events s \/ e = Msg_set_port name).
Proof.
  intros Hcb Hport Hact Hneg Hunk.
  unfold pa_source_set_port, port_switch_status in *.
  rewrite Hcb, Hport, Hunk. simpl.
  destruct (decide (active_port s = Some name)) as [E|_]; [contradiction|].
  destruct (deferred_volume s).
  - unfold process_msg_set_port. simpl. rewrite Hcb.
    destruct (set_port_cb (s_userdata s) port) as [r u]. simpl in *.
    apply Z.ltb_lt in Hneg. rewrite Hneg. simpl.
    repeat split; try reflexivity.
    intros e He. apply elem_of_app in He as [He|He]; [now left|].
    apply list_elem_of_singleton in He. now right.
  - destruct (set_port_cb (s_userdata s) port) as [r u]. simpl in *.
    apply Z.ltb_lt in Hneg. rewrite Hneg. simpl.
    repeat split; try reflexivity. intros e He. now left.
Qed.

End SetPort.

(** A source with two ports whose implementor fails with -17 on "mic". *)
Definition two_ports : gmap string pa_device_port :=
  <["mic" := mk_port "mic" 10 0]> (<["line" := mk_port "line" 5 0]> ∅).

Definition failing_source (deferred : bool) : pa_source unit :=
  mk_source unit 3 true deferred two_ports (Some "line"%string) true tt [].

Lemma set_port_failure_is_noentity_witness :
  let r := pa_source_set_port unit 5 23 (fun u _ => (-17, u))
                              (failing_source true) (Some "mic"%string) false in
  fst r = -5
  /\ fst r = fst (pa_source_set_port unit 5 23 (fun u _ => (-17, u))
                                     (failing_source true) (Some "hdmi"%string) false)
  /\ active_port _ (snd r) = Some "line"%string
  /\ save_port _ (snd r) = true
  /\ (forall e, e ∈ events _ (snd r) -> e ∈ [] \/ e = Msg_set_port "mic").
Proof.
  apply (set_port_failure_is_noentity unit 5 23 (fun u _ => (-17, u))
           (failing_source true) "mic" (mk_port "mic" 10 0) false "hdmi").
  - reflexivity.
  - reflexivity.
  - discriminate.
  - unfold port_switch_status. simpl. lia.
  - reflexivity.
Defined.

End SourcePort.

(** ** Rewind requests of a playback stream: [pa_sink_input_request_rewind]
       (sink-input.c) *)

Module SinkInputRewind.
Import Core.

(** [size_t] and [uint64_t] are 64 bits wide; [(size_t) -1] is [SIZE_MAX]. *)
Definition SIZE_MAX : Z := 2 ^ 64 - 1.

Inductive pa_sink_input_state_t :=
| PA_SINK_INPUT_INIT
| PA_SINK_INPUT_DRAINED
| PA_SINK_INPUT_RUNNING
| PA_SINK_INPUT_CORKED
| PA_SINK_INPUT_UNLINKED.

Definition is_corked (x : pa_sink_input_state_t) : bool :=
  match x with PA_SINK_INPUT_CORKED => true | _ => false end.

Section RequestRewind.

(** The sink lives in sink.c; of it the function reads
    [thread_info.max_rewind] and calls [pa_sink_request_rewind]. *)
Variable pa_sink : Type.
Variable sink_max_rewind : pa_sink -> Z.
Variable pa_sink_request_rewind : pa_sink -> Z -> pa_sink.

(** [pa_resampler_request] and [pa_resampler_result] (resampler.c): the
    number of input bytes needed for a number of output bytes, and back. *)
Variable pa_resampler_request : Z -> Z.
Variable pa_resampler_result : Z -> Z.

(** The [thread_info] members of [pa_sink_input] the function touches. *)
Record pa_sink_input := mk_input {
  ti_state : pa_sink_input_state_t;
  rewrite_nbytes : Z;            (* size_t *)
  rewrite_flush : bool;
  dont_rewind_render : bool;
  playing_for : Z;               (* uint64_t *)
  has_resampler : bool;          (* thread_info.resampler != NULL *)
  render_memblockq_length : Z;   (* pa_memblockq_get_length (render_memblockq) *)
  sink : pa_sink
}.

(** [pa_sink_input_request_rewind (i, nbytes, rewrite, flush,
    dont_rewind_render)]; [None] when one of the two assertions on the flags
    fails. *)
Definition pa_sink_input_request_rewind
    (i : pa_sink_input) (nbytes : Z) (rewrite flush dont_rewind : bool)
  : option pa_sink_input :=
  if negb (rewrite || flush) then None
  else if negb (negb dont_rewind || negb rewrite) then None
  else if is_corked (ti_state i) then Some i
  else
    let nbytes := Z.max (rewrite_nbytes i) nbytes in
    let lbq := if rewrite then render_memblockq_length i else 0 in
    let nbytes :=
      if nbytes <=? 0 then
        let n := wrap64 (sink_max_rewind (sink i) + lbq) in
        if has_resampler i then pa_resampler_request n else n
      else nbytes in
    let '(nbytes, pending) :=
      if negb (rewrite_nbytes i =? SIZE_MAX) then
        if rewrite then
          let nbytes := if playing_for i <? nbytes then playing_for i else nbytes in
          (nbytes, nbytes)
        else (nbytes, SIZE_MAX)
      else (nbytes, rewrite_nbytes i) in
    let snk :=
      if negb (nbytes =? SIZE_MAX) then
        let nbytes := if has_resampler i then pa_resampler_result nbytes else nbytes in
        if lbq <? nbytes
        then pa_sink_request_rewind (sink i) (nbytes - lbq)
        else pa_sink_request_rewind (sink i) 0
      else sink i in
    Some (mk_input (ti_state i) pending (rewrite_flush i || flush)
                   (dont_rewind_render i || dont_rewind) (playing_for i)
                   (has_resampler i) (render_memblockq_length i) snk).

(** The number of bytes a request stands for: a positive maximum of the
    outstanding and the new request, and for 0 ("maximum rewind") all the sink
    can rewind plus the render queue, in the input's sample spec. *)
Definition requested_amount (i : pa_sink_input) (nbytes : Z) : Z :=
  let m := Z.max (rewrite_nbytes i) nbytes in
  if 0 <? m then m
  else
    let n := wrap64 (sink_max_rewind (sink i) + render_memblockq_length i) in
    if has_resampler i then pa_resampler_request n else n.

(** The same amount in the sink's sample spec. *)
Definition to_sink_domain (i : pa_sink_input) (n : Z) : Z :=
  if has_resampler i then pa_resampler_result n else n.

(** When an earlier request had [rewrite == FALSE], [rewrite_nbytes] is
    [(size_t) -1]: a later rewriting request leaves it there and does not
    reach the sink. *)
Lemma request_rewind_after_drop_all (i : pa_sink_input) (nbytes : Z) (flush : bool) :
  is_corked (ti_state i) = false ->
  rewrite_nbytes i = SIZE_MAX ->
  0 <= nbytes <= SIZE_MAX ->
  exists i', pa_sink_input_request_rewind i nbytes true flush false = Some i'
             /\ rewrite_nbytes i' = SIZE_MAX /\ sink i' = sink i.
Proof.
  intros Hc Hrw Hn. unfold pa_sink_input_request_rewind.
  rewrite Hc, Hrw. simpl.
  replace (Z.max SIZE_MAX nbytes) with SIZE_MAX by lia.
  change (SIZE_MAX <=? 0) with false. change (SIZE_MAX =? SIZE_MAX) with true.
  simpl. eexists. split; [reflexivity|]. split; reflexivity.
Qed.

(** C8 (amended). On a non-corked sink input with no pending "drop all"
    ([rewrite_nbytes] is not [(size_t) -1]), a request with [rewrite] true sets
    [rewrite_nbytes] to the requested amount capped at [playing_for]; the
    requested amount is the maximum of the outstanding and the new request, or
    for a maximum of 0 the sink's [max_rewind] plus the render queue length
    in the input's domain.  The capped amount is translated to the sink's
    sample spec and the sink is asked to rewind what exceeds the render queue
    (0 when nothing does). *)
Theorem request_rewind_rewrite (i : pa_sink_input) (nbytes : Z) (flush : bool) :
  is_corked (ti_state i) = false ->
  0 <= rewrite_nbytes i < SIZE_MAX ->
  0 <= nbytes <= SIZE_MAX ->
  0 <= playing_for i < SIZE_MAX ->
  let amount := Z.min (requested_amount i nbytes) (playing_for i) in
  exists i',
    pa_sink_input_request_rewind i nbytes true flush false = Some i'
    /\ rewrite_nbytes i' = amount
    /\ sink i' = pa_sink_request_rewind (sink i)
                   (Z.max 0 (to_sink_domain i amount - render_memblockq_length i))
    /\ rewrite_flush i' = (rewrite_flush i || flush)
    /\ dont_rewind_render i' = dont_rewind_render i
    /\ playing_for i' = playing_for i.
Proof.
  intros Hc Hrw Hn Hp amount. subst amount.
  unfold pa_sink_input_request_rewind, requested_amount, to_sink_domain.
  rewrite Hc. simpl.
  assert (Hne : (rewrite_nbytes i =? SIZE_MAX) = false) by (apply Z.eqb_neq; lia).
  rewrite Hne. simpl.
  set (m := Z.max (rewrite_nbytes i) nbytes).
  set (mx := if has_resampler i
             then pa_resampler_request (wrap64 (sink_max_rewind (sink i) + render_memblockq_length i))
             else wrap64 (sink_max_rewind (sink i) + render_memblockq_length i)).
  assert (Hreq : (if m <=? 0 then mx else m) = (if 0 <? m then m else mx)).
  { destruct (Z.leb_spec m 0), (Z.ltb_spec 0 m); try lia; reflexivity. }
  rewrite Hreq. clear Hreq.
  set (r := if 0 <? m then m else mx).
  assert (Hcap : (if playing_for i <? r then playing_for i else r) = Z.min r (playing_for i)).
  { destruct (Z.ltb_spec (playing_for i) r); lia. }
  rewrite Hcap. clear Hcap.
  set (a := Z.min r (playing_for i)).
  assert (Ha : (a =? SIZE_MAX) = false) by (apply Z.eqb_neq; subst a; lia).
  rewrite Ha. simpl.
  eexists. split; [reflexivity|]. simpl.
  rewrite orb_false_r.
  repeat split; try reflexivity.
  set (t := if has_resampler i then pa_resampler_result a else a).
  destruct (Z.ltb_spec (render_memblockq_length i) t).
  - f_equal. lia.
  - f_equal. lia.
Qed.

End RequestRewind.

(** A sink that only records the rewinds it is asked for. *)
Record logging_sink := mk_sink { max_rewind : Z; rewind_requests : list Z }.

Definition log_request (s : logging_sink) (n : Z) : logging_sink :=
  mk_sink (max_rewind s) (rewind_requests s ++ [n]).

Definition request_rewind_logged :=
  pa_sink_input_request_rewind logging_sink max_rewind log_request (fun n => n) (fun n => n).

Definition idle_sink : logging_sink := mk_sink 1000 [].

(** Running, 300 bytes outstanding, 500 bytes played since the last underrun,
    200 bytes in the render queue. *)
Definition playing_input : pa_sink_input logging_sink :=
  mk_input _ PA_SINK_INPUT_RUNNING 300 false false 500 false 200 idle_sink.

Lemma request_rewind_rewrite_witness :
  exists i',
    request_rewind_logged playing_input 800 true false false = Some i'
    /\ rewrite_nbytes _ i' = 500
    /\ sink _ i' = mk_sink 1000 [300]
    /\ rewrite_flush _ i' = false
    /\ dont_rewind_render _ i' = false
    /\ playing_for _ i' = 500.
Proof.
  apply (request_rewind_rewrite logging_sink max_rewind log_request (fun n => n) (fun n => n)
           playing_input 800 false).
  - reflexivity.
  - vm_compute. split; [discriminate | reflexivity].
  - vm_compute. split; discriminate.
  - vm_compute. split; [discriminate | reflexivity].
Defined.

(** C8 as stated fails in two ways.  A request of 0 bytes with nothing
    outstanding asks for the maximum rewind, so [rewrite_nbytes] becomes
    [playing_for] and not the maximum of the two requests; and after a
    request with [rewrite == FALSE] the pending amount stays [(size_t) -1],
    is not capped at [playing_for], and the sink is not called. *)
Lemma request_rewind_rewrite_counterexample :
  (let i := mk_input _ PA_SINK_INPUT_RUNNING 0 false false 500 false 200 idle_sink in
   exists i', request_rewind_logged i 0 true false false = Some i'
              /\ rewrite_nbytes _ i' = 500
              /\ rewrite_nbytes _ i' <> Z.min (Z.max (rewrite_nbytes _ i) 0) (playing_for _ i))
  /\
  (let i := mk_input _ PA_SINK_INPUT_RUNNING SIZE_MAX true false 500 false 200 idle_sink in
   exists i', request_rewind_logged i 800 true false false = Some i'
              /\ rewrite_nbytes _ i' = SIZE_MAX
              /\ rewrite_nbytes _ i' <> Z.min (Z.max (rewrite_nbytes _ i) 800) (playing_for _ i)
              /\ rewind_requests (sink _ i') = []).
Proof.
  split.
  - eexists. split; [vm_compute; reflexivity|]. split; [reflexivity|]. vm_compute. discriminate.
  - eexists. split; [vm_compute; reflexivity|]. split; [reflexivity|].
    split; [vm_compute; discriminate | reflexivity].
Qed.

End SinkInputRewind.

(** ** The delay queue of a capture stream: [pa_source_output_push]
       (source-output.c) *)

Module SourceOutputPush.
Import Core.

Section Push.

(** Memory blocks, channel volumes, sample specs, the resampler, the block
    queue and the monitored sink are defined outside the three files; the
    function only calls their operations. *)
Variables memblock pa_cvolume pa_sample_spec pa_resampler pa_memblockq pa_sink : Type.

Record pa_memchunk := mk_chunk { chunk_memblock : memblock; chunk_length : Z }.

Definition truncate (c : pa_memchunk) (n : Z) : pa_memchunk :=
  mk_chunk (chunk_memblock c) n.

Variable pa_cvolume_is_norm : pa_cvolume -> bool.
Variable pa_sw_cvolume_multiply : pa_cvolume -> pa_cvolume -> pa_cvolume.
Variable pa_volume_memchunk : pa_memchunk -> pa_sample_spec -> pa_cvolume -> pa_memchunk.
Variable pa_silence_memchunk : pa_memchunk -> pa_sample_spec -> pa_memchunk.
Variable pa_frame_aligned : Z -> pa_sample_spec -> bool.
Variable pa_usec_to_bytes : Z -> pa_sample_spec -> Z.
Variable pa_sink_get_latency_within_thread : pa_sink -> Z.
Variable pa_resampler_max_block_size : pa_resampler -> Z.
Variable pa_resampler_run : pa_resampler -> pa_memchunk -> pa_resampler * pa_memchunk.

(** The block queue: [push] fails on overflow, [peek] fails on an empty queue. *)
Variable pa_memblockq_push : pa_memblockq -> pa_memchunk -> option pa_memblockq.
Variable pa_memblockq_seek : pa_memblockq -> Z -> pa_memblockq.
Variable pa_memblockq_get_length : pa_memblockq -> Z.
Variable pa_memblockq_peek : pa_memblockq -> option pa_memchunk.
Variable pa_memblockq_drop : pa_memblockq -> Z -> pa_memblockq.

(** What leaves the function: chunks handed to the implementor's [push]
    member and chunks fed to the resampler. *)
Inductive event :=
| Push (c : pa_memchunk)
| Resample (c : pa_memchunk).

Record pa_source_output := mk_output {
  has_push : bool;                       (* o->push != NULL *)
  has_process_rewind : bool;             (* o->process_rewind != NULL *)
  ti_state : pa_source_output_state_t;   (* thread_info.state *)
  ti_soft_volume : pa_cvolume;
  ti_muted : bool;
  volume_factor_source : pa_cvolume;
  ti_sample_spec : pa_sample_spec;
  ti_resampler : option pa_resampler;
  delay_memblockq : pa_memblockq;
  source_sample_spec : pa_sample_spec;   (* o->source->sample_spec *)
  source_max_rewind : Z;                 (* o->source->thread_info.max_rewind *)
  source_monitor_of : option pa_sink;    (* o->source->monitor_of *)
  trace : list event
}.

Definition with_queue (o : pa_source_output) (q : pa_memblockq) : pa_source_output :=
  mk_output (has_push o) (has_process_rewind o) (ti_state o) (ti_soft_volume o)
            (ti_muted o) (volume_factor_source o) (ti_sample_spec o) (ti_resampler o)
            q (source_sample_spec o) (source_max_rewind o) (source_monitor_of o) (trace o).

Definition with_resampler (o : pa_source_output) (r : pa_resampler) : pa_source_output :=
  mk_output (has_push o) (has_process_rewind o) (ti_state o) (ti_soft_volume o)
            (ti_muted o) (volume_factor_source o) (ti_sample_spec o) (Some r)
            (delay_memblockq o) (source_sample_spec o) (source_max_rewind o)
            (source_monitor_of o) (trace o).

Definition emit (o : pa_source_output) (e : event) : pa_source_output :=
  mk_output (has_push o) (has_process_rewind o) (ti_state o) (ti_soft_volume o)
            (ti_muted o) (volume_factor_source o) (ti_sample_spec o) (ti_resampler o)
            (delay_memblockq o) (source_sample_spec o) (source_max_rewind o)
            (source_monitor_of o) (trace o ++ [e]).

(** The value of the local [limit] when the loop starts. *)
Definition retention_limit (o : pa_source_output) : Z :=
  let limit := if has_process_rewind o then 0 else source_max_rewind o in
  match source_monitor_of o with
  | Some snk =>
      if 0 <? limit then
        let latency := pa_sink_get_latency_within_thread snk in
        let n := pa_usec_to_bytes latency (source_sample_spec o) in
        if n <? limit then n else limit
      else limit
  | None => limit
  end.

(** The volume adjustment of one dequeued piece; returns the piece and the
    local [nvfs]. *)
Definition adjust_volume (o : pa_source_output) (volume_is_norm nvfs : bool)
    (qchunk : pa_memchunk) : pa_memchunk * bool :=
  if negb volume_is_norm then
    if ti_muted o then (pa_silence_memchunk qchunk (source_sample_spec o), false)
    else if negb (bool_decide (is_Some (ti_resampler o))) && nvfs then
      let v := pa_sw_cvolume_multiply (ti_soft_volume o) (volume_factor_source o) in
      (pa_volume_memchunk qchunk (source_sample_spec o) v, false)
    else (pa_volume_memchunk qchunk (source_sample_spec o) (ti_soft_volume o), nvfs)
  else (qchunk, nvfs).

(** The [while] loop that implements the delay queue; [mbs] is the local of
    that name, 0 until the resampler has been asked. *)
Fixpoint delay_loop (fuel : nat) (limit : Z) (volume_is_norm need_vfs : bool)
    (mbs : Z) (o : pa_source_output) : outcome pa_source_output :=
  let length := pa_memblockq_get_length (delay_memblockq o) in
  if negb (limit <? length) then Done o
  else
    match fuel with
    | O => OutOfFuel
    | S fuel =>
        let length := length - limit in
        match pa_memblockq_peek (delay_memblockq o) with
        | None => Abort
        | Some qchunk =>
            let qchunk := if length <? chunk_length qchunk
                          then truncate qchunk length else qchunk in
            if negb (0 <? chunk_length qchunk) then Abort
            else
              let '(qchunk, nvfs) := adjust_volume o volume_is_norm need_vfs qchunk in
              match ti_resampler o with
              | None =>
                  let qchunk := if nvfs
                                then pa_volume_memchunk qchunk (ti_sample_spec o)
                                                        (volume_factor_source o)
                                else qchunk in
                  let o := emit o (Push qchunk) in
                  let o := with_queue o (pa_memblockq_drop (delay_memblockq o)
                                                           (chunk_length qchunk)) in
                  delay_loop fuel limit volume_is_norm need_vfs mbs o
              | Some r =>
                  let mbs := if mbs =? 0 then pa_resampler_max_block_size r else mbs in
                  let qchunk := if mbs <? chunk_length qchunk
                                then truncate qchunk mbs else qchunk in
                  let '(r, rchunk) := pa_resampler_run r qchunk in
                  let o := emit (with_resampler o r) (Resample qchunk) in
                  let o :=
                    if 0 <? chunk_length rchunk then
                      let rchunk := if nvfs
                                    then pa_volume_memchunk rchunk (ti_sample_spec o)
                                                            (volume_factor_source o)
                                    else rchunk in
                      emit o (Push rchunk)
                    else o in
                  let o := with_queue o (pa_memblockq_drop (delay_memblockq o)
                                                           (chunk_length qchunk)) in
                  delay_loop fuel limit volume_is_norm need_vfs mbs o
              end
        end
    end.

(** The queue after the new chunk has been appended; on overflow the write
    index is moved on by the chunk's length instead. *)
Definition enqueue (q : pa_memblockq) (chunk : pa_memchunk) : pa_memblockq :=
  match pa_memblockq_push q chunk with
  | Some q' => q'
  | None => pa_memblockq_seek q (chunk_length chunk)
  end.

(** [pa_source_output_push (o, chunk)]. *)
Definition pa_source_output_push (fuel : nat) (o : pa_source_output) (chunk : pa_memchunk)
  : outcome pa_source_output :=
  if negb (PA_SOURCE_OUTPUT_IS_LINKED (ti_state o)) then Abort
  else if negb (pa_frame_aligned (chunk_length chunk) (source_sample_spec o)) then Abort
  else if negb (has_push o) then Done o
  else
    match ti_state o with
    | PA_SOURCE_OUTPUT_CORKED => Done o
    | PA_SOURCE_OUTPUT_RUNNING =>
        let o := with_queue o (enqueue (delay_memblockq o) chunk) in
        let limit := retention_limit o in
        let volume_is_norm := pa_cvolume_is_norm (ti_soft_volume o) && negb (ti_muted o) in
        let need_volume_factor_source := negb (pa_cvolume_is_norm (volume_factor_source o)) in
        delay_loop fuel limit volume_is_norm need_volume_factor_source 0 o
    | _ => Abort
    end.

(** The retention limit in the words of the specification. *)
Definition limit_spec (o : pa_source_output) : Z :=
  let base := if has_process_rewind o then 0 else source_max_rewind o in
  match source_monitor_of o with
  | Some snk =>
      let sink_bytes := pa_usec_to_bytes (pa_sink_get_latency_within_thread snk)
                                         (source_sample_spec o) in
      if (0 <? base) && (sink_bytes <? base) then sink_bytes else base
  | None => base
  end.

(** The local [nvfs] once the volume of a piece has been adjusted: whether
    [volume_factor_source] is still to be applied. *)
Definition nvfs_after (o : pa_source_output) (volume_is_norm need_vfs : bool) : bool :=
  if volume_is_norm then need_vfs
  else if ti_muted o then false
  else if negb (bool_decide (is_Some (ti_resampler o))) && need_vfs then false
  else need_vfs.

(** What [push] gets for a chunk [c] that the resampler returned. *)
Definition with_factor (o : pa_source_output) (nvfs : bool) (c : pa_memchunk) : pa_memchunk :=
  if nvfs then pa_volume_memchunk c (ti_sample_spec o) (volume_factor_source o) else c.

Definition total_length (cs : list pa_memchunk) : Z :=
  foldr (fun c n => chunk_length c + n) 0 cs.

(** The trace of an output without a resampler that takes [n] bytes out of
    its queue: every piece goes to [push]. *)
Definition pushed (t : list event) (n : Z) : Prop :=
  exists cs, t = map Push cs
             /\ Forall (fun c => 0 < chunk_length c) cs
             /\ total_length cs = n.

(** The trace of an output with a resampler that takes [n] bytes out of its
    queue, from the resampler state [r] to the state [r']: every piece is
    run through the resampler, and [push] gets what the resampler returns
    for it, with the factor applied by [finish], when that is not empty. *)
Inductive resampled (finish : pa_memchunk -> pa_memchunk)
  : pa_resampler -> list event -> Z -> pa_resampler -> Prop :=
| resampled_nil (r : pa_resampler) : resampled finish r [] 0 r
| resampled_piece (r r1 r' : pa_resampler) (q rchunk : pa_memchunk)
                  (t : list event) (n : Z) :
    0 < chunk_length q ->
    pa_resampler_run r q = (r1, rchunk) ->
    resampled finish r1 t n r' ->
    resampled finish r
              (Resample q
                 :: (if 0 <? chunk_length rchunk then [Push (finish rchunk)] else []) ++ t)
              (chunk_length q + n) r'.

(** What the call does with the [n] bytes that leave the queue. *)
Definition delivered (o o' : pa_source_output) (volume_is_norm need_vfs : bool)
    (t : list event) (n : Z) : Prop :=
  match ti_resampler o with
  | None => ti_resampler o' = None /\ pushed t n
  | Some r =>
      exists r', ti_resampler o' = Some r'
                 /\ resampled (with_factor o (nvfs_after o volume_is_norm need_vfs)) r t n r'
  end.

(** *** The contract of the collaborators *)

Hypothesis volume_keeps_length :
  forall c ss v, chunk_length (pa_volume_memchunk c ss v) = chunk_length c.
Hypothesis silence_keeps_length :
  forall c ss, chunk_length (pa_silence_memchunk c ss) = chunk_length c.
Hypothesis peek_nonempty :
  forall q, 0 < pa_memblockq_get_length q ->
            exists c, pa_memblockq_peek q = Some c /\ 0 < chunk_length c.
Hypothesis drop_length :
  forall q n, 0 < n <= pa_memblockq_get_length q ->
              pa_memblockq_get_length (pa_memblockq_drop q n) = pa_memblockq_get_length q - n.
Hypothesis max_block_size_pos :
  forall r, 0 < pa_resampler_max_block_size r.
Hypothesis usec_to_bytes_nonneg :
  forall t ss, 0 <= pa_usec_to_bytes t ss.

Lemma adjust_volume_length (o : pa_source_output) (vn nv : bool) (c : pa_memchunk) :
  chunk_length (fst (adjust_volume o vn nv c)) = chunk_length c.
Proof.
  unfold adjust_volume.
  destruct vn; simpl; [reflexivity|].
  destruct (ti_muted o); simpl; [apply silence_keeps_length|].
  destruct (negb (bool_decide (is_Some (ti_resampler o))) && nv); simpl;
    apply volume_keeps_length.
Qed.

Lemma adjust_volume_nvfs (o : pa_source_output) (vn nv : bool) (c : pa_memchunk) :
  snd (adjust_volume o vn nv c) = nvfs_after o vn nv.
Proof.
  unfold adjust_volume, nvfs_after.
  destruct vn; simpl; [reflexivity|].
  destruct (ti_muted o); simpl; [reflexivity|].
  destruct (negb (bool_decide (is_Some (ti_resampler o))) && nv); reflexivity.
Qed.

Lemma retention_limit_nonneg (o : pa_source_output) :
  0 <= source_max_rewind o -> 0 <= retention_limit o.
Proof.
  intros H. unfold retention_limit.
  destruct (has_process_rewind o), (source_monitor_of o); simpl; try lia.
  destruct (Z.ltb_spec 0 (source_max_rewind o)); [|lia].
  destruct (Z.ltb_spec (pa_usec_to_bytes (pa_sink_get_latency_within_thread p)
                                         (source_sample_spec o)) (source_max_rewind o));
    [apply usec_to_bytes_nonneg | lia].
Qed.

Lemma retention_limit_is_spec (o : pa_source_output) :
  retention_limit o = limit_spec o.
Proof.
  unfold retention_limit, limit_spec.
  destruct (source_monitor_of o); [|reflexivity].
  destruct (0 <? (if has_process_rewind o then 0 else source_max_rewind o)); reflexivity.
Qed.

Lemma resampled_ext (f g : pa_memchunk -> pa_memchunk) (r r' : pa_resampler)
    (t : list event) (n : Z) :
  (forall c, f c = g c) -> resampled f r t n r' -> resampled g r t n r'.
Proof.
  intros Hfg H. induction H as [r|r r1 r' q rchunk t n Hq Hrun _ IH].
  - constructor.
  - rewrite Hfg. apply (resampled_piece g r r1 r' q rchunk); assumption.
Qed.

(** The loop runs to its end, leaves exactly [limit] bytes behind (or the
    whole queue when it is shorter) and delivers the rest. *)
Lemma delay_loop_delivers (limit : Z) (vn nv : bool) :
  0 <= limit ->
  forall (fuel : nat) (mbs : Z) (o : pa_source_output),
    0 <= mbs ->
    (Z.to_nat (pa_memblockq_get_length (delay_memblockq o) - limit) <= fuel)%nat ->
    exists o' t,
      delay_loop fuel limit vn nv mbs o = Done o'
      /\ pa_memblockq_get_length (delay_memblockq o')
         = Z.min (pa_memblockq_get_length (delay_memblockq o)) limit
      /\ trace o' = trace o ++ t
      /\ delivered o o' vn nv t
                   (Z.max 0 (pa_memblockq_get_length (delay_memblockq o) - limit)).
Proof.
  intros Hlim fuel. induction fuel as [|fuel IH]; intros mbs o Hmbs Hfuel.
  - exists o, []. simpl.
    destruct (Z.ltb_spec limit (pa_memblockq_get_length (delay_memblockq o))); [lia|].
    simpl. split; [reflexivity|]. split; [lia|]. split; [symmetry; apply app_nil_r|].
    replace (Z.max 0 _) with 0 by lia.
    unfold delivered. destruct (ti_resampler o) as [r|].
    + exists r. split; [reflexivity | constructor].
    + split; [reflexivity|]. exists []. repeat split. constructor.
  - simpl.
    destruct (Z.ltb_spec limit (pa_memblockq_get_length (delay_memblockq o))) as [Hgt|Hle];
      simpl.
    2:{ exists o, []. split; [reflexivity|]. split; [lia|].
        split; [symmetry; apply app_nil_r|].
        replace (Z.max 0 _) with 0 by lia.
        unfold delivered. destruct (ti_resampler o) as [r|].
        - exists r. split; [reflexivity | constructor].
        - split; [reflexivity|]. exists []. repeat split. constructor. }
    set (len := pa_memblockq_get_length (delay_memblockq o)) in *.
    destruct (peek_nonempty (delay_memblockq o)) as (c & Hpeek & Hc); [fold len; lia|].
    rewrite Hpeek.
    set (q0 := if len - limit <? chunk_length c then truncate c (len - limit) else c).
    assert (Hq0 : 0 < chunk_length q0 <= len - limit).
    { subst q0. destruct (Z.ltb_spec (len - limit) (chunk_length c)); simpl; lia. }
    destruct (Z.ltb_spec 0 (chunk_length q0)) as [_|]; [simpl|lia].
    pose proof (adjust_volume_length o vn nv q0) as Hadj.
    pose proof (adjust_volume_nvfs o vn nv q0) as Hnv.
    destruct (adjust_volume o vn nv q0) as [q1 nvfs]. simpl in Hadj, Hnv. subst nvfs.
    unfold delivered.
    destruct (ti_resampler o) as [r|] eqn:Hres.
    + set (m := if mbs =? 0 then pa_resampler_max_block_size r else mbs).
      assert (Hm : 0 < m).
      { subst m. destruct (Z.eqb_spec mbs 0); [apply max_block_size_pos | lia]. }
      set (q2 := if m <? chunk_length q1 then truncate q1 m else q1).
      assert (Hq2 : 0 < chunk_length q2 <= len - limit).
      { subst q2. destruct (Z.ltb_spec m (chunk_length q1)); simpl; lia. }
      destruct (pa_resampler_run r q2) as [r1 rchunk] eqn:Hrun1.
      match goal with
      | |- exists o' t, delay_loop fuel limit vn nv m ?X = _ /\ _ => set (o1 := X)
      end.
      assert (H1 : ti_resampler o1 = Some r1
                   /\ ti_muted o1 = ti_muted o
                   /\ ti_sample_spec o1 = ti_sample_spec o
                   /\ volume_factor_source o1 = volume_factor_source o
                   /\ pa_memblockq_get_length (delay_memblockq o1) = len - chunk_length q2
                   /\ trace o1
                      = trace o ++ Resample q2
                          :: (if 0 <? chunk_length rchunk
                              then [Push (with_factor o (nvfs_after o vn nv) rchunk)]
                              else [])).
      { subst o1. unfold with_factor.
        destruct (0 <? chunk_length rchunk); simpl;
          rewrite drop_length by (fold len; lia); fold len;
          repeat split; rewrite <- ?app_assoc; reflexivity. }
      destruct H1 as (Hr1 & Hmu1 & Hss1 & Hvf1 & Hlen1 & Htr1).
      destruct (IH m o1) as (o' & t & Hrun & Hlen & Htr & Hdel).
      * lia.
      * rewrite Hlen1. lia.
      * exists o', ((Resample q2
                       :: (if 0 <? chunk_length rchunk
                           then [Push (with_factor o (nvfs_after o vn nv) rchunk)]
                           else [])) ++ t).
        split; [exact Hrun|]. split; [rewrite Hlen, Hlen1; lia|].
        split; [rewrite Htr, Htr1, <- app_assoc; reflexivity|].
        unfold delivered in Hdel. rewrite Hr1 in Hdel.
        destruct Hdel as (r' & Hr' & Hres').
        exists r'. split; [exact Hr'|].
        replace (Z.max 0 (len - limit))
          with (chunk_length q2 + Z.max 0 (len - chunk_length q2 - limit)) by lia.
        rewrite <- app_comm_cons.
        apply (resampled_piece _ r r1 r' q2 rchunk); [lia | exact Hrun1 |].
        rewrite Hlen1 in Hres'.
        apply (resampled_ext (with_factor o1 (nvfs_after o1 vn nv))); [|exact Hres'].
        intros c0. unfold with_factor, nvfs_after.
        rewrite Hmu1, Hss1, Hvf1, Hr1, Hres. reflexivity.
    + set (q2 := if nvfs_after o vn nv
                 then pa_volume_memchunk q1 (ti_sample_spec o) (volume_factor_source o)
                 else q1).
      assert (Hq2 : 0 < chunk_length q2 <= len - limit).
      { subst q2. destruct (nvfs_after o vn nv); rewrite ?volume_keeps_length; lia. }
      match goal with
      | |- exists o' t, delay_loop fuel limit vn nv mbs ?X = _ /\ _ =>
          destruct (IH mbs X) as (o' & t & Hrun & Hlen & Htr & Hdel)
      end.
      * exact Hmbs.
      * simpl. rewrite drop_length by (fold len; lia). fold len. lia.
      * unfold delivered in Hdel. simpl in Hlen, Htr, Hdel.
        rewrite drop_length in Hlen, Hdel by (fold len; lia). fold len in Hlen, Hdel.
        rewrite Hres in Hdel. destruct Hdel as (Hnone & cs & Ht & Hpos & Htot).
        exists o', (Push q2 :: t).
        split; [exact Hrun|]. split; [lia|].
        split; [rewrite Htr, <- app_assoc; reflexivity|].
        split; [exact Hnone|].
        exists (q2 :: cs). split; [rewrite Ht; reflexivity|].
        split; [constructor; [lia | exact Hpos]|].
        simpl. rewrite Htot. lia.
Qed.

(** C7. On a running output with a [push] member the retention limit is 0
    when [process_rewind] is implemented and the source's [max_rewind]
    otherwise, lowered for a monitor source to the bytes of the monitored
    sink's latency when the limit is positive and those are fewer; the call
    returns, and everything the delay queue holds beyond the limit has left
    it: without a resampler every piece has gone to [push], with a resampler
    every piece has been run through it and [push] has got what the
    resampler returned for the piece whenever that was not empty. *)
Theorem push_retention_limit (fuel : nat) (o : pa_source_output) (chunk : pa_memchunk) :
  ti_state o = PA_SOURCE_OUTPUT_RUNNING ->
  has_push o = true ->
  pa_frame_aligned (chunk_length chunk) (source_sample_spec o) = true ->
  0 <= source_max_rewind o ->
  let queued := pa_memblockq_get_length (enqueue (delay_memblockq o) chunk) in
  (Z.to_nat (queued - retention_limit o) <= fuel)%nat ->
  retention_limit o = limit_spec o
  /\ exists o' t,
       pa_source_output_push fuel o chunk = Done o'
       /\ pa_memblockq_get_length (delay_memblockq o') = Z.min queued (limit_spec o)
       /\ trace o' = trace o ++ t
       /\ delivered o o'
                    (pa_cvolume_is_norm (ti_soft_volume o) && negb (ti_muted o))
                    (negb (pa_cvolume_is_norm (volume_factor_source o)))
                    t (Z.max 0 (queued - limit_spec o)).
Proof.
  intros Hst Hpush Hal Hmr queued Hfuel.
  split; [apply retention_limit_is_spec|].
  unfold pa_source_output_push. rewrite Hst, Hpush, Hal. simpl.
  set (o1 := with_queue o (enqueue (delay_memblockq o) chunk)).
  assert (Hl : retention_limit o1 = retention_limit o) by reflexivity.
  rewrite <- (retention_limit_is_spec o).
  destruct (delay_loop_delivers (retention_limit o1)
              (pa_cvolume_is_norm (ti_soft_volume o) && negb (ti_muted o))
              (negb (pa_cvolume_is_norm (volume_factor_source o)))
              (retention_limit_nonneg o1 Hmr) fuel 0 o1)
    as (o' & t & Hrun & Hlen & Htr & Hdel).
  - lia.
  - rewrite Hl. exact Hfuel.
  - exists o', t. split; [exact Hrun|]. rewrite Hl in *.
    split; [exact Hlen|]. split; [exact Htr|]. exact Hdel.
Qed.

End Push.

(** *** A byte-level instance of the collaborators

    Blocks and the queue are lists of bytes, a volume is a factor applied to
    every byte, [peek] returns at most four bytes, the queue never overflows
    and one microsecond is one byte. *)

Module Bytes.

Definition chunk := pa_memchunk (list Z).
Definition queue := list Z.

Definition q_push (q : queue) (c : chunk) : option queue :=
  Some (q ++ take (Z.to_nat (chunk_length _ c)) (chunk_memblock _ c)).
Definition q_seek (q : queue) (n : Z) : queue := q ++ replicate (Z.to_nat n) 0.
Definition q_length (q : queue) : Z := Z.of_nat (length q).
Definition q_peek (q : queue) : option chunk :=
  match q with
  | [] => None
  | _ => Some (mk_chunk _ (take 4 q) (Z.of_nat (length (take 4 q))))
  end.
Definition q_drop (q : queue) (n : Z) : queue := drop (Z.to_nat n) q.

Definition scale (c : chunk) (ss : unit) (v : Z) : chunk :=
  mk_chunk _ (map (Z.mul v) (chunk_memblock _ c)) (chunk_length _ c).
Definition silence (c : chunk) (ss : unit) : chunk :=
  mk_chunk _ (map (fun _ => 0) (chunk_memblock _ c)) (chunk_length _ c).

Lemma q_peek_nonempty (q : queue) :
  0 < q_length q -> exists c, q_peek q = Some c /\ 0 < chunk_length _ c.
Proof.
  destruct q as [|b q]; unfold q_length; simpl; [lia|].
  intros _. eexists. split; [reflexivity|]. simpl. lia.
Qed.

Lemma q_drop_length (q : queue) (n : Z) :
  0 < n <= q_length q -> q_length (q_drop q n) = q_length q - n.
Proof.
  unfold q_length, q_drop. intros H. rewrite length_drop. lia.
Qed.

Definition output := pa_source_output (list Z) Z unit unit queue Z.

Definition push :=
  pa_source_output_push (list Z) Z unit unit queue Z
    (fun v => v =? 1) Z.mul scale silence (fun _ _ => true) (fun t _ => Z.max 0 t)
    (fun latency => latency) (fun _ => 8) (fun r c => (r, c))
    q_push q_seek q_length q_peek q_drop.

(** A running output without [process_rewind] on the monitor source of a sink
    with 3 bytes of latency; [max_rewind] is 5 and 6 bytes are queued. *)
Definition monitor_output : output :=
  mk_output _ _ _ _ _ _ true false PA_SOURCE_OUTPUT_RUNNING 2 false 1 tt None
            [1; 2; 3; 4; 5; 6] tt 5 (Some 3) [].

(** The same output with a resampler, and a resampler that keeps what it is
    given for later: it returns an empty chunk. *)
Definition resampled_output : output :=
  mk_output _ _ _ _ _ _ true false PA_SOURCE_OUTPUT_RUNNING 2 false 1 tt (Some tt)
            [1; 2; 3; 4; 5; 6] tt 5 (Some 3) [].

Definition hold_back (r : unit) (c : chunk) : unit * chunk := (r, mk_chunk _ [] 0).

Definition push_held :=
  pa_source_output_push (list Z) Z unit unit queue Z
    (fun v => v =? 1) Z.mul scale silence (fun _ _ => true) (fun t _ => Z.max 0 t)
    (fun latency => latency) (fun _ => 8) hold_back
    q_push q_seek q_length q_peek q_drop.

End Bytes.

Example push_monitor_output :
  Bytes.push 5 Bytes.monitor_output (mk_chunk _ [7; 8] 2)
  = Done (mk_output _ _ _ _ _ _ true false PA_SOURCE_OUTPUT_RUNNING 2 false 1 tt None
                    [6; 7; 8] tt 5 (Some 3)
                    [Push _ (mk_chunk _ [2; 4; 6; 8] 4); Push _ (mk_chunk _ [10; 12; 14; 16] 1)]).
Proof. reflexivity. Qed.

Lemma push_retention_limit_witness :
  let o := Bytes.monitor_output in
  let chunk := mk_chunk _ [7; 8] 2 in
  retention_limit _ _ _ _ _ _ (fun t _ => Z.max 0 t) (fun latency => latency) o = 3
  /\ exists o' t,
       Bytes.push 5 o chunk = Done o'
       /\ Bytes.q_length (delay_memblockq _ _ _ _ _ _ o') = 3
       /\ trace _ _ _ _ _ _ o' = t
       /\ ti_resampler _ _ _ _ _ _ o' = None
       /\ pushed _ t 5.
Proof.
  intros o chunk.
  pose proof (push_retention_limit (list Z) Z unit unit Bytes.queue Z
                (fun v => v =? 1) Z.mul Bytes.scale Bytes.silence (fun _ _ => true)
                (fun t _ => Z.max 0 t) (fun latency => latency) (fun _ => 8)
                (fun r c => (r, c))
                Bytes.q_push Bytes.q_seek Bytes.q_length Bytes.q_peek Bytes.q_drop
                (fun _ _ _ => eq_refl) (fun _ _ => eq_refl)
                Bytes.q_peek_nonempty Bytes.q_drop_length
                (fun _ => eq_refl) (fun t _ => Z.le_max_l 0 t)
                5%nat o chunk eq_refl eq_refl eq_refl) as H.
  simpl in H.
  apply H; vm_compute; [discriminate | lia].
Defined.

(** C7 as stated fails: with a resampler that holds its input back, the five
    bytes beyond the limit leave the queue, the resampler gets them, and
    [push] is not called at all. *)
Lemma push_without_delivery_counterexample :
  exists o',
    Bytes.push_held 5 Bytes.resampled_output (mk_chunk _ [7; 8] 2) = Done o'
    /\ Bytes.q_length (delay_memblockq _ _ _ _ _ _ o') = 3
    /\ trace _ _ _ _ _ _ o'
       = [Resample _ (mk_chunk _ [2; 4; 6; 8] 4);
          Resample _ (mk_chunk _ [10; 12; 14; 16] 1)]
    /\ forall c, Push _ c ∉ trace _ _ _ _ _ _ o'.
Proof.
  eexists. split; [reflexivity|]. split; [reflexivity|]. split; [reflexivity|].
  intros c Hin. simpl in Hin.
  apply elem_of_cons in Hin as [Hin|Hin]; [discriminate|].
  apply elem_of_cons in Hin as [Hin|Hin]; [discriminate|].
  inversion Hin.
Qed.

End SourceOutputPush.

(** ** Deferred hardware volume: [pa_source_volume_change_push] and
       [pa_source_volume_change_apply] (source.c) *)

Module VolumeChange.
Import Core Volume.

(** [struct pa_source_volume_change]; [c_at] is the member [at]. *)
Record pa_source_volume_change := mk_change {
  c_at : Z;                 (* pa_usec_t *)
  hw_volume : pa_cvolume
}.

(** The debug log and the calls of the implementor's [write_volume]. *)
Inductive log_entry :=
| Log_not_changing
| Log_going (c : pa_source_volume_change)
| Log_dropped (c : pa_source_volume_change)
| Log_written (c : pa_source_volume_change) (late : Z)
| Write_volume (hw : pa_cvolume).

(** The members of [pa_source] and of its [thread_info] the two functions
    use.  [thread_info.volume_changes] is the linked list from its head;
    [thread_info.volume_changes_tail] is its last element. *)
Record pa_source := mk_source {
  state : pa_source_state_t;
  latency_flag : bool;                   (* flags & PA_SOURCE_LATENCY *)
  real_volume : pa_cvolume;
  soft_volume : pa_cvolume;
  has_write_volume : bool;               (* s->write_volume != NULL *)
  ti_state : pa_source_state_t;
  ti_latency_offset : Z;                 (* int64_t *)
  volume_changes : list pa_source_volume_change;
  current_hw_volume : pa_cvolume;
  volume_change_safety_margin : Z;       (* uint32_t *)
  volume_change_extra_delay : Z;         (* int32_t *)
  log : list log_entry
}.

Definition with_changes (s : pa_source) (l : list pa_source_volume_change)
    (cur : pa_cvolume) (lg : list log_entry) : pa_source :=
  mk_source (state s) (latency_flag s) (real_volume s) (soft_volume s)
            (has_write_volume s) (ti_state s) (ti_latency_offset s) l cur
            (volume_change_safety_margin s) (volume_change_extra_delay s) lg.

Definition with_volumes (s : pa_source) (real soft : pa_cvolume) : pa_source :=
  mk_source (state s) (latency_flag s) real soft
            (has_write_volume s) (ti_state s) (ti_latency_offset s) (volume_changes s)
            (current_hw_volume s) (volume_change_safety_margin s)
            (volume_change_extra_delay s) (log s).

(** [(int64_t) usec]. *)
Definition to_int64 (z : Z) : Z := if z <? 2 ^ 63 then z else z - 2 ^ 64.

(** [pa_source_get_latency_within_thread]; [hw] is what the implementor
    answers to [PA_SOURCE_MESSAGE_GET_LATENCY], [None] for a negative return
    value of [process_msg]. *)
Definition pa_source_get_latency_within_thread (s : pa_source) (hw : option Z) : option Z :=
  if negb (PA_SOURCE_IS_LINKED (ti_state s)) then None
  else
    match ti_state s with
    | PA_SOURCE_SUSPENDED => Some 0
    | _ =>
        if negb (latency_flag s) then Some 0
        else
          match hw with
          | None => Some (wrap64 (-1))
          | Some usec =>
              if - ti_latency_offset s <=? to_int64 usec
              then Some (wrap64 (usec + ti_latency_offset s))
              else Some 0
          end
    end.

Section Push.

(** [pa_sw_cvolume_divide] of pulse/volume.c. *)
Variable pa_sw_cvolume_divide : pa_cvolume -> pa_cvolume -> pa_cvolume.

(** The [for] loop of the push, from the tail towards the head:
    [rev_changes] is the list reversed.  On a [break] it returns the element
    [c] it stopped at followed by those before it, and the shifted time. *)
Fixpoint scan_back (nc_at nc_avg safety_margin : Z)
    (rev_changes : list pa_source_volume_change)
  : option (list pa_source_volume_change * Z) :=
  match rev_changes with
  | [] => None
  | c :: before =>
      if pa_cvolume_avg (hw_volume c) <? nc_avg then
        if c_at c <? wrap64 (nc_at + safety_margin)
        then Some (c :: before, wrap64 (nc_at + safety_margin))
        else scan_back nc_at nc_avg safety_margin before
      else if c_at c <? wrap64 (nc_at - safety_margin)
      then Some (c :: before, wrap64 (nc_at - safety_margin))
      else scan_back nc_at nc_avg safety_margin before
  end.

(** [pa_source_volume_change_push (s)], with the answer of the hardware to
    the latency query and the value of [pa_rtclock_now ()]. *)
Definition pa_source_volume_change_push (s : pa_source) (hw_latency : option Z) (now : Z)
  : option pa_source :=
  let safety_margin := volume_change_safety_margin s in
  let nc_hw := pa_sw_cvolume_divide (real_volume s) (soft_volume s) in
  if bool_decide (volume_changes s = []) && pa_cvolume_equal nc_hw (current_hw_volume s) then
    Some (with_changes s (volume_changes s) (current_hw_volume s) (log s ++ [Log_not_changing]))
  else
    latency ← pa_source_get_latency_within_thread s hw_latency;
    let nc_at := wrap64 (latency + wrap64 (now + volume_change_extra_delay s)) in
    let rev_changes := reverse (volume_changes s) in
    match scan_back nc_at (pa_cvolume_avg nc_hw) safety_margin rev_changes with
    | Some (kept, nc_at) =>
        (* PA_LLIST_INSERT_AFTER (c, nc); what followed c is freed *)
        let nc := mk_change nc_at nc_hw in
        let dropped := drop (length kept) (volume_changes s) in
        Some (with_changes s (reverse kept ++ [nc]) (current_hw_volume s)
                           (log s ++ [Log_going nc] ++ map Log_dropped dropped))
    | None =>
        (* c == NULL: PA_LLIST_PREPEND; the whole old list follows nc and is freed *)
        let nc_at := if pa_cvolume_avg (current_hw_volume s) <? pa_cvolume_avg nc_hw
                     then wrap64 (nc_at + safety_margin)
                     else wrap64 (nc_at - safety_margin) in
        let nc := mk_change nc_at nc_hw in
        Some (with_changes s [nc] (current_hw_volume s)
                           (log s ++ [Log_going nc] ++ map Log_dropped (volume_changes s)))
    end.

End Push.

(** The [while] loop of the apply tick over the list from its head. *)
Fixpoint apply_loop (now : Z) (changes : list pa_source_volume_change)
    (cur : pa_cvolume) (lg : list log_entry) (ret : bool)
  : list pa_source_volume_change * pa_cvolume * list log_entry * bool :=
  match changes with
  | c :: rest =>
      if c_at c <=? now
      then apply_loop now rest (hw_volume c) (lg ++ [Log_written c (now - c_at c)]) true
      else (changes, cur, lg, ret)
  | [] => (changes, cur, lg, ret)
  end.

(** [pa_source_volume_change_apply (s, &usec_to_next)] at time [now]; returns
    the source, the return value and [*usec_to_next]. *)
Definition pa_source_volume_change_apply (s : pa_source) (now : Z)
  : option (pa_source * bool * Z) :=
  if bool_decide (volume_changes s = []) || negb (PA_SOURCE_IS_LINKED (state s)) then
    Some (s, false, 0)
  else if negb (has_write_volume s) then None
  else
    let '(changes, cur, lg, ret) :=
      apply_loop now (volume_changes s) (current_hw_volume s) (log s) false in
    let lg := if ret then lg ++ [Write_volume cur] else lg in
    let usec_to_next := match changes with
                        | c :: _ => wrap64 (c_at c - now)
                        | [] => 0
                        end in
    Some (with_changes s changes cur lg, ret, usec_to_next).

(** *** Runs: a sequence of pushes, then a sequence of ticks *)

(** What a push finds: the volumes the control thread has set, the latency
    answer and the clock. *)
Record push_input := mk_push {
  in_real_volume : pa_cvolume;
  in_soft_volume : pa_cvolume;
  in_latency : option Z;
  in_now : Z
}.

Section Runs.

Variable pa_sw_cvolume_divide : pa_cvolume -> pa_cvolume -> pa_cvolume.

Fixpoint run_pushes (s : pa_source) (ps : list push_input) : option pa_source :=
  match ps with
  | [] => Some s
  | p :: ps =>
      s' ← pa_source_volume_change_push pa_sw_cvolume_divide
             (with_volumes s (in_real_volume p) (in_soft_volume p))
             (in_latency p) (in_now p);
      run_pushes s' ps
  end.

Fixpoint run_ticks (s : pa_source) (ticks : list Z) : option pa_source :=
  match ticks with
  | [] => Some s
  | now :: ticks =>
      r ← pa_source_volume_change_apply s now;
      run_ticks (fst (fst r)) ticks
  end.

(** The changes written to the hardware, in the order of the log. *)
Fixpoint applied (lg : list log_entry) : list pa_source_volume_change :=
  match lg with
  | [] => []
  | Log_written c _ :: lg => c :: applied lg
  | _ :: lg => applied lg
  end.

(** Strictly increasing scheduled times. *)
Definition increasing (l : list pa_source_volume_change) : Prop :=
  StronglySorted (fun a b => c_at a < c_at b) l.

Lemma applied_app (l1 l2 : list log_entry) :
  applied (l1 ++ l2) = applied l1 ++ applied l2.
Proof.
  induction l1 as [|e l1 IH]; simpl; [reflexivity|].
  destruct e; rewrite IH; reflexivity.
Qed.

Lemma applied_dropped (l : list pa_source_volume_change) :
  applied (map Log_dropped l) = [].
Proof. induction l; simpl; auto. Qed.

(** Where the scan stops, the element it stopped at is scheduled before the
    shifted time of the new change. *)
Lemma scan_back_stops (a g m : Z) (rl kept : list pa_source_volume_change) (a' : Z) :
  scan_back a g m rl = Some (kept, a') ->
  exists c before skipped,
    kept = c :: before /\ rl = skipped ++ kept /\ c_at c < a'.
Proof.
  induction rl as [|c before IH]; simpl; [discriminate|].
  intros H.
  assert (Hrec : scan_back a g m before = Some (kept, a') ->
                 exists c0 before0 skipped,
                   kept = c0 :: before0 /\ c :: before = skipped ++ kept /\ c_at c0 < a').
  { intros Hs. destruct (IH Hs) as (c0 & b0 & sk & -> & -> & Hlt).
    exists c0, b0, (c :: sk). auto. }
  destruct (pa_cvolume_avg (hw_volume c) <? g).
  - destruct (Z.ltb_spec (c_at c) (wrap64 (a + m))); [|auto].
    injection H as <- <-. exists c, before, []. auto.
  - destruct (Z.ltb_spec (c_at c) (wrap64 (a - m))); [|auto].
    injection H as <- <-. exists c, before, []. auto.
Qed.

Lemma increasing_snoc (l : list pa_source_volume_change) (c nc : pa_source_volume_change) :
  increasing (l ++ [c]) -> c_at c < c_at nc -> increasing ((l ++ [c]) ++ [nc]).
Proof.
  intros Hs Hlt. apply StronglySorted_app_2; [|exact Hs|repeat constructor].
  intros x1 x2 Hx1 Hx2. apply list_elem_of_singleton in Hx2 as ->.
  apply elem_of_app in Hx1 as [Hx1|Hx1].
  - pose proof (StronglySorted_app_1_elem_of _ _ _ x1 c Hs Hx1) as Hx.
    assert (c_at x1 < c_at c) by (apply Hx; apply list_elem_of_singleton; reflexivity).
    lia.
  - apply list_elem_of_singleton in Hx1 as ->. exact Hlt.
Qed.

(** A push keeps the pending list strictly increasing in scheduled time and
    writes nothing to the hardware. *)
Lemma push_keeps_increasing (s s' : pa_source) (hl : option Z) (now : Z) :
  increasing (volume_changes s) ->
  pa_source_volume_change_push pa_sw_cvolume_divide s hl now = Some s' ->
  increasing (volume_changes s')
  /\ applied (log s') = applied (log s)
  /\ state s' = state s /\ ti_state s' = ti_state s
  /\ has_write_volume s' = has_write_volume s.
Proof.
  intros Hs. unfold pa_source_volume_change_push.
  destruct (bool_decide (volume_changes s = []) &&
            pa_cvolume_equal (pa_sw_cvolume_divide (real_volume s) (soft_volume s))
                             (current_hw_volume s)).
  { intros [= <-]. simpl. rewrite applied_app. simpl. rewrite app_nil_r. auto. }
  destruct (pa_source_get_latency_within_thread s hl) as [lat|]; simpl; [|discriminate].
  destruct (scan_back _ _ _ _) as [[kept a']|] eqn:Hscan.
  - intros [= <-]. simpl.
    rewrite applied_app. simpl. rewrite applied_dropped, app_nil_r.
    repeat split; try reflexivity.
    destruct (scan_back_stops _ _ _ _ _ _ Hscan) as (c & before & skipped & -> & Hrl & Hlt).
    assert (Hl : volume_changes s = (reverse before ++ [c]) ++ reverse skipped).
    { rewrite <- (reverse_involutive (volume_changes s)), Hrl.
      rewrite reverse_app, reverse_cons. reflexivity. }
    rewrite reverse_cons. apply increasing_snoc; [|exact Hlt].
    rewrite Hl in Hs. exact (StronglySorted_app_1_l _ _ _ Hs).
  - intros [= <-]. simpl.
    rewrite applied_app. simpl. rewrite applied_dropped, app_nil_r.
    repeat split; try reflexivity. repeat constructor.
Qed.

(** On a linked source the push returns. *)
Lemma push_returns (s : pa_source) (hl : option Z) (now : Z) :
  PA_SOURCE_IS_LINKED (ti_state s) = true ->
  is_Some (pa_source_volume_change_push pa_sw_cvolume_divide s hl now).
Proof.
  intros Hl. unfold pa_source_volume_change_push.
  destruct (_ && _); [eauto|].
  unfold pa_source_get_latency_within_thread. rewrite Hl. simpl.
  destruct (ti_state s), (latency_flag s), hl; simpl;
    repeat match goal with |- context [if ?b then _ else _] => destruct b end;
    simpl; destruct (scan_back _ _ _ _) as [[? ?]|]; eauto.
Qed.

Lemma run_pushes_increasing (ps : list push_input) (s : pa_source) :
  PA_SOURCE_IS_LINKED (ti_state s) = true ->
  increasing (volume_changes s) ->
  exists s', run_pushes s ps = Some s'
             /\ increasing (volume_changes s')
             /\ applied (log s') = applied (log s)
             /\ has_write_volume s' = has_write_volume s.
Proof.
  revert s. induction ps as [|p ps IH]; intros s Hl Hs; simpl; [eauto|].
  set (s0 := with_volumes s (in_real_volume p) (in_soft_volume p)).
  destruct (push_returns s0 (in_latency p) (in_now p) Hl) as [s1 Hp].
  rewrite Hp. simpl.
  destruct (push_keeps_increasing s0 s1 _ _ Hs Hp) as (Hs1 & Hap & _ & Hti & Hw).
  destruct (IH s1) as (s' & Hrun & Hs' & Hap' & Hw'); [rewrite Hti; exact Hl|exact Hs1|].
  exists s'. split; [exact Hrun|]. split; [exact Hs'|].
  split; [rewrite Hap', Hap; reflexivity | rewrite Hw', Hw; reflexivity].
Qed.

(** The loop of a tick takes a prefix off the pending list and logs it. *)
Lemma apply_loop_prefix (now : Z) (l : list pa_source_volume_change) :
  forall cur lg ret l' cur' lg' ret',
    apply_loop now l cur lg ret = (l', cur', lg', ret') ->
    exists pre, l = pre ++ l' /\ applied lg' = applied lg ++ pre.
Proof.
  induction l as [|c l IH]; simpl; intros cur lg ret l' cur' lg' ret' H.
  - injection H as <- _ <- _. exists []. split; [reflexivity | symmetry; apply app_nil_r].
  - destruct (c_at c <=? now).
    + destruct (IH _ _ _ _ _ _ _ H) as (pre & -> & Hap).
      exists (c :: pre). split; [reflexivity|].
      rewrite Hap, applied_app. simpl. rewrite <- app_assoc. reflexivity.
    + injection H as <- _ <- _. exists []. split; [reflexivity | symmetry; apply app_nil_r].
Qed.

Lemma apply_prefix (s : pa_source) (now : Z) :
  has_write_volume s = true ->
  exists s' ret next,
    pa_source_volume_change_apply s now = Some (s', ret, next)
    /\ applied (log s') ++ volume_changes s' = applied (log s) ++ volume_changes s
    /\ has_write_volume s' = true.
Proof.
  intros Hw. unfold pa_source_volume_change_apply.
  destruct (_ || _); [eauto 10|].
  rewrite Hw. simpl.
  destruct (apply_loop now (volume_changes s) (current_hw_volume s) (log s) false)
    as [[[l' cur'] lg'] ret'] eqn:Hloop.
  destruct (apply_loop_prefix _ _ _ _ _ _ _ _ _ Hloop) as (pre & Hl & Hap).
  eexists _, _, _. split; [reflexivity|]. simpl. split; [|exact Hw].
  rewrite Hl, app_assoc, <- Hap.
  destruct ret'; [rewrite applied_app; simpl; rewrite app_nil_r|]; reflexivity.
Qed.

Lemma run_ticks_prefix (ticks : list Z) (s : pa_source) :
  has_write_volume s = true ->
  exists s', run_ticks s ticks = Some s'
             /\ applied (log s') ++ volume_changes s' = applied (log s) ++ volume_changes s.
Proof.
  revert s. induction ticks as [|now ticks IH]; intros s Hw; simpl; [eauto|].
  destruct (apply_prefix s now Hw) as (s1 & ret & next & Hap & Heq & Hw1).
  rewrite Hap. simpl.
  destruct (IH s1 Hw1) as (s' & Hrun & Heq').
  exists s'. split; [exact Hrun|]. rewrite Heq', Heq. reflexivity.
Qed.

(** C2 (amended). After any sequence of pushes followed by any sequence of
    apply ticks on a linked source with a [write_volume] member, the changes
    written to the hardware were written in strictly increasing order of
    their scheduled times: they are the head of the pending list the pushes
    left, and that list is strictly increasing. *)
Theorem applied_in_increasing_order
    (s0 : pa_source) (pushes : list push_input) (ticks : list Z) :
  PA_SOURCE_IS_LINKED (ti_state s0) = true ->
  has_write_volume s0 = true ->
  increasing (volume_changes s0) ->
  applied (log s0) = [] ->
  exists s1 s2,
    run_pushes s0 pushes = Some s1
    /\ run_ticks s1 ticks = Some s2
    /\ volume_changes s1 = applied (log s2) ++ volume_changes s2
    /\ increasing (applied (log s2)).
Proof.
  intros Hl Hw Hs Hap.
  destruct (run_pushes_increasing pushes s0 Hl Hs) as (s1 & Hp & Hs1 & Hap1 & Hw1).
  destruct (run_ticks_prefix ticks s1) as (s2 & Ht & Heq); [rewrite Hw1; exact Hw|].
  exists s1, s2. rewrite Hap1, Hap in Heq. simpl in Heq.
  split; [exact Hp|]. split; [exact Ht|]. split; [symmetry; exact Heq|].
  rewrite <- Heq in Hs1. exact (StronglySorted_app_1_l _ _ _ Hs1).
Qed.

End Runs.

(** *** The S3-like run that separates two changes by less than the margin *)

(** With a soft volume at NORM the hardware volume is the real volume. *)
Definition divide_by_norm (real soft : pa_cvolume) : pa_cvolume := real.

(** A linked stereo source, nothing pending, hardware volume at 0x4000,
    safety margin 10 usec, no extra delay, no latency reporting. *)
Definition fresh_source : pa_source :=
  mk_source PA_SOURCE_RUNNING false [16384; 16384] [65536; 65536] true
            PA_SOURCE_RUNNING 0 [] [16384; 16384] 10 0 [].

(** The volume goes up at 100 usec and down again at 121 usec. *)
Definition up_then_down : list push_input :=
  [ mk_push [49152; 49152] [65536; 65536] None 100;
    mk_push [32768; 32768] [65536; 65536] None 121 ].

Lemma applied_in_increasing_order_witness :
  exists s1 s2,
    run_pushes divide_by_norm fresh_source up_then_down = Some s1
    /\ run_ticks s1 [90; 200] = Some s2
    /\ volume_changes s1 = applied (log s2) ++ volume_changes s2
    /\ increasing (applied (log s2)).
Proof.
  apply (applied_in_increasing_order divide_by_norm fresh_source up_then_down [90; 200]).
  - reflexivity.
  - reflexivity.
  - constructor.
  - reflexivity.
Defined.

(** C2 as stated fails in its second half: the two changes of the run above
    are scheduled at 110 and 111 usec and both are written by the tick at
    200 usec, one microsecond apart although the safety margin is 10. *)
Lemma applied_gap_counterexample :
  exists s1 s2 c1 c2,
    run_pushes divide_by_norm fresh_source up_then_down = Some s1
    /\ run_ticks s1 [90; 200] = Some s2
    /\ applied (log s2) = [c1; c2]
    /\ c_at c1 = 110 /\ c_at c2 = 111
    /\ ~ (c_at c2 - c_at c1 >= volume_change_safety_margin s2).
Proof.
  eexists _, _, _, _.
  split; [vm_compute; reflexivity|].
  split; [vm_compute; reflexivity|].
  split; [vm_compute; reflexivity|].
  split; [reflexivity|]. split; [reflexivity|].
  vm_compute. intros H. apply H. reflexivity.
Qed.

End VolumeChange.

(** ** Moving a capture stream: [pa_source_output_may_move_to] and
       [find_filter_source_output] (source-output.c) *)

Module Move.
Import Core.

(** Objects are referred to by their address, a [nat]; [None] is [NULL]. *)
Record pa_source := mk_source {
  s_name : string;
  s_outputs : list nat;               (* the outputs idxset *)
  output_from_master : option nat     (* of a filter source: its stream on the master *)
}.

Record pa_source_output := mk_output {
  o_state : pa_source_output_state_t;
  o_source : option nat;              (* NULL while the stream is being moved *)
  dont_move : bool;                   (* flags & PA_SOURCE_OUTPUT_DONT_MOVE *)
  direct_on_input : option nat;
  has_may_move_to : bool              (* o->may_move_to != NULL *)
}.

Record core := mk_core {
  sources : gmap nat pa_source;
  source_outputs : gmap nat pa_source_output
}.

Section MayMoveTo.

(** [PA_MAX_OUTPUTS_PER_SOURCE] (source.h) and the implementor's
    [may_move_to] member. *)
Variable PA_MAX_OUTPUTS_PER_SOURCE : Z.
Variable may_move_to_cb : nat -> nat -> bool.

(** [pa_source_output_may_move]; the caller has asserted that [o] is linked. *)
Definition pa_source_output_may_move (o : pa_source_output) : option bool :=
  if negb (PA_SOURCE_OUTPUT_IS_LINKED (o_state o)) then None
  else if dont_move o then Some false
  else if bool_decide (is_Some (direct_on_input o)) then Some false
  else Some true.

(** The loop of [find_filter_source_output]; [budget] is how often
    [pa_assert (i++ < 100)] will still hold.  [None] is the failed assertion
    (or a pointer that leads nowhere). *)
Fixpoint filter_walk (c : core) (target : nat) (s : option nat) (budget : nat)
  : option bool :=
  match s with
  | None => Some false
  | Some sid =>
      src ← sources c !! sid;
      match output_from_master src with
      | None => Some false
      | Some oid =>
          if decide (oid = target) then Some true
          else
            o ← source_outputs c !! oid;
            match budget with
            | O => None
            | S budget => filter_walk c target (o_source o) budget
            end
      end
  end.

Definition find_filter_source_output (c : core) (target : nat) (s : option nat)
  : option bool :=
  filter_walk c target s 100.

(** [pa_source_output_may_move_to (o, dest)]. *)
Definition pa_source_output_may_move_to (c : core) (oid dest : nat) : option bool :=
  o ← source_outputs c !! oid;
  d ← sources c !! dest;
  if negb (PA_SOURCE_OUTPUT_IS_LINKED (o_state o)) then None
  else if decide (Some dest = o_source o) then Some true
  else
    movable ← pa_source_output_may_move o;
    if negb movable then Some false
    else
      found ← find_filter_source_output c oid (Some dest);
      if (found : bool) then Some false
      else if PA_MAX_OUTPUTS_PER_SOURCE <=? Z.of_nat (length (s_outputs d)) then Some false
      else if has_may_move_to o then
             if negb (may_move_to_cb oid dest) then Some false else Some true
           else Some true.

(** The filter-cycle condition in the words of the specification: [target]
    appears on the chain obtained by repeatedly following
    [output_from_master] (and then the source of that stream) from [s]. *)
Inductive on_chain (c : core) (target : nat) : nat -> Prop :=
| on_chain_here (sid : nat) (src : pa_source) :
    sources c !! sid = Some src ->
    output_from_master src = Some target ->
    on_chain c target sid
| on_chain_next (sid : nat) (src : pa_source) (oid : nat) (o : pa_source_output) (sid' : nat) :
    sources c !! sid = Some src ->
    output_from_master src = Some oid ->
    source_outputs c !! oid = Some o ->
    o_source o = Some sid' ->
    on_chain c target sid' ->
    on_chain c target sid.

(** The walk finds the target exactly when it is on the chain. *)
Lemma filter_walk_found (c : core) (target : nat) (budget : nat) :
  forall sid, filter_walk c target (Some sid) budget = Some true -> on_chain c target sid.
Proof.
  induction budget as [|budget IH]; intros sid; simpl;
    destruct (sources c !! sid) as [src|] eqn:Hs; simpl; try discriminate;
    destruct (output_from_master src) as [oid|] eqn:Hm; try discriminate;
    (destruct (decide (oid = target)) as [->|Hne];
     [intros _; eapply on_chain_here; eauto|]);
    destruct (source_outputs c !! oid) as [o|] eqn:Ho; simpl; try discriminate.
  destruct (o_source o) as [sid'|] eqn:Hsrc.
  - intros H. eapply on_chain_next; eauto.
  - destruct budget; simpl; discriminate.
Qed.

Lemma filter_walk_not_found (c : core) (target : nat) (budget : nat) :
  forall sid, filter_walk c target (Some sid) budget = Some false -> ~ on_chain c target sid.
Proof.
  induction budget as [|budget IH]; intros sid; simpl;
    destruct (sources c !! sid) as [src|] eqn:Hs; simpl; try discriminate;
    destruct (output_from_master src) as [oid|] eqn:Hm.
  - destruct (decide (oid = target)) as [->|Hne]; [discriminate|].
    destruct (source_outputs c !! oid); discriminate.
  - intros _ Hc. inversion Hc; congruence.
  - destruct (decide (oid = target)) as [->|Hne]; [discriminate|].
    destruct (source_outputs c !! oid) as [o|] eqn:Ho; simpl; [|discriminate].
    intros Hw Hc. inversion Hc as [? ? Hs' Hm'|? ? ? ? sid' Hs' Hm' Ho' Hsrc Hrest]; subst.
    + congruence.
    + assert (src0 = src) by congruence. subst src0.
      assert (oid0 = oid) by congruence. subst oid0.
      assert (o0 = o) by congruence. subst o0.
      rewrite Hsrc in Hw. exact (IH sid' Hw Hrest).
  - intros _ Hc. inversion Hc; congruence.
Qed.

(** C3 (amended). For a linked output [o] and a source [dest] from which
    the [output_from_master] chain ends or meets [o] within the 100 steps the
    walk allows: [pa_source_output_may_move_to] returns TRUE when [dest] is
    the source [o] is on; otherwise it returns FALSE exactly when [o] may not
    move at all (DONT_MOVE, or bound to a sink input), or [o] is on the chain
    from [dest] (the filter-cycle check), or [dest] already has
    [PA_MAX_OUTPUTS_PER_SOURCE] outputs, or the implementor's [may_move_to]
    refuses. *)
Theorem may_move_to_result
    (c : core) (oid dest : nat) (o : pa_source_output) (d : pa_source) :
  source_outputs c !! oid = Some o ->
  sources c !! dest = Some d ->
  PA_SOURCE_OUTPUT_IS_LINKED (o_state o) = true ->
  is_Some (find_filter_source_output c oid (Some dest)) ->
  exists b,
    pa_source_output_may_move_to c oid dest = Some b
    /\ (o_source o = Some dest -> b = true)
    /\ (o_source o <> Some dest ->
        (b = false <->
         dont_move o = true
         \/ is_Some (direct_on_input o)
         \/ on_chain c oid dest
         \/ PA_MAX_OUTPUTS_PER_SOURCE <= Z.of_nat (length (s_outputs d))
         \/ (has_may_move_to o = true /\ may_move_to_cb oid dest = false))).
Proof.
  intros Ho Hd Hl [found Hf].
  unfold pa_source_output_may_move_to, pa_source_output_may_move.
  rewrite Ho, Hd. simpl. rewrite Hl. simpl.
  destruct (decide (Some dest = o_source o)) as [E|NE].
  { exists true. split; [reflexivity|]. split; [reflexivity|]. intros N. congruence. }
  assert (Hchain : found = true <-> on_chain c oid dest).
  { destruct found.
    - split; [intros _; exact (filter_walk_found _ _ _ _ Hf) | reflexivity].
    - split; [discriminate | intros Hc; destruct (filter_walk_not_found _ _ _ _ Hf Hc)]. }
  destruct (dont_move o) eqn:Hdm; simpl.
  { exists false. split; [reflexivity|]. split; [congruence|]. intros _. split; auto. }
  destruct (direct_on_input o) as [di|] eqn:Hdi; simpl.
  { exists false. split; [reflexivity|]. split; [congruence|]. intros _. split; eauto. }
  assert (Hnd : ~ is_Some (@None nat)) by (intros [? ?]; discriminate).
  rewrite Hf. simpl.
  destruct found.
  { exists false. split; [reflexivity|]. split; [congruence|]. intros _.
    split; [|reflexivity]. intros _. right. right. left. apply Hchain. reflexivity. }
  assert (Hnc : ~ on_chain c oid dest) by (intros Hc; apply Hchain in Hc; discriminate).
  destruct (Z.leb_spec PA_MAX_OUTPUTS_PER_SOURCE (Z.of_nat (length (s_outputs d)))) as [Hmax|Hmax].
  { exists false. split; [reflexivity|]. split; [congruence|]. intros _. split; auto. }
  destruct (has_may_move_to o) eqn:Hcb.
  - destruct (may_move_to_cb oid dest) eqn:Hans; simpl.
    + exists true. split; [reflexivity|]. split; [reflexivity|]. intros _.
      split; [discriminate|].
      intros [?|[?|[?|[?|[_ ?]]]]]; try discriminate; try contradiction; lia.
    + exists false. split; [reflexivity|]. split; [congruence|]. intros _.
      split; [|reflexivity]. intros _. do 4 right. auto.
  - exists true. split; [reflexivity|]. split; [reflexivity|]. intros _.
    split; [discriminate|].
    intros [?|[?|[?|[?|[? _]]]]]; try discriminate; try contradiction; lia.
Qed.

End MayMoveTo.

(** Source 1 is a master with the stream 10 of a client and the stream 11
    of the filter source 2; stream 12 is recorded from the filter source. *)
Definition filter_setup : core :=
  mk_core
    (<[1%nat := mk_source "alsa_input" [10; 11]%nat None]>
       (<[2%nat := mk_source "echo_cancel" [12]%nat (Some 11%nat)]> ∅))
    (<[10%nat := mk_output PA_SOURCE_OUTPUT_RUNNING (Some 1%nat) false None false]>
       (<[11%nat := mk_output PA_SOURCE_OUTPUT_RUNNING (Some 1%nat) false None false]>
          (<[12%nat := mk_output PA_SOURCE_OUTPUT_RUNNING (Some 2%nat) false None false]> ∅))).

Lemma may_move_to_result_witness :
  exists b,
    pa_source_output_may_move_to 32 (fun _ _ => true) filter_setup 11 2 = Some b
    /\ (Some 1%nat = Some 2%nat -> b = true)
    /\ (Some 1%nat <> Some 2%nat ->
        (b = false <->
         false = true
         \/ is_Some (@None nat)
         \/ on_chain filter_setup 11 2
         \/ 32 <= Z.of_nat (length [12%nat])
         \/ (false = true /\ true = false))).
Proof.
  apply (may_move_to_result 32 (fun _ _ => true) filter_setup 11 2
           (mk_output PA_SOURCE_OUTPUT_RUNNING (Some 1%nat) false None false)
           (mk_source "echo_cancel" [12]%nat (Some 11%nat))).
  - reflexivity.
  - reflexivity.
  - reflexivity.
  - vm_compute. eauto.
Defined.

(** C3 as stated fails in both directions.  The client stream 10 may "move"
    to the source it is on: the call returns TRUE although [dest] equals its
    current source.  And a stream flagged DONT_MOVE is refused on a source
    that is neither its own nor behind it on a filter chain. *)
Lemma may_move_to_counterexample :
  (pa_source_output_may_move_to 32 (fun _ _ => true) filter_setup 10 1 = Some true
   /\ o_source (mk_output PA_SOURCE_OUTPUT_RUNNING (Some 1%nat) false None false) = Some 1%nat)
  /\
  (let pinned := mk_output PA_SOURCE_OUTPUT_RUNNING (Some 1%nat) true None false in
   let c := mk_core (sources filter_setup) (<[10%nat := pinned]> (source_outputs filter_setup)) in
   pa_source_output_may_move_to 32 (fun _ _ => true) c 10 2 = Some false
   /\ o_source pinned <> Some 2%nat
   /\ ~ on_chain c 10 2).
Proof.
  split.
  - split; reflexivity.
  - split; [reflexivity|]. split; [discriminate|].
    apply (filter_walk_not_found _ 10 100). reflexivity.
Qed.

End Move.

(** ** Mixer paths: [pa_alsa_path_probe], [element_is_subset] and
       [path_set_condense] (alsa-mixer.c, alsa-mixer.h) *)

Module AlsaMixer.

Inductive pa_alsa_switch_use_t :=
| PA_ALSA_SWITCH_IGNORE
| PA_ALSA_SWITCH_MUTE
| PA_ALSA_SWITCH_OFF
| PA_ALSA_SWITCH_ON
| PA_ALSA_SWITCH_SELECT.

Inductive pa_alsa_volume_use_t :=
| PA_ALSA_VOLUME_IGNORE
| PA_ALSA_VOLUME_MERGE
| PA_ALSA_VOLUME_OFF
| PA_ALSA_VOLUME_ZERO
| PA_ALSA_VOLUME_CONSTANT.

Inductive pa_alsa_enumeration_use_t :=
| PA_ALSA_ENUMERATION_IGNORE
| PA_ALSA_ENUMERATION_SELECT.

Inductive pa_alsa_required_t :=
| PA_ALSA_REQUIRED_IGNORE
| PA_ALSA_REQUIRED_SWITCH
| PA_ALSA_REQUIRED_VOLUME
| PA_ALSA_REQUIRED_ENUMERATION
| PA_ALSA_REQUIRED_ANY.

Inductive pa_alsa_direction_t :=
| PA_ALSA_DIRECTION_ANY
| PA_ALSA_DIRECTION_OUTPUT
| PA_ALSA_DIRECTION_INPUT.

Inductive pa_available_t :=
| PA_AVAILABLE_UNKNOWN
| PA_AVAILABLE_NO
| PA_AVAILABLE_YES.

#[global] Instance switch_use_eq_dec : EqDecision pa_alsa_switch_use_t.
Proof. solve_decision. Defined.
#[global] Instance volume_use_eq_dec : EqDecision pa_alsa_volume_use_t.
Proof. solve_decision. Defined.
#[global] Instance enumeration_use_eq_dec : EqDecision pa_alsa_enumeration_use_t.
Proof. solve_decision. Defined.
#[global] Instance required_eq_dec : EqDecision pa_alsa_required_t.
Proof. solve_decision. Defined.
#[global] Instance direction_eq_dec : EqDecision pa_alsa_direction_t.
Proof. solve_decision. Defined.
#[global] Instance available_eq_dec : EqDecision pa_available_t.
Proof. solve_decision. Defined.

Record pa_alsa_option := mk_option {
  o_alsa_name : string;
  alsa_idx : Z;
  o_name : string;
  o_description : string;
  o_priority : Z
}.

(** [db_values] is indexed by the step minus [min_step]. *)
Record pa_alsa_decibel_fix := mk_db_fix {
  min_step : Z;
  max_step : Z;
  db_values : list Z
}.

Record pa_alsa_jack := mk_jack {
  j_alsa_name : string;
  has_control : bool;
  state_unplugged : pa_available_t;
  state_plugged : pa_available_t;
  j_required : pa_alsa_required_t;
  j_required_any : pa_alsa_required_t;
  j_required_absent : pa_alsa_required_t
}.

(** The keys of the hashmap [paths] of a path set are pointers, hashed and
    compared as such ([pa_idxset_trivial_hash_func]): the address of the
    path in a set made from path names, the address of the name in a set
    made from element names.  A path and a string are never at the same
    address. *)
Inductive pointer :=
| To_path (a : nat)
| To_string (a : nat).

#[global] Instance pointer_eq_dec : EqDecision pointer.
Proof. solve_decision. Defined.

(** [SND_MIXER_SCHN_LAST + 1] and [PA_CHANNEL_POSITION_MAX]. *)
Definition SND_MIXER_SCHN_COUNT : nat := 32.
Definition PA_CHANNEL_POSITION_MAX : nat := 51.
Definition PA_CHANNEL_POSITION_MASK (t : nat) : Z := Z.shiftl 1 (Z.of_nat t).

Section Mixer.

(** C [double]s ([min_dB], [max_dB]) with the operations the probe uses. *)
Variable double : Type.
Variable d_zero d_infinity d_neg_infinity : double.
Variable d_add : double -> double -> double.
Variable d_lt : double -> double -> bool.

(** [masks s c] is [masks[s][c]]. *)
Record pa_alsa_element := mk_element {
  alsa_name : string;
  direction : pa_alsa_direction_t;
  switch_use : pa_alsa_switch_use_t;
  volume_use : pa_alsa_volume_use_t;
  enumeration_use : pa_alsa_enumeration_use_t;
  required_absent : pa_alsa_required_t;
  constant_volume : Z;
  has_dB : bool;
  min_volume : Z;
  max_volume : Z;
  volume_limit : Z;                 (* -1 for no configured limit *)
  min_dB : double;
  max_dB : double;
  masks : nat -> Z -> Z;
  n_channels : Z;
  merged_mask : Z;
  options : list pa_alsa_option;
  db_fix : option pa_alsa_decibel_fix
}.

Definition with_volume (e : pa_alsa_element) (u : pa_alsa_volume_use_t) (dB : bool)
  : pa_alsa_element :=
  mk_element (alsa_name e) (direction e) (switch_use e) u (enumeration_use e)
             (required_absent e) (constant_volume e) dB (min_volume e) (max_volume e) (volume_limit e)
             (min_dB e) (max_dB e) (masks e) (n_channels e) (merged_mask e)
             (options e) (db_fix e).

Definition with_options (e : pa_alsa_element) (os : list pa_alsa_option) : pa_alsa_element :=
  mk_element (alsa_name e) (direction e) (switch_use e) (volume_use e) (enumeration_use e)
             (required_absent e) (constant_volume e) (has_dB e) (min_volume e) (max_volume e) (volume_limit e)
             (min_dB e) (max_dB e) (masks e) (n_channels e) (merged_mask e)
             os (db_fix e).

(** The settings are built by [path_create_settings]; the probe only stores
    them. *)
Variable pa_alsa_setting : Type.

Record pa_alsa_path := mk_path {
  p_direction : pa_alsa_direction_t;
  p_name : string;
  probed : bool;
  supported : bool;
  has_mute : bool;
  has_volume : bool;
  p_has_dB : bool;
  has_req_any : bool;
  req_any_present : bool;
  p_min_volume : Z;
  p_max_volume : Z;
  p_min_dB : double;
  p_max_dB : double;
  elements : list pa_alsa_element;
  settings : list pa_alsa_setting;
  jacks : list pa_alsa_jack
}.

(** The flags and ranges of a path that the element loop updates. *)
Record path_volume := mk_pv {
  pv_has_mute : bool;
  pv_has_volume : bool;
  pv_has_dB : bool;
  pv_req_any_present : bool;
  pv_min_volume : Z;
  pv_max_volume : Z
}.

(** The locals [min_dB], [max_dB] and [path_volume_channels] of the probe. *)
Record probe_locals := mk_locals {
  l_min_dB : nat -> double;
  l_max_dB : nat -> double;
  path_volume_channels : Z
}.

Definition covers (e : pa_alsa_element) (t : nat) : bool :=
  negb (Z.land (PA_CHANNEL_POSITION_MASK t) (merged_mask e) =? 0).

(** The two [for (t = 0; t < PA_CHANNEL_POSITION_MAX; t++)] loops over the
    positions of an element with dB. *)
Definition positions_mask (e : pa_alsa_element) : Z :=
  foldr (fun t acc => if covers e t then Z.lor acc (PA_CHANNEL_POSITION_MASK t) else acc)
        0 (seq 0 PA_CHANNEL_POSITION_MAX).

Definition assign_dB (l : probe_locals) (e : pa_alsa_element) : probe_locals :=
  mk_locals
    (fun t => if (t <? PA_CHANNEL_POSITION_MAX)%nat && covers e t then min_dB e else l_min_dB l t)
    (fun t => if (t <? PA_CHANNEL_POSITION_MAX)%nat && covers e t then max_dB e else l_max_dB l t)
    (Z.lor (path_volume_channels l) (positions_mask e)).

Definition add_dB (l : probe_locals) (e : pa_alsa_element) : probe_locals :=
  mk_locals
    (fun t => if (t <? PA_CHANNEL_POSITION_MAX)%nat && covers e t
              then d_add (l_min_dB l t) (min_dB e) else l_min_dB l t)
    (fun t => if (t <? PA_CHANNEL_POSITION_MAX)%nat && covers e t
              then d_add (l_max_dB l t) (max_dB e) else l_max_dB l t)
    (Z.lor (path_volume_channels l) (positions_mask e)).

(** The body of [if (e->volume_use == PA_ALSA_VOLUME_MERGE)] in the element
    loop. *)
Definition merge_volume (pv : path_volume) (l : probe_locals) (e : pa_alsa_element)
  : path_volume * probe_locals * pa_alsa_element :=
  let '(lo, hi) := if negb (pv_has_volume pv)
                   then (min_volume e, max_volume e)
                   else (pv_min_volume pv, pv_max_volume pv) in
  let '(dB, l, e) :=
    if has_dB e then
      if negb (pv_has_volume pv) then (true, assign_dB l e, e)
      else if pv_has_dB pv then (pv_has_dB pv, add_dB l e, e)
      else
        (* there's another element before us which cannot do dB volumes, so
           we need to 'neutralize' this slider *)
        (pv_has_dB pv, l, with_volume e PA_ALSA_VOLUME_ZERO (has_dB e))
    else if pv_has_volume pv then
      (* we can't use this volume, so let's ignore it *)
      (pv_has_dB pv, l, with_volume e PA_ALSA_VOLUME_IGNORE (has_dB e))
    else (pv_has_dB pv, l, e) in
  (mk_pv (pv_has_mute pv) true dB (pv_req_any_present pv) lo hi, l, e).

(** [element_probe] talks to the mixer; it returns the probed element and
    whether it set [path->req_any_present], or fails. *)
Variable element_probe : pa_alsa_element -> option (pa_alsa_element * bool).

(** One round of [PA_LLIST_FOREACH (e, p->elements)] after a successful
    [element_probe]. *)
Definition probe_step (ignore_dB : bool) (pv : path_volume) (l : probe_locals)
    (e : pa_alsa_element) (req_any : bool)
  : path_volume * probe_locals * pa_alsa_element :=
  let pv := mk_pv (pv_has_mute pv) (pv_has_volume pv) (pv_has_dB pv)
                  (pv_req_any_present pv || req_any) (pv_min_volume pv) (pv_max_volume pv) in
  let e := if ignore_dB then with_volume e (volume_use e) false else e in
  let '(pv, l, e) :=
    if bool_decide (volume_use e = PA_ALSA_VOLUME_MERGE) then merge_volume pv l e
    else (pv, l, e) in
  let pv := if bool_decide (switch_use e = PA_ALSA_SWITCH_MUTE)
            then mk_pv true (pv_has_volume pv) (pv_has_dB pv) (pv_req_any_present pv)
                       (pv_min_volume pv) (pv_max_volume pv)
            else pv in
  (pv, l, e).

(** The element loop: the elements already visited (in order), the state of
    the path, and whether every probe succeeded.  When one fails the
    remaining elements stay as they are. *)
Fixpoint probe_elements (ignore_dB : bool) (pv : path_volume) (l : probe_locals)
    (todo : list pa_alsa_element)
  : bool * path_volume * probe_locals * list pa_alsa_element :=
  match todo with
  | [] => (true, pv, l, [])
  | e :: todo =>
      match element_probe e with
      | None => (false, pv, l, e :: todo)
      | Some (e, req_any) =>
          let '(pv, l, e) := probe_step ignore_dB pv l e req_any in
          let '(ok, pv, l, es) := probe_elements ignore_dB pv l todo in
          (ok, pv, l, e :: es)
      end
  end.

(** [jack_probe]; [pa_alsa_find_jack] asks the hardware control interface. *)
Variable pa_alsa_find_jack : string -> bool.

Definition jack_probe (j : pa_alsa_jack) : option (pa_alsa_jack * bool) :=
  let found := pa_alsa_find_jack (j_alsa_name j) in
  let j := mk_jack (j_alsa_name j) found (state_unplugged j) (state_plugged j)
                   (j_required j) (j_required_any j) (j_required_absent j) in
  if found then
    if negb (bool_decide (j_required_absent j = PA_ALSA_REQUIRED_IGNORE)) then None
    else Some (j, negb (bool_decide (j_required_any j = PA_ALSA_REQUIRED_IGNORE)))
  else if negb (bool_decide (j_required j = PA_ALSA_REQUIRED_IGNORE)) then None
  else Some (j, false).

Fixpoint probe_jacks (req_any_present : bool) (todo : list pa_alsa_jack)
  : bool * bool * list pa_alsa_jack :=
  match todo with
  | [] => (true, req_any_present, [])
  | j :: todo =>
      match jack_probe j with
      | None =>
          (false, req_any_present,
           mk_jack (j_alsa_name j) (pa_alsa_find_jack (j_alsa_name j)) (state_unplugged j)
                   (state_plugged j) (j_required j) (j_required_any j) (j_required_absent j)
           :: todo)
      | Some (j, req_any) =>
          let '(ok, r, js) := probe_jacks (req_any_present || req_any) todo in
          (ok, r, j :: js)
      end
  end.

(** [element_drop_unsupported] and [path_drop_unsupported]. *)
Definition element_drop_unsupported (e : pa_alsa_element) : bool * pa_alsa_element :=
  let e := with_options e (filter (fun o => 0 <= alsa_idx o) (options e)) in
  (negb (bool_decide (switch_use e = PA_ALSA_SWITCH_IGNORE))
   || negb (bool_decide (volume_use e = PA_ALSA_VOLUME_IGNORE))
   || negb (bool_decide (enumeration_use e = PA_ALSA_ENUMERATION_IGNORE)), e).

Definition path_drop_unsupported (es : list pa_alsa_element) : list pa_alsa_element :=
  map snd (filter (fun r => fst r = true) (map element_drop_unsupported es)).

(** [path_make_options_unique] renames the options of each element;
    [path_create_settings] builds the settings from them. *)
Variable make_options_unique : list pa_alsa_option -> list pa_alsa_option.
Variable create_settings : list pa_alsa_element -> list pa_alsa_setting.

(** The final loop over the positions: the range over the covered ones. *)
Definition dB_range (l : probe_locals) : double * double :=
  foldl (fun '(lo, hi) t =>
           if negb (Z.land (path_volume_channels l) (PA_CHANNEL_POSITION_MASK t) =? 0) then
             (if d_lt (l_min_dB l t) lo then l_min_dB l t else lo,
              if d_lt hi (l_max_dB l t) then l_max_dB l t else hi)
           else (lo, hi))
        (d_infinity, d_neg_infinity) (seq 0 PA_CHANNEL_POSITION_MAX).

(** [pa_alsa_path_probe (p, m, hctl, ignore_dB)]: the return value and the
    path afterwards. *)
Definition pa_alsa_path_probe (p : pa_alsa_path) (ignore_dB : bool) : Z * pa_alsa_path :=
  if probed p then (if supported p then 0 else -1, p)
  else
    let '(jacks_ok, req, js) := probe_jacks (req_any_present p) (jacks p) in
    if negb jacks_ok then
      (-1, mk_path (p_direction p) (p_name p) true false (has_mute p) (has_volume p) (p_has_dB p)
                   (has_req_any p) req (p_min_volume p) (p_max_volume p)
                   (p_min_dB p) (p_max_dB p) (elements p) (settings p) js)
    else
      let pv := mk_pv (has_mute p) (has_volume p) (p_has_dB p) req
                      (p_min_volume p) (p_max_volume p) in
      let l := mk_locals (fun _ => d_zero) (fun _ => d_zero) 0 in
      let '(ok, pv, l, es) := probe_elements ignore_dB pv l (elements p) in
      let failed :=
        mk_path (p_direction p) (p_name p) true false (pv_has_mute pv) (pv_has_volume pv) (pv_has_dB pv)
                (has_req_any p) (pv_req_any_present pv) (pv_min_volume pv) (pv_max_volume pv)
                (p_min_dB p) (p_max_dB p) es (settings p) js in
      if negb ok then (-1, failed)
      else if has_req_any p && negb (pv_req_any_present pv) then (-1, failed)
      else
        let es := path_drop_unsupported es in
        let es := map (fun e => with_options e (make_options_unique (options e))) es in
        let '(lo, hi) := dB_range l in
        (0, mk_path (p_direction p) (p_name p) true true (pv_has_mute pv) (pv_has_volume pv) (pv_has_dB pv)
                    (has_req_any p) (pv_req_any_present pv) (pv_min_volume pv)
                    (pv_max_volume pv) lo hi es (settings p ++ create_settings es) js).

(** *** Subsets of paths *)

(** The two loops of [decibel_fix_get_step]: [n] rounds are left, [i] is the
    loop variable. *)
Fixpoint fix_step_up (vals : list Z) (db_value : Z) (i n : nat) : nat :=
  match n with
  | O => i
  | S n => if db_value <=? default 0 (vals !! i) then i
           else fix_step_up vals db_value (S i) n
  end.

Fixpoint fix_step_down (vals : list Z) (db_value : Z) (i n : nat) : nat :=
  match n with
  | O => i
  | S n => if db_value <? default 0 (vals !! S i) then i
           else fix_step_down vals db_value (S i) n
  end.

(** [decibel_fix_get_step (db_fix, &db_value, rounding)]: the step and the
    new [*db_value]. *)
Definition decibel_fix_get_step (f : pa_alsa_decibel_fix) (db_value rounding : Z) : Z * Z :=
  let max_i := Z.to_nat (max_step f - min_step f) in
  let i := if 0 <? rounding
           then fix_step_up (db_values f) db_value 0 max_i
           else fix_step_down (db_values f) db_value 0 max_i in
  (Z.of_nat i + min_step f, default 0 (db_values f !! i)).

(** [snd_mixer_find_selem] followed by [snd_mixer_selem_ask_playback_dB_vol
    (me, dB, +1, &a_limit)] for an output element, by
    [snd_mixer_selem_ask_capture_dB_vol (me, dB, -1, &a_limit)] otherwise;
    [None] when the element has disappeared or the call fails. *)
Variable ask_dB_vol : string -> pa_alsa_direction_t -> Z -> option Z.

Definition options_have_option (opts : list pa_alsa_option) (name : string) : option bool :=
  match opts with
  | [] => None                      (* pa_assert (options) *)
  | _ => Some (existsb (fun o => bool_decide (o_alsa_name o = name)) opts)
  end.

Definition enumeration_is_subset (a_options b_options : list pa_alsa_option) : bool :=
  match a_options, b_options with
  | [], _ => true
  | _, [] => false
  | _, _ =>
      forallb (fun oa => existsb (fun ob => bool_decide (o_alsa_name oa = o_alsa_name ob))
                                 b_options)
              a_options
  end.

(** The local [a_limit] of [element_is_subset]; [None] makes the function
    return FALSE.  The IGNORE case is the [pa_assert (FALSE)], which is not
    reached. *)
Definition a_limit (a : pa_alsa_element) : option Z :=
  match volume_use a with
  | PA_ALSA_VOLUME_CONSTANT => Some (constant_volume a)
  | PA_ALSA_VOLUME_ZERO =>
      match db_fix a with
      | Some f =>
          let rounding := if bool_decide (direction a = PA_ALSA_DIRECTION_OUTPUT)
                          then 1 else -1 in
          Some (fst (decibel_fix_get_step f 0 rounding))
      | None => ask_dB_vol (alsa_name a) (direction a) 0
      end
  | PA_ALSA_VOLUME_OFF => Some (min_volume a)
  | PA_ALSA_VOLUME_MERGE => Some (volume_limit a)
  | PA_ALSA_VOLUME_IGNORE => None
  end.

(** The [volume_use] part of [element_is_subset]. *)
Definition volume_is_subset (a b : pa_alsa_element) : bool :=
  if bool_decide (volume_use a = PA_ALSA_VOLUME_IGNORE) then true
  else if bool_decide (volume_use a = PA_ALSA_VOLUME_CONSTANT)
          && bool_decide (volume_use b = PA_ALSA_VOLUME_CONSTANT)
          && negb (constant_volume a =? constant_volume b) then false
  else if negb (bool_decide (volume_use a = volume_use b))
          && negb (bool_decide (volume_use b = PA_ALSA_VOLUME_MERGE)) then false
  else if bool_decide (volume_use b = PA_ALSA_VOLUME_MERGE) && (0 <=? volume_limit b)
          && match a_limit a with
             | Some limit => volume_limit b <? limit
             | None => true
             end then false
  else if bool_decide (volume_use a = PA_ALSA_VOLUME_MERGE) then
    (* if override-maps are different, they're not subsets *)
    if negb (n_channels a =? n_channels b) then false
    else forallb (fun s => masks a s (n_channels a - 1) =? masks b s (n_channels b - 1))
                 (seq 0 SND_MIXER_SCHN_COUNT)
  else true.

(** The [switch_use] part; [None] when [options_have_option] is handed an
    empty option list. *)
Definition switch_is_subset (a b : pa_alsa_element) : option bool :=
  if bool_decide (switch_use a = PA_ALSA_SWITCH_IGNORE) then Some true
  else if negb (bool_decide (switch_use a = switch_use b)) then
    if bool_decide (switch_use a = PA_ALSA_SWITCH_SELECT)
       || bool_decide (switch_use a = PA_ALSA_SWITCH_MUTE)
       || bool_decide (switch_use b = PA_ALSA_SWITCH_OFF)
       || bool_decide (switch_use b = PA_ALSA_SWITCH_ON) then Some false
    else if bool_decide (switch_use b = PA_ALSA_SWITCH_SELECT) then
      if bool_decide (switch_use a = PA_ALSA_SWITCH_ON)
      then options_have_option (options b) "on"
      else if bool_decide (switch_use a = PA_ALSA_SWITCH_OFF)
           then options_have_option (options b) "off"
           else Some true
    else Some true
  else if bool_decide (switch_use a = PA_ALSA_SWITCH_SELECT)
       then Some (enumeration_is_subset (options a) (options b))
       else Some true.

(** The [enumeration_use] part. *)
Definition enumeration_use_is_subset (a b : pa_alsa_element) : bool :=
  if bool_decide (enumeration_use a = PA_ALSA_ENUMERATION_IGNORE) then true
  else if bool_decide (enumeration_use b = PA_ALSA_ENUMERATION_IGNORE) then false
  else enumeration_is_subset (options a) (options b).

(** [element_is_subset (a, b, m)]. *)
Definition element_is_subset (a b : pa_alsa_element) : option bool :=
  if negb (volume_is_subset a b) then Some false
  else
    sw ← switch_is_subset a b;
    if negb sw then Some false
    else Some (enumeration_use_is_subset a b).

(** The jack loop of [path_set_condense]: a jack of [p] that has a control
    must be in [p2] with the same two availabilities. *)
Definition jacks_are_subset (ja_list jb_list : list pa_alsa_jack) : bool :=
  forallb (fun ja =>
             if negb (has_control ja) then true
             else existsb (fun jb =>
                             has_control jb
                             && bool_decide (j_alsa_name jb = j_alsa_name ja)
                             && bool_decide (state_plugged ja = state_plugged jb)
                             && bool_decide (state_unplugged ja = state_unplugged jb))
                          jb_list)
          ja_list.

(** The [while (is_subset)] loop over the two element lists. *)
Fixpoint elements_are_subset (ea eb : list pa_alsa_element) : option bool :=
  match ea, eb with
  | [], [] => Some true
  | a :: ea, b :: eb =>
      if bool_decide (alsa_name a = alsa_name b) then
        sub ← element_is_subset a b;
        if (sub : bool) then elements_are_subset ea eb else Some false
      else Some false
  | _, _ => Some false
  end.

(** The body of the inner loop for [p] and [p2]: the final [is_subset]. *)
Definition path_is_subset (p p2 : pa_alsa_path) : option bool :=
  if jacks_are_subset (jacks p) (jacks p2)
  then elements_are_subset (elements p) (elements p2)
  else Some false.

(** An entry of the hashmap [paths]: the key it is stored under, the
    address of the path it holds and the path at that address. *)
Record path_entry := mk_entry {
  e_key : pointer;
  e_address : nat;
  e_path : pa_alsa_path
}.

(** A path set: the entries of the hashmap [paths] in iteration order. *)
Record pa_alsa_path_set := mk_path_set {
  paths : list path_entry;
  ps_direction : pa_alsa_direction_t
}.

(** The inner [PA_HASHMAP_FOREACH (p2, ps->paths, state2)] for the path [p]
    at address [a]: whether it ends in the removal of [p]. *)
Fixpoint is_subset_of_another (a : nat) (p : pa_alsa_path) (others : list path_entry)
  : option bool :=
  match others with
  | [] => Some false
  | e2 :: others =>
      if bool_decide (a = e_address e2) then is_subset_of_another a p others
      else
        sub ← path_is_subset p (e_path e2);
        if (sub : bool) then Some true else is_subset_of_another a p others
  end.

(** [pa_hashmap_remove (h, key)]: the entry stored under [key] goes, if
    there is one. *)
Definition hashmap_remove (k : pointer) (m : list path_entry) : list path_entry :=
  filter (fun e => e_key e <> k) m.

(** The outer loop: [todo] are the entries still to visit (the iterator
    holds the next entry before the body runs), [current] is the hashmap.
    [pa_hashmap_remove (ps->paths, p)] looks for the address of the path. *)
Fixpoint condense_loop (todo current : list path_entry) : option (list path_entry) :=
  match todo with
  | [] => Some current
  | e :: todo =>
      sub ← is_subset_of_another (e_address e) (e_path e) current;
      condense_loop todo (if (sub : bool)
                          then hashmap_remove (To_path (e_address e)) current
                          else current)
  end.

(** [path_set_condense (ps, m)]. *)
Definition path_set_condense (ps : pa_alsa_path_set) : option pa_alsa_path_set :=
  if (length (paths ps) <? 2)%nat then Some ps
  else
    m ← condense_loop (paths ps) (paths ps);
    Some (mk_path_set m (ps_direction ps)).

(** *** How a path set is made and probed: [pa_alsa_path_synthesize],
        [pa_alsa_path_set_new], [mapping_paths_probe] *)

Definition with_elements (p : pa_alsa_path) (es : list pa_alsa_element) : pa_alsa_path :=
  mk_path (p_direction p) (p_name p) (probed p) (supported p) (has_mute p) (has_volume p)
          (p_has_dB p) (has_req_any p) (req_any_present p) (p_min_volume p) (p_max_volume p)
          (p_min_dB p) (p_max_dB p) es (settings p) (jacks p).

Definition with_db_fix (e : pa_alsa_element) (f : option pa_alsa_decibel_fix)
  : pa_alsa_element :=
  mk_element (alsa_name e) (direction e) (switch_use e) (volume_use e) (enumeration_use e)
             (required_absent e) (constant_volume e) (has_dB e) (min_volume e) (max_volume e)
             (volume_limit e) (min_dB e) (max_dB e) (masks e) (n_channels e) (merged_mask e)
             (options e) f.

(** [pa_alsa_path_synthesize (element, direction)]: a path with the one
    element; what the function does not write is zero from [pa_xnew0]. *)
Definition pa_alsa_path_synthesize (element : string) (dir : pa_alsa_direction_t)
  : pa_alsa_path :=
  let e := mk_element element dir PA_ALSA_SWITCH_MUTE PA_ALSA_VOLUME_MERGE
                      PA_ALSA_ENUMERATION_IGNORE PA_ALSA_REQUIRED_IGNORE
                      0 false 0 0 (-1) d_zero d_zero (fun _ _ => 0) 0 0 [] None in
  mk_path dir element false false false false false false false 0 0 d_zero d_zero
          [e] [] [].

(** The element that [pa_alsa_path_set_new] adds to a synthesized path for
    another one of the passed elements, to mark it for require-absent. *)
Definition absent_element (name : string) (dir : pa_alsa_direction_t) : pa_alsa_element :=
  mk_element name dir PA_ALSA_SWITCH_IGNORE PA_ALSA_VOLUME_IGNORE
             PA_ALSA_ENUMERATION_IGNORE PA_ALSA_REQUIRED_ANY
             0 false 0 0 (-1) d_zero d_zero (fun _ _ => 0) 0 0 [] None.

(** One round of [for (ie = en; *ie; ie++)] in [pa_alsa_path_set_new]: the
    path for the name [ie] at position [i] of [en], with an element for
    every other position ([je != ie]), stored under the address of the name.
    The name at position [i] is at address [i], and so is the path made for
    it: two names, and two paths, are at two addresses. *)
Definition element_entry (en : list string) (dir : pa_alsa_direction_t) (i : nat) (ie : string)
  : path_entry :=
  let p := pa_alsa_path_synthesize ie dir in
  mk_entry (To_string i) i
           (with_elements p (elements p ++ map (fun je => absent_element je dir) (delete i en))).

(** The copy of a decibel fix that an element gets: [max_step - min_step + 1]
    of the values. *)
Definition copy_decibel_fix (f : pa_alsa_decibel_fix) : pa_alsa_decibel_fix :=
  mk_db_fix (min_step f) (max_step f)
            (take (Z.to_nat (max_step f - min_step f + 1)) (db_values f)).

(** The body of the loops under [finish:] for the decibel fix [f] of the
    name [name] and the element [e]. *)
Definition assign_decibel_fix (name : string) (f : pa_alsa_decibel_fix) (e : pa_alsa_element)
  : pa_alsa_element :=
  if negb (bool_decide (volume_use e = PA_ALSA_VOLUME_IGNORE))
     && bool_decide (name = alsa_name e)
  then with_db_fix e (Some (copy_decibel_fix f))
  else e.

(** [finish:] in [pa_alsa_path_set_new]: for every decibel fix of the
    profile set (with its name, in the order of that hashmap), every path of
    the set and every element of the path. *)
Definition assign_decibel_fixes (fixes : list (string * pa_alsa_decibel_fix))
    (m : list path_entry) : list path_entry :=
  foldl (fun m db_fix =>
           map (fun e =>
                  mk_entry (e_key e) (e_address e)
                           (with_elements (e_path e)
                                          (map (assign_decibel_fix (fst db_fix) (snd db_fix))
                                               (elements (e_path e)))))
               m)
        m fixes.

(** [pa_alsa_path_set_new (m, direction, paths_dir)] for a mapping that has
    no path names for the direction and the element names [en]. *)
Definition path_set_of_elements (en : list string) (dir : pa_alsa_direction_t)
    (fixes : list (string * pa_alsa_decibel_fix)) : pa_alsa_path_set :=
  mk_path_set (assign_decibel_fixes fixes (imap (element_entry en dir) en)) dir.

(** The path at the address [a] after a function has worked on it. *)
Definition store_path (a : nat) (p : pa_alsa_path) (m : list path_entry) : list path_entry :=
  map (fun e => if bool_decide (e_address e = a) then mk_entry (e_key e) a p else e) m.

(** The loop of [mapping_paths_probe] over the set: every path is probed,
    and [pa_hashmap_remove (ps->paths, p)] is called for a path whose probe
    fails. *)
Fixpoint probe_paths (ignore_dB : bool) (todo current : list path_entry) : list path_entry :=
  match todo with
  | [] => current
  | e :: todo =>
      let '(r, p) := pa_alsa_path_probe (e_path e) ignore_dB in
      let current := store_path (e_address e) p current in
      probe_paths ignore_dB todo
                  (if r <? 0 then hashmap_remove (To_path (e_address e)) current else current)
  end.

(** The two kinds of path set that [mapping_paths_probe] hands to
    [path_set_condense]: the paths of a set made from path names are stored
    under their own addresses ([pa_hashmap_put (ps->paths, p, p)]); a set
    made from element names is the one above, probed. *)
Definition stored_under_own_address (ps : pa_alsa_path_set) : Prop :=
  Forall (fun e => e_key e = To_path (e_address e)) (paths ps).

Definition made_from_elements (ps : pa_alsa_path_set) : Prop :=
  exists en fixes ignore_dB,
    paths ps
    = probe_paths ignore_dB (paths (path_set_of_elements en (ps_direction ps) fixes))
                  (paths (path_set_of_elements en (ps_direction ps) fixes)).

Definition probed_path_set (ps : pa_alsa_path_set) : Prop :=
  stored_under_own_address ps \/ made_from_elements ps.

(** The subset relation in the words of the specification: every jack of
    [p] that has a control exists in [q] with the same availabilities when
    plugged and unplugged, and the elements, walked pairwise, have equal
    names and are subsets. *)
Definition jack_in (ja : pa_alsa_jack) (q : pa_alsa_path) : Prop :=
  exists jb, jb ∈ jacks q
             /\ j_alsa_name jb = j_alsa_name ja
             /\ state_plugged ja = state_plugged jb
             /\ state_unplugged ja = state_unplugged jb.

(** After the probe [has_control] says whether the hardware has a jack of
    that name. *)
Definition jacks_probed (p : pa_alsa_path) : Prop :=
  forall j, j ∈ jacks p -> has_control j = pa_alsa_find_jack (j_alsa_name j).

Definition subset (p q : pa_alsa_path) : Prop :=
  (forall ja, ja ∈ jacks p -> has_control ja = true -> jack_in ja q)
  /\ Forall2 (fun a b => alsa_name a = alsa_name b /\ element_is_subset a b = Some true)
             (elements p) (elements q).

Definition strict_subset (p q : pa_alsa_path) : Prop :=
  subset p q /\ ~ subset q p.

(** *** The probe and elements without dB *)

(** What [path_drop_unsupported] and [path_make_options_unique] leave of an
    element that is kept. *)
Definition finalize (e : pa_alsa_element) : pa_alsa_element :=
  with_options e (make_options_unique (filter (fun o => 0 <= alsa_idx o) (options e))).

Definition final_elements (es : list pa_alsa_element) : list pa_alsa_element :=
  map (fun e => with_options e (make_options_unique (options e))) (path_drop_unsupported es).

Lemma final_elements_app (a b : list pa_alsa_element) :
  final_elements (a ++ b) = final_elements a ++ final_elements b.
Proof.
  unfold final_elements, path_drop_unsupported.
  rewrite map_app, filter_app, !map_app. reflexivity.
Qed.

Lemma final_elements_kept (e : pa_alsa_element) (es : list pa_alsa_element) :
  volume_use e <> PA_ALSA_VOLUME_IGNORE ->
  final_elements (e :: es) = finalize e :: final_elements es.
Proof.
  intros Hv. unfold final_elements, path_drop_unsupported. simpl.
  rewrite filter_cons. simpl.
  rewrite (bool_decide_eq_false_2 _ Hv). simpl. rewrite orb_true_r. simpl.
  destruct (decide (true = true)) as [_|N]; [reflexivity | congruence].
Qed.

Lemma final_elements_volume_use (es : list pa_alsa_element) (P : pa_alsa_volume_use_t -> Prop) :
  Forall (fun e => P (volume_use e)) es ->
  Forall (fun e => P (volume_use e)) (final_elements es).
Proof.
  intros H. unfold final_elements, path_drop_unsupported.
  induction H as [|e es He _ IH]; simpl; [constructor|].
  rewrite filter_cons. destruct (decide _); simpl; [constructor; assumption | assumption].
Qed.

Lemma probe_elements_app (ig : bool) (a b : list pa_alsa_element) :
  forall pv l pv1 l1 as',
    probe_elements ig pv l a = (true, pv1, l1, as') ->
    probe_elements ig pv l (a ++ b)
    = let '(ok, pv2, l2, bs') := probe_elements ig pv1 l1 b in (ok, pv2, l2, as' ++ bs').
Proof.
  induction a as [|e a IH]; simpl; intros pv l pv1 l1 as' H.
  - injection H as <- <- <-. destruct (probe_elements ig pv l b) as [[[? ?] ?] ?]. reflexivity.
  - destruct (element_probe e) as [[e' r]|]; [|discriminate].
    destruct (probe_step ig pv l e' r) as [[pv0 l0] e0].
    destruct (probe_elements ig pv0 l0 a) as [[[ok pva] la] ea] eqn:Ha.
    injection H as -> <- <- <-.
    rewrite (IH _ _ _ _ _ Ha).
    destruct (probe_elements ig pva la b) as [[[? ?] ?] ?]. reflexivity.
Qed.

(** An element that is not MERGE after its own probe leaves the volume
    flags of the path alone and keeps its volume use. *)
Lemma probe_step_other (pv : path_volume) (l : probe_locals) (e : pa_alsa_element) (r : bool) :
  volume_use e <> PA_ALSA_VOLUME_MERGE ->
  exists pv', probe_step false pv l e r = (pv', l, e)
              /\ pv_has_volume pv' = pv_has_volume pv /\ pv_has_dB pv' = pv_has_dB pv.
Proof.
  intros Hv. unfold probe_step.
  rewrite (bool_decide_eq_false_2 _ Hv).
  destruct (bool_decide (switch_use e = PA_ALSA_SWITCH_MUTE)); eexists; simpl; eauto.
Qed.

(** Once the path has a volume without dB, no later element stays MERGE:
    one with dB is set to ZERO, one without to IGNORE. *)
Lemma probe_step_after_plain (pv : path_volume) (l : probe_locals) (e : pa_alsa_element)
    (r : bool) :
  pv_has_volume pv = true -> pv_has_dB pv = false ->
  exists pv' e',
    probe_step false pv l e r = (pv', l, e')
    /\ pv_has_volume pv' = true /\ pv_has_dB pv' = false
    /\ volume_use e' <> PA_ALSA_VOLUME_MERGE
    /\ (volume_use e = PA_ALSA_VOLUME_MERGE -> has_dB e = true ->
        e' = with_volume e PA_ALSA_VOLUME_ZERO true).
Proof.
  intros Hv Hd. unfold probe_step.
  destruct (bool_decide (volume_use e = PA_ALSA_VOLUME_MERGE)) eqn:Hm.
  - apply bool_decide_eq_true in Hm. unfold merge_volume. simpl. rewrite Hv, Hd. simpl.
    destruct (has_dB e) eqn:HdB; simpl;
      destruct (bool_decide (switch_use e = PA_ALSA_SWITCH_MUTE));
      eexists _, _; simpl; repeat split; try reflexivity; try discriminate.
  - apply bool_decide_eq_false in Hm.
    destruct (bool_decide (switch_use e = PA_ALSA_SWITCH_MUTE));
      eexists _, _; simpl; repeat split; auto; contradiction.
Qed.

Definition probes_to (P : pa_alsa_element -> Prop) (e : pa_alsa_element) : Prop :=
  exists e' r, element_probe e = Some (e', r) /\ P e'.

Lemma probe_elements_no_merge (es : list pa_alsa_element) :
  Forall (probes_to (fun e' => volume_use e' <> PA_ALSA_VOLUME_MERGE)) es ->
  forall pv l, exists pv' es',
    probe_elements false pv l es = (true, pv', l, es')
    /\ pv_has_volume pv' = pv_has_volume pv /\ pv_has_dB pv' = pv_has_dB pv
    /\ Forall (fun e => volume_use e <> PA_ALSA_VOLUME_MERGE) es'.
Proof.
  induction 1 as [|e es (e' & r & Hp & Hv) _ IH]; intros pv l; simpl.
  - eexists _, _. repeat split; constructor.
  - rewrite Hp.
    destruct (probe_step_other pv l e' r Hv) as (pv1 & -> & Hv1 & Hd1).
    destruct (IH pv1 l) as (pv' & es' & -> & Hv' & Hd' & Hall).
    eexists _, _. split; [reflexivity|].
    split; [congruence|]. split; [congruence|]. constructor; assumption.
Qed.

Lemma probe_elements_after_plain (es : list pa_alsa_element) :
  Forall (probes_to (fun _ => True)) es ->
  forall pv l, pv_has_volume pv = true -> pv_has_dB pv = false ->
    exists pv' es',
      probe_elements false pv l es = (true, pv', l, es')
      /\ pv_has_volume pv' = true /\ pv_has_dB pv' = false
      /\ Forall (fun e => volume_use e <> PA_ALSA_VOLUME_MERGE) es'.
Proof.
  induction 1 as [|e es (e' & r & Hp & _) _ IH]; intros pv l Hv Hd; simpl.
  - eexists _, _. repeat split; auto.
  - rewrite Hp.
    destruct (probe_step_after_plain pv l e' r Hv Hd) as (pv1 & e1 & -> & Hv1 & Hd1 & Hne & _).
    destruct (IH pv1 l Hv1 Hd1) as (pv' & es' & -> & Hv' & Hd' & Hall).
    eexists _, _. split; [reflexivity|]. repeat split; auto.
Qed.

(** The elements of a path whose first MERGE element [e1] has no dB and
    which has a MERGE element [e2] with dB further down. *)
Lemma probe_elements_plain_then_dB
    (pre mid post : list pa_alsa_element) (e1 e2 e1' e2' : pa_alsa_element) (r1 r2 : bool)
    (pv : path_volume) (l : probe_locals) :
  pv_has_volume pv = false -> pv_has_dB pv = false ->
  Forall (probes_to (fun e' => volume_use e' <> PA_ALSA_VOLUME_MERGE)) pre ->
  element_probe e1 = Some (e1', r1) ->
  volume_use e1' = PA_ALSA_VOLUME_MERGE -> has_dB e1' = false ->
  Forall (probes_to (fun _ => True)) mid ->
  element_probe e2 = Some (e2', r2) ->
  volume_use e2' = PA_ALSA_VOLUME_MERGE -> has_dB e2' = true ->
  Forall (probes_to (fun _ => True)) post ->
  exists pv' l' pre' mid' post',
    probe_elements false pv l (pre ++ e1 :: mid ++ e2 :: post)
    = (true, pv', l',
       pre' ++ e1' :: mid' ++ with_volume e2' PA_ALSA_VOLUME_ZERO true :: post')
    /\ pv_has_volume pv' = true /\ pv_has_dB pv' = false
    /\ Forall (fun e => volume_use e <> PA_ALSA_VOLUME_MERGE) (pre' ++ mid' ++ post').
Proof.
  intros Hv Hd Hpre Hp1 Hm1 Hd1 Hmid Hp2 Hm2 Hd2 Hpost.
  destruct (probe_elements_no_merge pre Hpre pv l) as (pv1 & pre' & Hrun1 & Hv1 & Hd1' & Hall1).
  rewrite (probe_elements_app _ _ _ _ _ _ _ _ Hrun1). simpl. rewrite Hp1.
  (* the first MERGE element: no dB, nothing before it *)
  assert (Hs1 : exists pv2, probe_step false pv1 l e1' r1 = (pv2, l, e1')
                            /\ pv_has_volume pv2 = true /\ pv_has_dB pv2 = false).
  { unfold probe_step. rewrite (bool_decide_eq_true_2 _ Hm1).
    unfold merge_volume. simpl. rewrite Hd1. rewrite Hv1, Hv. simpl.
    destruct (bool_decide (switch_use e1' = PA_ALSA_SWITCH_MUTE));
      (eexists; split; [reflexivity|]; simpl; split; [reflexivity | congruence]). }
  destruct Hs1 as (pv2 & -> & Hv2 & Hd2').
  destruct (probe_elements_after_plain mid Hmid pv2 l Hv2 Hd2')
    as (pv3 & mid' & Hrun3 & Hv3 & Hd3 & Hall3).
  rewrite (probe_elements_app _ _ _ _ _ _ _ _ Hrun3). simpl. rewrite Hp2.
  destruct (probe_step_after_plain pv3 l e2' r2 Hv3 Hd3)
    as (pv4 & e2f & -> & Hv4 & Hd4 & _ & He2).
  rewrite (He2 Hm2 Hd2).
  destruct (probe_elements_after_plain post Hpost pv4 l Hv4 Hd4)
    as (pv5 & post' & -> & Hv5 & Hd5 & Hall5).
  exists pv5, l, pre', mid', post'. split; [reflexivity|]. split; [exact Hv5|].
  split; [exact Hd5|]. rewrite !Forall_app. auto.
Qed.

(** C4 (amended). When the probe of a fresh path succeeds and the first
    element that is MERGE after its own probe, [e1], has no dB while a later
    element [e2] is MERGE with dB, it is the later, dB-capable element whose
    [volume_use] becomes [PA_ALSA_VOLUME_ZERO]; [e1] stays MERGE and is the
    only MERGE element left, and the path has a volume but no dB. *)
Theorem path_probe_zeroes_later_dB_element
    (p : pa_alsa_path) (pre mid post : list pa_alsa_element)
    (e1 e2 e1' e2' : pa_alsa_element) (r1 r2 : bool) :
  probed p = false -> has_volume p = false -> p_has_dB p = false ->
  elements p = pre ++ e1 :: mid ++ e2 :: post ->
  Forall (probes_to (fun e' => volume_use e' <> PA_ALSA_VOLUME_MERGE)) pre ->
  element_probe e1 = Some (e1', r1) ->
  volume_use e1' = PA_ALSA_VOLUME_MERGE -> has_dB e1' = false ->
  Forall (probes_to (fun _ => True)) mid ->
  element_probe e2 = Some (e2', r2) ->
  volume_use e2' = PA_ALSA_VOLUME_MERGE -> has_dB e2' = true ->
  Forall (probes_to (fun _ => True)) post ->
  fst (pa_alsa_path_probe p false) = 0 ->
  exists pre' mid' post' e1f e2f,
    elements (snd (pa_alsa_path_probe p false)) = pre' ++ e1f :: mid' ++ e2f :: post'
    /\ e1f = finalize e1'
    /\ volume_use e1f = PA_ALSA_VOLUME_MERGE /\ has_dB e1f = false
    /\ e2f = finalize (with_volume e2' PA_ALSA_VOLUME_ZERO true)
    /\ volume_use e2f = PA_ALSA_VOLUME_ZERO /\ has_dB e2f = true
    /\ Forall (fun e => volume_use e <> PA_ALSA_VOLUME_MERGE) (pre' ++ mid' ++ post')
    /\ has_volume (snd (pa_alsa_path_probe p false)) = true
    /\ p_has_dB (snd (pa_alsa_path_probe p false)) = false.
Proof.
  intros Hpr Hv Hd Hes Hpre Hp1 Hm1 Hd1 Hmid Hp2 Hm2 Hd2 Hpost.
  unfold pa_alsa_path_probe. rewrite Hpr, Hes.
  destruct (probe_jacks (req_any_present p) (jacks p)) as [[jok req] js].
  destruct jok; simpl; [|discriminate].
  destruct (probe_elements_plain_then_dB pre mid post e1 e2 e1' e2' r1 r2
              (mk_pv (has_mute p) (has_volume p) (p_has_dB p) req
                     (p_min_volume p) (p_max_volume p))
              (mk_locals (fun _ => d_zero) (fun _ => d_zero) 0))
    as (pv' & l' & pre' & mid' & post' & Hrun & Hv' & Hd' & Hall); auto.
  rewrite Hrun. simpl.
  destruct (has_req_any p && negb (pv_req_any_present pv')); simpl; [discriminate|].
  destruct (dB_range l') as [lo hi]. simpl. intros _.
  change (map (fun e => with_options e (make_options_unique (options e)))
              (path_drop_unsupported
                 (pre' ++ e1' :: mid' ++ with_volume e2' PA_ALSA_VOLUME_ZERO true :: post')))
    with (final_elements
            (pre' ++ e1' :: mid' ++ with_volume e2' PA_ALSA_VOLUME_ZERO true :: post')).
  rewrite final_elements_app, final_elements_kept by congruence.
  rewrite final_elements_app, final_elements_kept by (simpl; discriminate).
  apply Forall_app in Hall as [Hall1 Hall2]. apply Forall_app in Hall2 as [Hall2 Hall3].
  eexists (final_elements pre'), (final_elements mid'), (final_elements post'), _, _.
  split; [reflexivity|]. split; [reflexivity|]. split; [exact Hm1|]. split; [exact Hd1|].
  split; [reflexivity|]. split; [reflexivity|]. split; [reflexivity|].
  split; [|split; assumption].
  rewrite !Forall_app.
  repeat split;
    apply (final_elements_volume_use _ (fun u => u <> PA_ALSA_VOLUME_MERGE)); assumption.
Qed.

(** *** Condensing a path set *)

Lemma jacks_are_subset_spec (p q : pa_alsa_path) :
  jacks_probed p -> jacks_probed q ->
  jacks_are_subset (jacks p) (jacks q) = true <->
  (forall ja, ja ∈ jacks p -> has_control ja = true -> jack_in ja q).
Proof.
  intros Hpp Hpq. unfold jacks_are_subset, jack_in. rewrite forallb_forall. split.
  - intros H ja Hin Hc. apply list_elem_of_In in Hin. specialize (H ja Hin).
    rewrite Hc in H. simpl in H. apply existsb_exists in H as (jb & Hjb & Hb).
    apply list_elem_of_In in Hjb.
    repeat (apply andb_prop in Hb as [Hb ?]).
    exists jb. repeat split; auto; eapply bool_decide_eq_true_1; eassumption.
  - intros H ja Hin. apply list_elem_of_In in Hin.
    destruct (has_control ja) eqn:Hc; simpl; [|reflexivity].
    destruct (H ja Hin Hc) as (jb & Hjb & Hn & Hp & Hu).
    apply existsb_exists. exists jb. split; [apply list_elem_of_In; exact Hjb|].
    assert (Hcb : has_control jb = true).
    { rewrite (Hpq jb Hjb), Hn, <- (Hpp ja Hin). exact Hc. }
    rewrite Hcb. simpl. rewrite !bool_decide_eq_true_2 by assumption. reflexivity.
Qed.

Lemma elements_are_subset_spec (ea eb : list pa_alsa_element) :
  elements_are_subset ea eb = Some true <->
  Forall2 (fun a b => alsa_name a = alsa_name b /\ element_is_subset a b = Some true) ea eb.
Proof.
  revert eb. induction ea as [|a ea IH]; intros [|b eb]; simpl.
  - split; [constructor | reflexivity].
  - split; [discriminate | intros H; inversion H].
  - split; [discriminate | intros H; inversion H].
  - destruct (bool_decide (alsa_name a = alsa_name b)) eqn:Hn.
    + apply bool_decide_eq_true in Hn.
      destruct (element_is_subset a b) as [[|]|] eqn:He; simpl.
      * rewrite IH. split; [intros H; constructor; auto | intros H; inversion H; auto].
      * split; [discriminate | intros H; inversion H as [|? ? ? ? [_ ?]]; congruence].
      * split; [discriminate | intros H; inversion H as [|? ? ? ? [_ ?]]; congruence].
    + apply bool_decide_eq_false in Hn.
      split; [discriminate | intros H; inversion H as [|? ? ? ? [? _]]; contradiction].
Qed.

(** On probed paths the test the code runs is the subset relation. *)
Lemma path_is_subset_spec (p q : pa_alsa_path) :
  jacks_probed p -> jacks_probed q ->
  path_is_subset p q = Some true <-> subset p q.
Proof.
  intros Hpp Hpq. unfold path_is_subset, subset.
  rewrite <- (jacks_are_subset_spec p q Hpp Hpq), <- elements_are_subset_spec.
  destruct (jacks_are_subset (jacks p) (jacks q)).
  - split; [auto | intros [_ H]; exact H].
  - split; [discriminate | intros [H _]; discriminate].
Qed.

Lemma hashmap_remove_subseteq (k : pointer) (m : list path_entry) :
  hashmap_remove k m ⊆ m.
Proof. intros e H. apply list_elem_of_filter in H as [_ H]. exact H. Qed.

Lemma hashmap_remove_gone (e : path_entry) (m : list path_entry) :
  e ∉ hashmap_remove (e_key e) m.
Proof. intros H. apply list_elem_of_filter in H as [H _]. congruence. Qed.

(** Nothing is stored under a key that no entry has. *)
Lemma hashmap_remove_absent (k : pointer) (m : list path_entry) :
  Forall (fun e => e_key e <> k) m -> hashmap_remove k m = m.
Proof.
  unfold hashmap_remove. induction 1 as [|e m He _ IH]; [reflexivity|].
  rewrite filter_cons_True by exact He. rewrite IH. reflexivity.
Qed.

(** A path that survives its inner loop is not a subset of any other path
    in the map at that time. *)
Lemma not_subset_of_another (a : nat) (p : pa_alsa_path) (others : list path_entry) :
  is_subset_of_another a p others = Some false ->
  forall e2, e2 ∈ others -> a <> e_address e2 -> path_is_subset p (e_path e2) = Some false.
Proof.
  induction others as [|e' others IH]; simpl; intros H e2 Hin Hne.
  - inversion Hin.
  - destruct (bool_decide (a = e_address e')) eqn:Ha.
    + apply bool_decide_eq_true in Ha.
      apply elem_of_cons in Hin as [->|Hin]; [contradiction | eauto].
    + destruct (path_is_subset p (e_path e')) as [[|]|] eqn:Hs; simpl in H; try discriminate.
      apply elem_of_cons in Hin as [->|Hin]; [exact Hs | eauto].
Qed.

Lemma condense_loop_invariant (todo : list path_entry) :
  forall current res,
    condense_loop todo current = Some res ->
    res ⊆ current
    /\ forall e, e ∈ res -> e ∈ todo -> e_key e = To_path (e_address e) ->
         forall e2, e2 ∈ res -> e_address e <> e_address e2 ->
                    path_is_subset (e_path e) (e_path e2) = Some false.
Proof.
  induction todo as [|e0 todo IH]; simpl; intros current res H.
  - injection H as <-. split; [reflexivity|]. intros e _ Hin. inversion Hin.
  - destruct (is_subset_of_another (e_address e0) (e_path e0) current) as [sub|] eqn:Hsub;
      simpl in H; [|discriminate].
    destruct (IH _ _ H) as [Hincl Hrest].
    destruct sub.
    + split; [etransitivity; [exact Hincl | apply hashmap_remove_subseteq]|].
      intros e Hres Htodo Hkey. apply elem_of_cons in Htodo as [->|Htodo].
      * rewrite <- Hkey in Hincl. destruct (hashmap_remove_gone e0 current (Hincl _ Hres)).
      * exact (Hrest e Hres Htodo Hkey).
    + split; [exact Hincl|].
      intros e Hres Htodo Hkey. apply elem_of_cons in Htodo as [->|Htodo].
      * intros e2 Hq Hne.
        exact (not_subset_of_another _ _ _ Hsub e2 (Hincl _ Hq) Hne).
      * exact (Hrest e Hres Htodo Hkey).
Qed.

Lemma is_subset_of_another_returns (a : nat) (p : pa_alsa_path) (others : list path_entry) :
  (forall e2, e2 ∈ others -> is_Some (path_is_subset p (e_path e2))) ->
  is_Some (is_subset_of_another a p others).
Proof.
  induction others as [|e' others IH]; simpl; intros Hdef; [eauto|].
  assert (Hrest : is_Some (is_subset_of_another a p others)).
  { apply IH. intros e2 H2. apply Hdef. apply elem_of_cons. auto. }
  destruct (bool_decide (a = e_address e')); [exact Hrest|].
  destruct (Hdef e') as [b Hb]; [apply elem_of_cons; auto|].
  rewrite Hb. simpl. destruct b; eauto.
Qed.

Lemma condense_loop_returns (todo : list path_entry) :
  forall current,
    (forall e1 e2, e1 ∈ todo -> e2 ∈ current ->
                   is_Some (path_is_subset (e_path e1) (e_path e2))) ->
    is_Some (condense_loop todo current).
Proof.
  induction todo as [|e0 todo IH]; simpl; intros current Hdef; [eauto|].
  destruct (is_subset_of_another_returns (e_address e0) (e_path e0) current) as [sub Hsub].
  { intros e2 H2. apply Hdef; [apply elem_of_cons; auto | exact H2]. }
  rewrite Hsub. simpl. apply IH.
  intros e1 e2 H1 H2. apply Hdef; [apply elem_of_cons; auto|].
  destruct sub; [exact (hashmap_remove_subseteq _ _ _ H2) | exact H2].
Qed.

(** From a map in which no path is stored under its own address (nor under
    the address of any path) the loop removes nothing. *)
Lemma condense_loop_keeps (todo current : list path_entry) :
  Forall (fun e => forall a, e_key e <> To_path a) current ->
  (forall e1 e2, e1 ∈ todo -> e2 ∈ current ->
                 is_Some (path_is_subset (e_path e1) (e_path e2))) ->
  condense_loop todo current = Some current.
Proof.
  intros Hkeys. induction todo as [|e0 todo IH]; simpl; intros Hdef; [reflexivity|].
  destruct (is_subset_of_another_returns (e_address e0) (e_path e0) current) as [sub Hsub].
  { intros e2 H2. apply Hdef; [apply elem_of_cons; auto | exact H2]. }
  rewrite Hsub. simpl.
  rewrite hashmap_remove_absent.
  - destruct sub; apply IH; intros e1 e2 H1 H2; apply Hdef; try exact H2;
      apply elem_of_cons; auto.
  - eapply Forall_impl; [exact Hkeys|]. intros e He. apply He.
Qed.

(** *** Sets made from element names *)

(** [element_probe] never writes the name of the element, and the only value
    it writes to [switch_use], [volume_use] and [enumeration_use] is
    IGNORE. *)
Hypothesis element_probe_keeps_name :
  forall e e' b, element_probe e = Some (e', b) -> alsa_name e' = alsa_name e.
Hypothesis element_probe_keeps_ignore :
  forall e e' b,
    element_probe e = Some (e', b) ->
    (switch_use e = PA_ALSA_SWITCH_IGNORE -> switch_use e' = PA_ALSA_SWITCH_IGNORE)
    /\ (volume_use e = PA_ALSA_VOLUME_IGNORE -> volume_use e' = PA_ALSA_VOLUME_IGNORE)
    /\ (enumeration_use e = PA_ALSA_ENUMERATION_IGNORE ->
        enumeration_use e' = PA_ALSA_ENUMERATION_IGNORE).

(** An element that is used for nothing. *)
Definition unused (e : pa_alsa_element) : Prop :=
  switch_use e = PA_ALSA_SWITCH_IGNORE
  /\ volume_use e = PA_ALSA_VOLUME_IGNORE
  /\ enumeration_use e = PA_ALSA_ENUMERATION_IGNORE.

(** The element after the decibel fixes have been assigned. *)
Definition fix_element (fixes : list (string * pa_alsa_decibel_fix)) (e : pa_alsa_element)
  : pa_alsa_element :=
  foldl (fun e db_fix => assign_decibel_fix (fst db_fix) (snd db_fix) e) e fixes.

(** The path made for the first of the names, with the other names marked
    for require-absent, once the decibel fixes have been assigned. *)
Definition named_path (dir : pa_alsa_direction_t) (fixes : list (string * pa_alsa_decibel_fix))
    (names : list string) : pa_alsa_path :=
  match names with
  | [] => with_elements (pa_alsa_path_synthesize "" dir) []
  | n :: rest =>
      with_elements (pa_alsa_path_synthesize n dir)
                    (map (fix_element fixes)
                         (elements (pa_alsa_path_synthesize n dir)
                            ++ map (fun je => absent_element je dir) rest))
  end.

(** An entry after the probe of its path. *)
Definition probe_entry (ignore_dB : bool) (e : path_entry) : path_entry :=
  mk_entry (e_key e) (e_address e) (snd (pa_alsa_path_probe (e_path e) ignore_dB)).

Lemma assign_decibel_fix_name (name : string) (f : pa_alsa_decibel_fix) (e : pa_alsa_element) :
  alsa_name (assign_decibel_fix name f e) = alsa_name e.
Proof. unfold assign_decibel_fix. destruct (_ && _); reflexivity. Qed.

Lemma fix_element_name (fixes : list (string * pa_alsa_decibel_fix)) (e : pa_alsa_element) :
  alsa_name (fix_element fixes e) = alsa_name e.
Proof.
  unfold fix_element. revert e. induction fixes as [|f fixes IH]; intros e; simpl;
    [reflexivity|].
  rewrite IH. apply assign_decibel_fix_name.
Qed.

Lemma fix_element_absent (fixes : list (string * pa_alsa_decibel_fix)) (name : string)
    (dir : pa_alsa_direction_t) :
  fix_element fixes (absent_element name dir) = absent_element name dir.
Proof.
  unfold fix_element. induction fixes as [|f fixes IH]; simpl; [reflexivity|].
  exact IH.
Qed.

Lemma assign_decibel_fixes_map (fixes : list (string * pa_alsa_decibel_fix))
    (m : list path_entry) :
  assign_decibel_fixes fixes m
  = map (fun e => mk_entry (e_key e) (e_address e)
                           (with_elements (e_path e)
                                          (map (fix_element fixes) (elements (e_path e)))))
        m.
Proof.
  unfold assign_decibel_fixes. revert m.
  induction fixes as [|f fixes IH]; intros m; simpl.
  - induction m as [|[k a [? ? ? ? ? ? ? ? ? ? ? ? ? es ? ?]] m IHm]; simpl; [reflexivity|].
    rewrite <- IHm. unfold with_elements. simpl. rewrite map_id. reflexivity.
  - rewrite IH, map_map. apply map_ext. intros e. simpl.
    unfold with_elements. simpl. rewrite map_map. reflexivity.
Qed.

Lemma path_set_of_elements_paths (en : list string) (dir : pa_alsa_direction_t)
    (fixes : list (string * pa_alsa_decibel_fix)) :
  paths (path_set_of_elements en dir fixes)
  = imap (fun i ie => mk_entry (To_string i) i (named_path dir fixes (ie :: delete i en))) en.
Proof.
  unfold path_set_of_elements. simpl. rewrite assign_decibel_fixes_map.
  change (map ?f ?l) with (f <$> l) at 1. rewrite fmap_imap.
  apply imap_ext. intros i ie _. reflexivity.
Qed.

(** The probes of a map in which no path is stored under an address of a
    path, and no two entries hold the same path: every path is probed and
    every entry stays. *)
Lemma probe_paths_keeps (ignore_dB : bool) (todo : list path_entry) :
  forall done,
    NoDup (map e_address (done ++ todo)) ->
    Forall (fun e => forall a, e_key e <> To_path a) (done ++ todo) ->
    probe_paths ignore_dB todo (map (probe_entry ignore_dB) done ++ todo)
    = map (probe_entry ignore_dB) (done ++ todo).
Proof.
  induction todo as [|e todo IH]; intros done Hnd Hkeys; simpl.
  - rewrite !app_nil_r. reflexivity.
  - destruct (pa_alsa_path_probe (e_path e) ignore_dB) as [r p] eqn:Hprobe.
    assert (Hstore : store_path (e_address e) p (map (probe_entry ignore_dB) done ++ e :: todo)
                     = map (probe_entry ignore_dB) (done ++ [e]) ++ todo).
    { unfold store_path. rewrite map_app, (map_app _ done [e]), <- app_assoc. simpl.
      rewrite map_app in Hnd. apply NoDup_app in Hnd as (_ & Hdis & Hnd2).
      simpl in Hdis, Hnd2. apply NoDup_cons in Hnd2 as [Hnot _].
      f_equal; [|f_equal].
      - rewrite map_map. apply map_ext_in. intros x Hx. simpl.
        rewrite bool_decide_eq_false_2; [reflexivity|].
        intros Heq. apply (Hdis (e_address x)).
        + apply list_elem_of_In. apply in_map. exact Hx.
        + rewrite Heq. apply elem_of_cons. auto.
      - rewrite bool_decide_eq_true_2 by reflexivity.
        unfold probe_entry. rewrite Hprobe. reflexivity.
      - rewrite <- (map_id todo) at 2. apply map_ext_in. intros x Hx.
        rewrite bool_decide_eq_false_2; [reflexivity|].
        intros Heq. apply Hnot. rewrite <- Heq.
        apply list_elem_of_In. apply in_map. exact Hx. }
    rewrite Hstore.
    assert (Hkeep : hashmap_remove (To_path (e_address e))
                                   (map (probe_entry ignore_dB) (done ++ [e]) ++ todo)
                    = map (probe_entry ignore_dB) (done ++ [e]) ++ todo).
    { apply hashmap_remove_absent. rewrite Forall_forall in Hkeys.
      apply Forall_forall. intros x Hx. apply elem_of_app in Hx as [Hx|Hx].
      - apply list_elem_of_In, in_map_iff in Hx as (y & <- & Hy). simpl.
        apply Hkeys. apply list_elem_of_In in Hy.
        apply elem_of_app in Hy as [Hy|Hy]; apply elem_of_app; [left; exact Hy|right].
        apply list_elem_of_singleton in Hy as ->. apply elem_of_cons. auto.
      - apply Hkeys. apply elem_of_app. right. apply elem_of_cons. auto. }
    replace (if r <? 0
             then hashmap_remove (To_path (e_address e))
                                 (map (probe_entry ignore_dB) (done ++ [e]) ++ todo)
             else map (probe_entry ignore_dB) (done ++ [e]) ++ todo)
      with (map (probe_entry ignore_dB) (done ++ [e]) ++ todo)
      by (destruct (r <? 0); [symmetry; exact Hkeep | reflexivity]).
    rewrite IH.
    + rewrite <- app_assoc. reflexivity.
    + rewrite <- app_assoc. exact Hnd.
    + rewrite <- app_assoc. exact Hkeys.
Qed.

Lemma probe_step_name (ignore_dB : bool) (pv : path_volume) (l : probe_locals)
    (e : pa_alsa_element) (req_any : bool) :
  alsa_name (snd (probe_step ignore_dB pv l e req_any)) = alsa_name e.
Proof.
  unfold probe_step, merge_volume.
  destruct ignore_dB; simpl;
    repeat (match goal with |- context [if ?b then _ else _] => destruct b end; simpl);
    reflexivity.
Qed.

Lemma probe_step_unused (ignore_dB : bool) (pv : path_volume) (l : probe_locals)
    (e : pa_alsa_element) (req_any : bool) :
  unused e -> unused (snd (probe_step ignore_dB pv l e req_any)).
Proof.
  intros (Hs & Hv & He). unfold probe_step.
  set (e0 := if ignore_dB then with_volume e (volume_use e) false else e).
  assert (H0 : switch_use e0 = switch_use e /\ volume_use e0 = volume_use e
               /\ enumeration_use e0 = enumeration_use e)
    by (subst e0; destruct ignore_dB; auto).
  clearbody e0. destruct H0 as (H1 & H2 & H3).
  rewrite (bool_decide_eq_false_2 (volume_use e0 = PA_ALSA_VOLUME_MERGE)) by congruence.
  simpl. unfold unused. repeat split; congruence.
Qed.

Lemma probe_elements_names (ignore_dB : bool) (es : list pa_alsa_element) :
  forall pv l,
    map alsa_name (snd (probe_elements ignore_dB pv l es)) = map alsa_name es.
Proof.
  induction es as [|e es IH]; intros pv l; simpl; [reflexivity|].
  destruct (element_probe e) as [[e1 b]|] eqn:Hp; [|reflexivity].
  pose proof (probe_step_name ignore_dB pv l e1 b) as Hn.
  destruct (probe_step ignore_dB pv l e1 b) as [[pv1 l1] e2]. simpl in Hn.
  specialize (IH pv1 l1).
  destruct (probe_elements ignore_dB pv1 l1 es) as [[[ok pv2] l2] es2]. simpl in *.
  rewrite IH, Hn. f_equal. exact (element_probe_keeps_name _ _ _ Hp).
Qed.

Lemma probe_elements_unused (ignore_dB : bool) (es : list pa_alsa_element) :
  Forall unused es ->
  forall pv l, Forall unused (snd (probe_elements ignore_dB pv l es)).
Proof.
  induction 1 as [|e es He Hes IH]; intros pv l; simpl; [constructor|].
  destruct (element_probe e) as [[e1 b]|] eqn:Hp; [|constructor; assumption].
  assert (H1 : unused e1).
  { destruct He as (Hs & Hv & Hen).
    destruct (element_probe_keeps_ignore _ _ _ Hp) as (Ks & Kv & Ke).
    split; [|split]; auto. }
  pose proof (probe_step_unused ignore_dB pv l e1 b H1) as Hn.
  destruct (probe_step ignore_dB pv l e1 b) as [[pv1 l1] e2]. simpl in Hn.
  specialize (IH pv1 l1).
  destruct (probe_elements ignore_dB pv1 l1 es) as [[[ok pv2] l2] es2]. simpl in *.
  constructor; assumption.
Qed.

Lemma path_drop_unsupported_cons (e : pa_alsa_element) (es : list pa_alsa_element) :
  path_drop_unsupported (e :: es) = path_drop_unsupported [e] ++ path_drop_unsupported es.
Proof.
  unfold path_drop_unsupported. simpl map at 2. simpl map at 3.
  rewrite !filter_cons, filter_nil.
  destruct (decide (fst (element_drop_unsupported e) = true)); reflexivity.
Qed.

Lemma path_drop_unsupported_unused (es : list pa_alsa_element) :
  Forall unused es -> path_drop_unsupported es = [].
Proof.
  induction 1 as [|e es (Hs & Hv & He) _ IH]; [reflexivity|].
  rewrite path_drop_unsupported_cons, IH, app_nil_r.
  unfold path_drop_unsupported. simpl. rewrite filter_cons, filter_nil.
  destruct (decide _) as [Hd|]; [|reflexivity].
  simpl in Hd. rewrite Hs, Hv, He in Hd. discriminate.
Qed.

(** What is left of one element has its name. *)
Lemma path_drop_unsupported_one (e : pa_alsa_element) :
  path_drop_unsupported [e] = []
  \/ exists e', path_drop_unsupported [e] = [e'] /\ alsa_name e' = alsa_name e.
Proof.
  unfold path_drop_unsupported. simpl. rewrite filter_cons, filter_nil.
  destruct (decide _); [right|left; reflexivity].
  eexists. split; reflexivity.
Qed.

(** The element of a synthesized path. *)
Definition synthesized_element (name : string) (dir : pa_alsa_direction_t) : pa_alsa_element :=
  mk_element name dir PA_ALSA_SWITCH_MUTE PA_ALSA_VOLUME_MERGE
             PA_ALSA_ENUMERATION_IGNORE PA_ALSA_REQUIRED_IGNORE
             0 false 0 0 (-1) d_zero d_zero (fun _ _ => 0) 0 0 [] None.

(** The path of a set made from element names after its probe: it has no
    jacks; when the probe failed its elements have the names the path was
    made from, and when it succeeded all that can be left is the element the
    path was synthesized for, as the probe in an empty path leaves it. *)
Lemma probed_named_path (dir : pa_alsa_direction_t)
    (fixes : list (string * pa_alsa_decibel_fix)) (ignore_dB : bool)
    (n : string) (rest : list string) :
  let p := snd (pa_alsa_path_probe (named_path dir fixes (n :: rest)) ignore_dB) in
  jacks p = []
  /\ (map alsa_name (elements p) = n :: rest
      \/ exists e1 b,
           element_probe (fix_element fixes (synthesized_element n dir)) = Some (e1, b)
           /\ elements p
              = map (fun e => with_options e (make_options_unique (options e)))
                    (path_drop_unsupported
                       [snd (probe_step ignore_dB (mk_pv false false false false 0 0)
                                        (mk_locals (fun _ => d_zero) (fun _ => d_zero) 0)
                                        e1 b)])).
Proof.
  unfold pa_alsa_path_probe, named_path. simpl.
  rewrite map_map.
  rewrite (map_ext (fun je => fix_element fixes (absent_element je dir))
                   (fun je => absent_element je dir))
    by (intros; apply fix_element_absent).
  fold (synthesized_element n dir).
  set (h := fix_element fixes (synthesized_element n dir)).
  set (markers := map (fun je => absent_element je dir) rest).
  assert (Hnames : alsa_name h = n /\ map alsa_name markers = rest).
  { subst h markers. rewrite fix_element_name, map_map. simpl.
    split; [reflexivity | apply map_id]. }
  destruct Hnames as [Hh Hm].
  assert (Hun : Forall unused markers).
  { subst markers. apply Forall_forall. intros x Hx.
    apply list_elem_of_In, in_map_iff in Hx as (je & <- & _).
    repeat split. }
  destruct (element_probe h) as [[e1 b]|] eqn:Hp.
  2:{ simpl. split; [reflexivity|]. left. rewrite Hh, Hm. reflexivity. }
  pose proof (probe_step_name ignore_dB (mk_pv false false false false 0 0)
                (mk_locals (fun _ => d_zero) (fun _ => d_zero) 0) e1 b) as Hn1.
  destruct (probe_step ignore_dB (mk_pv false false false false 0 0)
              (mk_locals (fun _ => d_zero) (fun _ => d_zero) 0) e1 b)
    as [[pv1 l1] e2] eqn:Hstep.
  simpl in Hn1.
  pose proof (probe_elements_names ignore_dB markers pv1 l1) as Hn2.
  pose proof (probe_elements_unused ignore_dB markers Hun pv1 l1) as Hu2.
  destruct (probe_elements ignore_dB pv1 l1 markers) as [[[ok pv2] l2] es2].
  simpl in Hn2, Hu2.
  destruct ok; simpl.
  - destruct (dB_range l2) as [lo hi]. simpl. split; [reflexivity|].
    right. exists e1, b. split; [reflexivity|].
    rewrite path_drop_unsupported_cons, (path_drop_unsupported_unused es2 Hu2), app_nil_r.
    rewrite Hstep. reflexivity.
  - split; [reflexivity|]. left.
    rewrite Hn2, Hn1, (element_probe_keeps_name _ _ _ Hp), Hh, Hm. reflexivity.
Qed.

Lemma Forall2_names (ea eb : list pa_alsa_element) :
  Forall2 (fun a b => alsa_name a = alsa_name b /\ element_is_subset a b = Some true) ea eb ->
  map alsa_name ea = map alsa_name eb.
Proof.
  induction 1 as [|a b ea eb [Hn _] _ IH]; simpl; [reflexivity|].
  rewrite Hn, IH. reflexivity.
Qed.

(** Two probed paths of a set made from two or more element names: when one
    is a subset of the other, the other is a subset of the one. *)
Lemma synthesized_subset_symmetric (dir : pa_alsa_direction_t)
    (fixes : list (string * pa_alsa_decibel_fix)) (ignore_dB : bool)
    (names names' : list string) :
  length names = length names' ->
  (2 <= length names)%nat ->
  subset (snd (pa_alsa_path_probe (named_path dir fixes names) ignore_dB))
         (snd (pa_alsa_path_probe (named_path dir fixes names') ignore_dB)) ->
  subset (snd (pa_alsa_path_probe (named_path dir fixes names') ignore_dB))
         (snd (pa_alsa_path_probe (named_path dir fixes names) ignore_dB)).
Proof.
  destruct names as [|n rest]; [simpl; lia|].
  destruct names' as [|n' rest']; [simpl; lia|].
  intros Hlen Hlen2.
  pose proof (probed_named_path dir fixes ignore_dB n rest) as H1.
  pose proof (probed_named_path dir fixes ignore_dB n' rest') as H2.
  cbv zeta in H1, H2.
  set (p := snd (pa_alsa_path_probe (named_path dir fixes (n :: rest)) ignore_dB)) in *.
  set (q := snd (pa_alsa_path_probe (named_path dir fixes (n' :: rest')) ignore_dB)) in *.
  destruct H1 as [Hjp Hp], H2 as [Hjq Hq].
  intros [_ Hel]. split.
  { rewrite Hjq. intros ja Hin. inversion Hin. }
  pose proof (Forall2_names _ _ Hel) as Hnames.
  pose proof (Forall2_length _ _ _ Hel) as Hl.
  assert (Hsame : n :: rest = n' :: rest' ->
                  Forall2 (fun a b => alsa_name a = alsa_name b
                                      /\ element_is_subset a b = Some true)
                          (elements q) (elements p)).
  { intros Heq. subst p q. rewrite <- Heq. rewrite <- Heq in Hel. exact Hel. }
  assert (Hshort : forall x,
             (length (map (fun e => with_options e (make_options_unique (options e)))
                          (path_drop_unsupported [x])) <= 1)%nat).
  { intros x. rewrite length_map.
    destruct (path_drop_unsupported_one x) as [->|(e' & -> & _)]; simpl; lia. }
  destruct Hp as [Hp|(e1 & b & Hpr & Hep)], Hq as [Hq|(e1' & b' & Hpr' & Heq)].
  - apply Hsame. congruence.
  - exfalso. apply (f_equal length) in Hp. rewrite length_map in Hp.
    rewrite Heq in Hl. specialize (Hshort (snd (probe_step ignore_dB
      (mk_pv false false false false 0 0)
      (mk_locals (fun _ => d_zero) (fun _ => d_zero) 0) e1' b'))).
    simpl in Hlen2, Hp. lia.
  - exfalso. apply (f_equal length) in Hq. rewrite length_map in Hq.
    rewrite Hep in Hl. specialize (Hshort (snd (probe_step ignore_dB
      (mk_pv false false false false 0 0)
      (mk_locals (fun _ => d_zero) (fun _ => d_zero) 0) e1 b))).
    simpl in Hlen, Hlen2, Hq. lia.
  - set (x := snd (probe_step ignore_dB (mk_pv false false false false 0 0)
                              (mk_locals (fun _ => d_zero) (fun _ => d_zero) 0) e1 b)) in *.
    set (x' := snd (probe_step ignore_dB (mk_pv false false false false 0 0)
                               (mk_locals (fun _ => d_zero) (fun _ => d_zero) 0) e1' b')) in *.
    assert (Hx : alsa_name x = n).
    { subst x. rewrite probe_step_name, (element_probe_keeps_name _ _ _ Hpr).
      apply fix_element_name. }
    assert (Hx' : alsa_name x' = n').
    { subst x'. rewrite probe_step_name, (element_probe_keeps_name _ _ _ Hpr').
      apply fix_element_name. }
    destruct (path_drop_unsupported_one x) as [Hd|(y & Hd & Hy)];
      destruct (path_drop_unsupported_one x') as [Hd'|(y' & Hd' & Hy')];
      rewrite Hd in Hep; rewrite Hd' in Heq; simpl in Hep, Heq;
      rewrite Hep, Heq in Hl, Hnames; simpl in Hl, Hnames; try discriminate.
    + rewrite Hep, Heq. constructor.
    + injection Hnames as Hn. rewrite Hy, Hy', Hx, Hx' in Hn. subst n'.
      rewrite Hpr in Hpr'. injection Hpr' as <- <-.
      assert (y' = y) by (subst x x'; congruence). subst y'.
      rewrite Hep, Heq in *. exact Hel.
Qed.

(** C5. A probed path set is a set whose paths are stored under their own
    addresses, or one made from element names and probed.  On such a set in
    which every comparison of two paths is defined, [path_set_condense]
    returns, and of the paths it leaves (all of the one direction of the
    set) none is a strict subset of another one; a path that is stored under
    its own address is no subset of another one at all. *)
Theorem condensed_set_has_no_strict_subset (ps : pa_alsa_path_set) :
  probed_path_set ps ->
  (forall e, e ∈ paths ps -> jacks_probed (e_path e)) ->
  (forall e1 e2, e1 ∈ paths ps -> e2 ∈ paths ps ->
                 is_Some (path_is_subset (e_path e1) (e_path e2))) ->
  exists ps',
    path_set_condense ps = Some ps'
    /\ paths ps' ⊆ paths ps
    /\ ps_direction ps' = ps_direction ps
    /\ forall e1 e2,
         e1 ∈ paths ps' -> e2 ∈ paths ps' -> e_address e1 <> e_address e2 ->
         ~ strict_subset (e_path e1) (e_path e2)
         /\ (e_key e1 = To_path (e_address e1) -> ~ subset (e_path e1) (e_path e2)).
Proof.
  intros Hkind Hprobed Hdef. unfold path_set_condense.
  destruct (length (paths ps) <? 2)%nat eqn:Hlen.
  { exists ps. split; [reflexivity|]. split; [reflexivity|]. split; [reflexivity|].
    intros e1 e2 H1 H2 Hne. exfalso.
    apply Nat.ltb_lt in Hlen.
    destruct (paths ps) as [|x [|y l]]; simpl in Hlen; [inversion H1 | | lia].
    apply list_elem_of_singleton in H1, H2. congruence. }
  destruct Hkind as [Hown|(en & fixes & ignore_dB & Hmade)].
  - destruct (condense_loop_returns (paths ps) (paths ps) Hdef) as [m Hm].
    rewrite Hm. simpl. eexists. split; [reflexivity|]. simpl.
    destruct (condense_loop_invariant _ _ _ Hm) as [Hincl Hinv].
    split; [exact Hincl|]. split; [reflexivity|].
    intros e1 e2 H1 H2 Hne.
    assert (Hkey : e_key e1 = To_path (e_address e1)).
    { unfold stored_under_own_address in Hown. rewrite Forall_forall in Hown.
      apply Hown, Hincl, H1. }
    pose proof (Hinv e1 H1 (Hincl _ H1) Hkey e2 H2 Hne) as Hns.
    assert (Hnot : ~ subset (e_path e1) (e_path e2)).
    { intros Hs.
      apply (path_is_subset_spec _ _ (Hprobed e1 (Hincl _ H1)) (Hprobed e2 (Hincl _ H2)))
        in Hs.
      congruence. }
    split; [intros [Hs _]; exact (Hnot Hs) | intros _; exact Hnot].
  - rewrite path_set_of_elements_paths in Hmade.
    set (made := fun i ie => mk_entry (To_string i) i
                                      (named_path (ps_direction ps) fixes (ie :: delete i en)))
      in Hmade.
    assert (Hkeys0 : Forall (fun e => forall a, e_key e <> To_path a) (imap made en)).
    { apply Forall_forall. intros e He.
      apply elem_of_lookup_imap in He as (i & ie & -> & _). intros a. discriminate. }
    assert (Hnd : NoDup (map e_address (imap made en))).
    { change (map e_address (imap made en)) with (e_address <$> imap made en).
      rewrite fmap_imap.
      rewrite (imap_ext _ (fun j _ => j)) by reflexivity.
      rewrite imap_seq_0, list_fmap_id. apply NoDup_seq. }
    pose proof (probe_paths_keeps ignore_dB (imap made en) []) as Hpp.
    simpl in Hpp. rewrite Hpp in Hmade by assumption. clear Hpp.
    assert (Hkeys : Forall (fun e => forall a, e_key e <> To_path a) (paths ps)).
    { rewrite Hmade. apply Forall_forall. intros e He.
      apply list_elem_of_In, in_map_iff in He as (x & <- & Hx). simpl.
      rewrite Forall_forall in Hkeys0. apply Hkeys0, list_elem_of_In, Hx. }
    rewrite (condense_loop_keeps (paths ps) (paths ps) Hkeys Hdef). simpl.
    eexists. split; [reflexivity|]. simpl.
    split; [reflexivity|]. split; [reflexivity|].
    intros e1 e2 H1 H2 Hne.
    split.
    2:{ intros Hk. rewrite Forall_forall in Hkeys. destruct (Hkeys e1 H1 _ Hk). }
    rewrite Hmade in H1, H2.
    apply list_elem_of_In, in_map_iff in H1 as (x1 & <- & Hx1).
    apply list_elem_of_In, in_map_iff in H2 as (x2 & <- & Hx2).
    apply list_elem_of_In, elem_of_lookup_imap in Hx1 as (i & ie & -> & Hi).
    apply list_elem_of_In, elem_of_lookup_imap in Hx2 as (k & ke & -> & Hk).
    simpl in Hne. unfold probe_entry, made, e_path.
    pose proof (lookup_lt_Some _ _ _ Hi) as Hil.
    pose proof (lookup_lt_Some _ _ _ Hk) as Hkl.
    intros [Hs Hns]. apply Hns.
    apply synthesized_subset_symmetric; [| |exact Hs].
    + simpl. rewrite !length_delete by eauto. reflexivity.
    + simpl. rewrite length_delete by eauto. lia.
Qed.

End Mixer.


(** *** A path with a plain slider before a dB slider *)

Definition slider (name : string) (dB : bool) : pa_alsa_element Z :=
  mk_element Z name PA_ALSA_DIRECTION_OUTPUT PA_ALSA_SWITCH_IGNORE PA_ALSA_VOLUME_MERGE
             PA_ALSA_ENUMERATION_IGNORE PA_ALSA_REQUIRED_IGNORE 0 dB 0 31 (-1) (-4650) 0
             (fun _ _ => 3) 2 3 [] None.

Definition two_sliders : pa_alsa_path Z unit :=
  mk_path Z unit PA_ALSA_DIRECTION_OUTPUT "analog-output" false false false false false false false 0 0 0 0
          [slider "Master" false; slider "PCM" true] [] [].

(** A mixer on which every element is found as it is configured. *)
Definition probe_two_sliders : Z * pa_alsa_path Z unit :=
  pa_alsa_path_probe Z 0 1000000 (-1000000) Z.add Z.ltb unit
                     (fun e => Some (e, false)) (fun _ => true) (fun os => os)
                     (fun _ => []) two_sliders false.

Lemma path_probe_zeroes_later_dB_element_witness :
  exists pre' mid' post' e1f e2f,
    elements _ _ (snd probe_two_sliders) = pre' ++ e1f :: mid' ++ e2f :: post'
    /\ e1f = finalize Z (fun os => os) (slider "Master" false)
    /\ volume_use _ e1f = PA_ALSA_VOLUME_MERGE /\ has_dB _ e1f = false
    /\ e2f = finalize Z (fun os => os) (with_volume Z (slider "PCM" true) PA_ALSA_VOLUME_ZERO true)
    /\ volume_use _ e2f = PA_ALSA_VOLUME_ZERO /\ has_dB _ e2f = true
    /\ Forall (fun e => volume_use _ e <> PA_ALSA_VOLUME_MERGE) (pre' ++ mid' ++ post')
    /\ has_volume _ _ (snd probe_two_sliders) = true
    /\ p_has_dB _ _ (snd probe_two_sliders) = false.
Proof.
  apply (path_probe_zeroes_later_dB_element Z 0 1000000 (-1000000) Z.add Z.ltb unit
           (fun e => Some (e, false)) (fun _ => true) (fun os => os) (fun _ => [])
           two_sliders [] [] [] (slider "Master" false) (slider "PCM" true)
           (slider "Master" false) (slider "PCM" true) false false);
    try reflexivity; constructor.
Defined.

(** C4 as stated fails: after the probe the earlier element without dB,
    "Master", is still MERGE and not ZERO, the later dB-capable "PCM" is the
    one set to ZERO, and the path has no dB. *)
Lemma path_probe_earlier_element_counterexample :
  fst probe_two_sliders = 0
  /\ map (fun e => (alsa_name _ e, volume_use _ e, has_dB _ e))
         (elements _ _ (snd probe_two_sliders))
     = [("Master"%string, PA_ALSA_VOLUME_MERGE, false);
        ("PCM"%string, PA_ALSA_VOLUME_ZERO, true)]
  /\ p_has_dB _ _ (snd probe_two_sliders) = false.
Proof. vm_compute. repeat split. Qed.

(** *** A path set with a path that is a subset of another one *)

Definition master (u : pa_alsa_volume_use_t) : pa_alsa_element Z :=
  mk_element Z "Master" PA_ALSA_DIRECTION_OUTPUT PA_ALSA_SWITCH_IGNORE u
             PA_ALSA_ENUMERATION_IGNORE PA_ALSA_REQUIRED_IGNORE 0 true 0 64 (-1) (-6400) 0
             (fun _ _ => 3) 2 3 [] None.

Definition jack (name : string) (found : bool) : pa_alsa_jack :=
  mk_jack name found PA_AVAILABLE_NO PA_AVAILABLE_YES
          PA_ALSA_REQUIRED_IGNORE PA_ALSA_REQUIRED_IGNORE PA_ALSA_REQUIRED_IGNORE.

Definition path_of (name : string) (es : list (pa_alsa_element Z)) (js : list pa_alsa_jack)
  : pa_alsa_path Z unit :=
  mk_path Z unit PA_ALSA_DIRECTION_OUTPUT name true true false true true false false
          0 64 (-6400) 0 es [] js.

(** "speaker" merges Master, "speaker-off" turns it off, "headphones" has
    another element.  The three paths are stored under their own addresses,
    as the paths of a set made from path names are. *)
Definition output_paths : pa_alsa_path_set Z unit :=
  mk_path_set Z unit
    [ mk_entry Z unit (To_path 1) 1
               (path_of "speaker" [master PA_ALSA_VOLUME_MERGE] [jack "Speaker Jack" false]);
      mk_entry Z unit (To_path 2) 2
               (path_of "speaker-off" [master PA_ALSA_VOLUME_OFF] []);
      mk_entry Z unit (To_path 3) 3
               (path_of "headphones" [slider "Headphone" true] [jack "Headphone Jack" true]) ]
    PA_ALSA_DIRECTION_OUTPUT.

Definition no_mixer (name : string) (d : pa_alsa_direction_t) (dB : Z) : option Z := None.

(** The hardware has a "Headphone Jack" and no other jack. *)
Definition find_jack (name : string) : bool := bool_decide (name = "Headphone Jack"%string).

Example condense_output_paths :
  option_map (fun ps => map (e_address _ _) (paths _ _ ps))
             (path_set_condense Z unit no_mixer output_paths)
  = Some [1%nat; 3%nat].
Proof. reflexivity. Qed.

(** *** A path set made from element names *)

(** A mixer on which no element is found: [element_probe] sets the three
    uses of the element to IGNORE and returns 0. *)
Definition element_not_found (e : pa_alsa_element Z) : option (pa_alsa_element Z * bool) :=
  Some (mk_element Z (alsa_name _ e) (direction _ e) PA_ALSA_SWITCH_IGNORE
                   PA_ALSA_VOLUME_IGNORE PA_ALSA_ENUMERATION_IGNORE (required_absent _ e)
                   (constant_volume _ e) (has_dB _ e) (min_volume _ e) (max_volume _ e)
                   (volume_limit _ e) (min_dB _ e) (max_dB _ e) (masks _ e) (n_channels _ e)
                   (merged_mask _ e) (options _ e) (db_fix _ e),
        false).

(** The set [pa_alsa_path_set_new] makes for the element names "Master" and
    "PCM", once [mapping_paths_probe] has probed its paths. *)
Definition element_paths : pa_alsa_path_set Z unit :=
  let made := path_set_of_elements Z 0 unit ["Master"; "PCM"]%string
                                   PA_ALSA_DIRECTION_OUTPUT [] in
  mk_path_set Z unit
    (probe_paths Z 0 1000000 (-1000000) Z.add Z.ltb unit element_not_found find_jack
                 (fun os => os) (fun _ => []) false (paths _ _ made) (paths _ _ made))
    PA_ALSA_DIRECTION_OUTPUT.

(** Both paths are stored under the name of their element, both have lost
    all their elements in the probe, each is a subset of the other one, and
    both stay in the set. *)
Example condense_element_paths :
  option_map (fun ps => map (fun e => (e_key _ _ e, e_address _ _ e,
                                       length (elements _ _ (e_path _ _ e))))
                            (paths _ _ ps))
             (path_set_condense Z unit no_mixer element_paths)
  = Some [(To_string 0, 0%nat, 0%nat); (To_string 1, 1%nat, 0%nat)]
  /\ match paths _ _ element_paths with
     | [a; b] => (path_is_subset Z unit no_mixer (e_path _ _ a) (e_path _ _ b),
                  path_is_subset Z unit no_mixer (e_path _ _ b) (e_path _ _ a))
     | _ => (None, None)
     end = (Some true, Some true).
Proof. split; reflexivity. Qed.

Lemma condensed_set_has_no_strict_subset_witness :
  (exists ps',
      path_set_condense Z unit no_mixer output_paths = Some ps'
      /\ paths _ _ ps' ⊆ paths _ _ output_paths
      /\ ps_direction _ _ ps' = ps_direction _ _ output_paths
      /\ forall e1 e2,
           e1 ∈ paths _ _ ps' -> e2 ∈ paths _ _ ps' -> e_address _ _ e1 <> e_address _ _ e2 ->
           ~ strict_subset Z unit no_mixer (e_path _ _ e1) (e_path _ _ e2)
           /\ (e_key _ _ e1 = To_path (e_address _ _ e1) ->
               ~ subset Z unit no_mixer (e_path _ _ e1) (e_path _ _ e2)))
  /\ (exists ps',
      path_set_condense Z unit no_mixer element_paths = Some ps'
      /\ paths _ _ ps' ⊆ paths _ _ element_paths
      /\ ps_direction _ _ ps' = ps_direction _ _ element_paths
      /\ forall e1 e2,
           e1 ∈ paths _ _ ps' -> e2 ∈ paths _ _ ps' -> e_address _ _ e1 <> e_address _ _ e2 ->
           ~ strict_subset Z unit no_mixer (e_path _ _ e1) (e_path _ _ e2)
           /\ (e_key _ _ e1 = To_path (e_address _ _ e1) ->
               ~ subset Z unit no_mixer (e_path _ _ e1) (e_path _ _ e2))).
Proof.
  assert (Hname : forall (e e' : pa_alsa_element Z) (b : bool),
             element_not_found e = Some (e', b) -> alsa_name _ e' = alsa_name _ e).
  { intros e e' b [= <- _]. reflexivity. }
  assert (Hignore : forall (e e' : pa_alsa_element Z) (b : bool),
             element_not_found e = Some (e', b) ->
             (switch_use _ e = PA_ALSA_SWITCH_IGNORE -> switch_use _ e' = PA_ALSA_SWITCH_IGNORE)
             /\ (volume_use _ e = PA_ALSA_VOLUME_IGNORE -> volume_use _ e' = PA_ALSA_VOLUME_IGNORE)
             /\ (enumeration_use _ e = PA_ALSA_ENUMERATION_IGNORE ->
                 enumeration_use _ e' = PA_ALSA_ENUMERATION_IGNORE)).
  { intros e e' b [= <- _]. repeat split. }
  split.
  - apply (condensed_set_has_no_strict_subset Z 0 1000000 (-1000000) Z.add Z.ltb unit
             element_not_found find_jack (fun os => os) (fun _ => []) no_mixer
             Hname Hignore output_paths).
    + left. repeat constructor.
    + intros e He j Hj.
      apply list_elem_of_In in He. simpl in He.
      destruct He as [<-|[<-|[<-|[]]]];
        apply list_elem_of_In in Hj; simpl in Hj;
        repeat (destruct Hj as [<-|Hj]; [reflexivity|]); destruct Hj.
    + intros e1 e2 H1 H2.
      apply list_elem_of_In in H1, H2. simpl in H1, H2.
      destruct H1 as [<-|[<-|[<-|[]]]];
        destruct H2 as [<-|[<-|[<-|[]]]];
        vm_compute; eauto.
  - apply (condensed_set_has_no_strict_subset Z 0 1000000 (-1000000) Z.add Z.ltb unit
             element_not_found find_jack (fun os => os) (fun _ => []) no_mixer
             Hname Hignore element_paths).
    + right. exists ["Master"; "PCM"]%string, [], false. reflexivity.
    + intros e He j Hj.
      apply list_elem_of_In in He. vm_compute in He.
      destruct He as [<-|[<-|[]]];
        apply list_elem_of_In in Hj; vm_compute in Hj; destruct Hj.
    + intros e1 e2 H1 H2.
      apply list_elem_of_In in H1, H2. vm_compute in H1, H2.
      destruct H1 as [<-|[<-|[]]];
        destruct H2 as [<-|[<-|[]]];
        vm_compute; eauto.
Defined.

End AlsaMixer.

(** ** Flat volume: [pa_source_set_volume] and the functions under it
       (source.c) *)

Module SourceVolume.
Import Core Volume.

(** A channel map is the list of its positions. *)
Definition pa_channel_map := list Z.

(** What a call leaves behind for observers. *)
Inductive event :=
| Subscription_source_change (index : Z)
| Subscription_source_output_change (index : Z)
| Call_volume_changed (o : nat)
| Call_set_volume (s : nat)
| Log_warn_passthrough
| Msg_set_shared_volume (s : nat).

(** The members of [pa_source] and [pa_source_output] that the volume code
    reads but never writes: the device graph.  Objects are referred to by
    their address; [None] is [NULL]. *)
Record source_info := mk_source {
  s_index : Z;
  s_state : pa_source_state_t;
  flat_volume : bool;                  (* flags & PA_SOURCE_FLAT_VOLUME *)
  share_volume_with_master : bool;     (* flags & PA_SOURCE_SHARE_VOLUME_WITH_MASTER *)
  deferred_volume : bool;              (* flags & PA_SOURCE_DEFERRED_VOLUME *)
  has_set_volume : bool;               (* s->set_volume != NULL *)
  channel_map : pa_channel_map;
  s_channels : nat;                    (* sample_spec.channels *)
  outputs : list nat;                  (* the idxset, in iteration order *)
  output_from_master : option nat;
  monitor_of : option nat
}.

Record output_info := mk_output {
  o_index : Z;
  o_channel_map : pa_channel_map;
  o_channels : nat;                    (* sample_spec.channels *)
  o_source : option nat;
  destination_source : option nat;
  has_volume_changed : bool            (* o->volume_changed != NULL *)
}.

Record graph := mk_graph {
  sources : gmap nat source_info;
  source_outputs : gmap nat output_info
}.

(** The members the volume code writes. *)
Record source_volumes := mk_sv {
  reference_volume : pa_cvolume;
  real_volume : pa_cvolume;
  soft_volume : pa_cvolume;
  save_volume : bool
}.

Record output_volumes := mk_ov {
  volume : pa_cvolume;
  reference_ratio : pa_cvolume;
  real_ratio : pa_cvolume;
  o_soft_volume : pa_cvolume;
  volume_factor : pa_cvolume
}.

Record state := mk_state {
  sv : nat -> source_volumes;
  ov : nat -> output_volumes;
  events : list event
}.

Definition set_sv (st : state) (s : nat) (f : source_volumes -> source_volumes) : state :=
  mk_state (fun x => if decide (x = s) then f (sv st x) else sv st x) (ov st) (events st).

Definition set_ov (st : state) (o : nat) (f : output_volumes -> output_volumes) : state :=
  mk_state (sv st) (fun x => if decide (x = o) then f (ov st x) else ov st x) (events st).

Definition post (st : state) (e : event) : state :=
  mk_state (sv st) (ov st) (events st ++ [e]).

Definition with_real_volume (v : pa_cvolume) (x : source_volumes) : source_volumes :=
  mk_sv (reference_volume x) v (soft_volume x) (save_volume x).
Definition with_soft_volume (v : pa_cvolume) (x : source_volumes) : source_volumes :=
  mk_sv (reference_volume x) (real_volume x) v (save_volume x).
Definition with_reference_volume (v : pa_cvolume) (save : bool) (x : source_volumes)
  : source_volumes :=
  mk_sv v (real_volume x) (soft_volume x) save.

Definition with_volume (v : pa_cvolume) (x : output_volumes) : output_volumes :=
  mk_ov v (reference_ratio x) (real_ratio x) (o_soft_volume x) (volume_factor x).
Definition with_reference_ratio (v : pa_cvolume) (x : output_volumes) : output_volumes :=
  mk_ov (volume x) v (real_ratio x) (o_soft_volume x) (volume_factor x).
Definition with_real_ratio (r soft : pa_cvolume) (x : output_volumes) : output_volumes :=
  mk_ov (volume x) (reference_ratio x) r soft (volume_factor x).

(** A pointer to a volume member of a source, as the callers of
    [update_real_volume] pass it. *)
Inductive volume_ref :=
| Reference_volume_of (s : nat)
| Real_volume_of (s : nat).

Definition deref (st : state) (r : volume_ref) : pa_cvolume :=
  match r with
  | Reference_volume_of s => reference_volume (sv st s)
  | Real_volume_of s => real_volume (sv st s)
  end.

(** [values[c]]; the channels a volume does not have read as MUTED. *)
Definition value (v : pa_cvolume) (c : nat) : pa_volume_t :=
  default PA_VOLUME_MUTED (v !! c).

(** [PA_IDXSET_FOREACH] with a body that can fail. *)
Fixpoint for_each {A B : Type} (f : B -> A -> outcome B) (b : B) (l : list A) : outcome B :=
  match l with
  | [] => Done b
  | a :: l => b' ← f b a; for_each f b' l
  end.

(** A [PA_IDXSET_FOREACH] that returns TRUE at the first hit. *)
Fixpoint first_hit {A : Type} (f : A -> outcome bool) (l : list A) : outcome bool :=
  match l with
  | [] => Done false
  | a :: l => hit ← f a; if (hit : bool) then Done true else first_hit f l
  end.

Section SetVolume.

(** The volume arithmetic of pulse/volume.c, the passthrough state of a sink
    (sink.c) and [PA_VOLUME_MAX]. *)
Variable pa_cvolume_remap : pa_cvolume -> pa_channel_map -> pa_channel_map -> pa_cvolume.
Variable pa_sw_volume_multiply : pa_volume_t -> pa_volume_t -> pa_volume_t.
Variable pa_sw_volume_divide : pa_volume_t -> pa_volume_t -> pa_volume_t.
Variable pa_cvolume_scale : pa_cvolume -> pa_volume_t -> pa_cvolume.
Variable pa_sink_is_passthrough : nat -> bool.
Variable PA_VOLUME_MAX : pa_volume_t.

(** Modelled from the spec: the implementor's [set_volume] member (the
    drivers are not among the sources), which "consumes real_volume and may
    itself adjust soft_volume"; it returns the soft volume it leaves. *)
Variable set_volume_cb : source_info -> source_volumes -> pa_cvolume.

(** Modelled from the spec: [pa_sw_cvolume_multiply] of pulse/volume.c, the
    channelwise [pa_sw_volume_multiply] over the channels both have. *)
Definition pa_sw_cvolume_multiply (a b : pa_cvolume) : pa_cvolume :=
  zip_with pa_sw_volume_multiply a b.

(** Modelled from the spec: [pa_cvolume_valid] of pulse/volume.c; between 1
    and 32 channels, every value at most [PA_VOLUME_MAX]. *)
Definition pa_cvolume_valid (v : pa_cvolume) : bool :=
  (1 <=? length v)%nat && (length v <=? 32)%nat
  && forallb (fun x => (0 <=? x) && (x <=? PA_VOLUME_MAX)) v.

Variable g : graph.

(** The bound on the [while] loop of [pa_source_get_master]. *)
Variable master_fuel : nat.

Fixpoint get_master_loop (fuel : nat) (s : nat) : outcome (option nat) :=
  match fuel with
  | O => OutOfFuel
  | S fuel =>
      si ← of_option (sources g !! s);
      if share_volume_with_master si then
        match output_from_master si with
        | None => Done None
        | Some o =>
            oi ← of_option (source_outputs g !! o);
            match o_source oi with
            | None => Done None
            | Some s' => get_master_loop fuel s'
            end
        end
      else Done (Some s)
  end.

(** [pa_source_get_master]: the inner [None] is [NULL]. *)
Definition pa_source_get_master (s : nat) : outcome (option nat) :=
  get_master_loop master_fuel s.

(** [pa_source_flat_volume_enabled]. *)
Definition pa_source_flat_volume_enabled (s : nat) : outcome bool :=
  m ← pa_source_get_master s;
  match m with
  | Some r => ri ← of_option (sources g !! r); Done (flat_volume ri)
  | None => Done false
  end.

(** [pa_source_is_passthrough]. *)
Definition pa_source_is_passthrough (si : source_info) : bool :=
  match monitor_of si with
  | Some snk => pa_sink_is_passthrough snk
  | None => false
  end.

(** [o->destination_source && (o->destination_source->flags &
    PA_SOURCE_SHARE_VOLUME_WITH_MASTER)]: the destination source when the
    test holds. *)
Definition sharing_destination (oi : output_info) : outcome (option nat) :=
  match destination_source oi with
  | None => Done None
  | Some d => di ← of_option (sources g !! d);
              Done (if share_volume_with_master di then Some d else None)
  end.

(** The assertions at the head of the static functions. *)
Definition assert_linked_flat (s : nat) : outcome source_info :=
  si ← of_option (sources g !! s);
  flat ← pa_source_flat_volume_enabled s;
  if PA_SOURCE_IS_LINKED (s_state si) && flat then Done si else Abort.

(** [compute_reference_ratio (o)]. *)
Definition compute_reference_ratio (st : state) (o : nat) : outcome state :=
  oi ← of_option (source_outputs g !! o);
  s ← of_option (o_source oi);
  si ← of_option (sources g !! s);
  flat ← pa_source_flat_volume_enabled s;
  if negb (flat : bool) then Abort
  else
    let remapped := pa_cvolume_remap (reference_volume (sv st s))
                                     (channel_map si) (o_channel_map oi) in
    let x := ov st o in
    let ratio :=
      map (fun c =>
             if value remapped c <=? PA_VOLUME_MUTED then value (reference_ratio x) c
             else if pa_sw_volume_multiply (value (reference_ratio x) c) (value remapped c)
                     =? value (volume x) c
                  then value (reference_ratio x) c
                  else pa_sw_volume_divide (value (volume x) c) (value remapped c))
          (seq 0 (o_channels oi)) in
    Done (set_ov st o (with_reference_ratio ratio)).

(** [compute_reference_ratios (s)]. *)
Fixpoint compute_reference_ratios (fuel : nat) (st : state) (s : nat) : outcome state :=
  match fuel with
  | O => OutOfFuel
  | S fuel =>
      si ← assert_linked_flat s;
      for_each (fun st o =>
                  st ← compute_reference_ratio st o;
                  oi ← of_option (source_outputs g !! o);
                  d ← sharing_destination oi;
                  match d with
                  | Some d => compute_reference_ratios fuel st d
                  | None => Done st
                  end)
               st (outputs si)
  end.

(** The per-channel loop of [compute_real_ratios] for one output. *)
Definition real_ratio_of (remapped : pa_cvolume) (x : output_volumes) (channels : nat)
  : pa_cvolume * pa_cvolume :=
  let ratio :=
    map (fun c =>
           if value remapped c <=? PA_VOLUME_MUTED then value (real_ratio x) c
           else if negb (pa_sw_volume_multiply (value (real_ratio x) c) (value remapped c)
                         =? value (volume x) c)
                then pa_sw_volume_divide (value (volume x) c) (value remapped c)
                else value (real_ratio x) c)
        (seq 0 channels) in
  let soft :=
    map (fun c =>
           if value remapped c <=? PA_VOLUME_MUTED then PA_VOLUME_MUTED
           else pa_sw_volume_multiply (value ratio c) (value (volume_factor x) c))
        (seq 0 channels) in
  (ratio, soft).

(** [compute_real_ratios (s)]. *)
Fixpoint compute_real_ratios (fuel : nat) (st : state) (s : nat) : outcome state :=
  match fuel with
  | O => OutOfFuel
  | S fuel =>
      si ← assert_linked_flat s;
      for_each (fun st o =>
                  oi ← of_option (source_outputs g !! o);
                  d ← sharing_destination oi;
                  match d with
                  | Some d =>
                      let x := ov st o in
                      let st := set_ov st o (with_real_ratio
                                               (pa_cvolume_reset (length (real_ratio x)))
                                               (volume_factor x)) in
                      compute_real_ratios fuel st d
                  | None =>
                      let remapped := pa_cvolume_remap (real_volume (sv st s))
                                                       (channel_map si) (o_channel_map oi) in
                      let '(ratio, soft) := real_ratio_of remapped (ov st o) (o_channels oi) in
                      Done (set_ov st o (with_real_ratio ratio soft))
                  end)
               st (outputs si)
  end.

(** [cvolume_remap_minimal_impact (v, template, from, to)]. *)
Definition cvolume_remap_minimal_impact (v template : pa_cvolume) (from to : pa_channel_map)
  : outcome pa_cvolume :=
  if negb ((length v =? length from)%nat && (length template =? length to)%nat) then Abort
  else if bool_decide (from = to) then Done v
  else if pa_cvolume_equal (pa_cvolume_remap template to from) v then Done template
  else Done (pa_cvolume_set (length to) (pa_cvolume_max v)).

(** [get_maximum_output_volume (s, max_volume, channel_map)]; [max_volume]
    points to the real volume of the source [acc]. *)
Fixpoint get_maximum_output_volume (fuel : nat) (st : state) (s : nat) (acc : nat)
    (cm : pa_channel_map) : outcome state :=
  match fuel with
  | O => OutOfFuel
  | S fuel =>
      si ← of_option (sources g !! s);
      flat ← pa_source_flat_volume_enabled s;
      if negb (flat : bool) then Abort
      else
        for_each (fun st o =>
                    oi ← of_option (source_outputs g !! o);
                    d ← sharing_destination oi;
                    match d with
                    | Some d => get_maximum_output_volume fuel st d acc cm
                    | None =>
                        let max_volume := real_volume (sv st acc) in
                        remapped ← cvolume_remap_minimal_impact (volume (ov st o)) max_volume
                                                                (o_channel_map oi) cm;
                        Done (set_sv st acc
                                (with_real_volume (pa_cvolume_merge max_volume remapped)))
                    end)
                 st (outputs si)
  end.

(** [has_outputs (s)]. *)
Fixpoint has_outputs (fuel : nat) (s : nat) : outcome bool :=
  match fuel with
  | O => OutOfFuel
  | S fuel =>
      si ← of_option (sources g !! s);
      first_hit (fun o =>
                   oi ← of_option (source_outputs g !! o);
                   d ← sharing_destination oi;
                   match d with
                   | Some d => has_outputs fuel d
                   | None => Done true
                   end)
                (outputs si)
  end.

(** [update_real_volume (s, new_volume, channel_map)]. *)
Fixpoint update_real_volume (fuel : nat) (st : state) (s : nat) (new_volume : volume_ref)
    (cm : pa_channel_map) : outcome state :=
  match fuel with
  | O => OutOfFuel
  | S fuel =>
      si ← of_option (sources g !! s);
      let st := set_sv st s (with_real_volume
                               (pa_cvolume_remap (deref st new_volume) cm (channel_map si))) in
      for_each (fun st o =>
                  oi ← of_option (source_outputs g !! o);
                  d ← sharing_destination oi;
                  match d with
                  | Some d =>
                      flat ← pa_source_flat_volume_enabled s;
                      st ← (if (flat : bool) then
                              let old_volume := volume (ov st o) in
                              let v := pa_cvolume_remap (deref st new_volume) cm
                                                        (o_channel_map oi) in
                              let st := set_ov st o (with_volume v) in
                              st ← compute_reference_ratio st o;
                              if negb (pa_cvolume_equal old_volume v) then
                                let st := if has_volume_changed oi
                                          then post st (Call_volume_changed o) else st in
                                Done (post st (Subscription_source_output_change (o_index oi)))
                              else Done st
                            else Done st);
                      update_real_volume fuel st d new_volume cm
                  | None => Done st
                  end)
               st (outputs si)
  end.

(** [compute_real_volume (s)]. *)
Definition compute_real_volume (fuel : nat) (st : state) (s : nat) : outcome state :=
  si ← assert_linked_flat s;
  if share_volume_with_master si then Abort
  else
    some ← has_outputs fuel s;
    if negb (some : bool) then
      update_real_volume fuel st s (Reference_volume_of s) (channel_map si)
    else
      let st := set_sv st s (with_real_volume (pa_cvolume_mute (length (channel_map si)))) in
      st ← get_maximum_output_volume fuel st s s (channel_map si);
      st ← update_real_volume fuel st s (Real_volume_of s) (channel_map si);
      compute_real_ratios fuel st s.

(** [propagate_reference_volume (s)]. *)
Fixpoint propagate_reference_volume (fuel : nat) (st : state) (s : nat) : outcome state :=
  match fuel with
  | O => OutOfFuel
  | S fuel =>
      si ← assert_linked_flat s;
      for_each (fun st o =>
                  oi ← of_option (source_outputs g !! o);
                  d ← sharing_destination oi;
                  match d with
                  | Some d => propagate_reference_volume fuel st d
                  | None =>
                      let old_volume := volume (ov st o) in
                      let v := pa_sw_cvolume_multiply
                                 (pa_cvolume_remap (reference_volume (sv st s))
                                                   (channel_map si) (o_channel_map oi))
                                 (reference_ratio (ov st o)) in
                      let st := set_ov st o (with_volume v) in
                      if negb (pa_cvolume_equal old_volume v) then
                        let st := if has_volume_changed oi
                                  then post st (Call_volume_changed o) else st in
                        Done (post st (Subscription_source_output_change (o_index oi)))
                      else Done st
                  end)
               st (outputs si)
  end.

(** [update_reference_volume (s, v, channel_map, save)]: the state and the
    return value. *)
Fixpoint update_reference_volume (fuel : nat) (st : state) (s : nat) (v : pa_cvolume)
    (cm : pa_channel_map) (save : bool) : outcome (state * bool) :=
  match fuel with
  | O => OutOfFuel
  | S fuel =>
      si ← of_option (sources g !! s);
      if negb (PA_SOURCE_IS_LINKED (s_state si) && pa_cvolume_valid v) then Abort
      else
        let vol := pa_cvolume_remap v cm (channel_map si) in
        let changed := negb (pa_cvolume_equal vol (reference_volume (sv st s))) in
        let st := set_sv st s (with_reference_volume
                                 vol (negb changed && save_volume (sv st s) || save)) in
        if negb changed && negb (share_volume_with_master si) then Done (st, false)
        else
          let st := if changed then post st (Subscription_source_change (s_index si)) else st in
          st ← for_each (fun st o =>
                           oi ← of_option (source_outputs g !! o);
                           d ← sharing_destination oi;
                           match d with
                           | Some d => fst <$> update_reference_volume fuel st d v cm false
                           | None => Done st
                           end)
                        st (outputs si);
          Done (st, true)
  end.

(** The end of [pa_source_set_volume]: the soft volume of the root and the
    message to the IO thread. *)
Definition finish_set_volume (st : state) (root_source : nat) (ri : source_info)
    (send_msg : bool) : state :=
  let st :=
    if has_set_volume ri then
      let st := set_sv st root_source
                       (with_soft_volume (pa_cvolume_reset (s_channels ri))) in
      if negb (deferred_volume ri) then
        post (set_sv st root_source
                     (with_soft_volume (set_volume_cb ri (sv st root_source))))
             (Call_set_volume root_source)
      else st
    else
      set_sv st root_source (with_soft_volume (real_volume (sv st root_source))) in
  if send_msg then post st (Msg_set_shared_volume root_source) else st.

(** [pa_source_set_volume (s, volume, send_msg, save)]; [volume = None] is
    the NULL pointer. *)
Definition pa_source_set_volume (fuel : nat) (st : state) (s : nat)
    (vol : option pa_cvolume) (send_msg save : bool) : outcome state :=
  si ← of_option (sources g !! s);
  if negb (PA_SOURCE_IS_LINKED (s_state si)) then Abort
  else if negb (from_option pa_cvolume_valid true vol) then Abort
  else
  flat ← (if bool_decide (is_Some vol) then Done true else pa_source_flat_volume_enabled s);
  if negb (flat : bool) then Abort
  else if negb (from_option (fun v => (length v =? 1)%nat || (length v =? s_channels si)%nat)
                            true vol) then Abort
  else if pa_source_is_passthrough si
          && from_option (fun v => negb (pa_cvolume_is_norm v)) true vol then
    Done (post st Log_warn_passthrough)
  else
    root ← pa_source_get_master s;
    match root with
    | None => Done st
    | Some root_source =>
        ri ← of_option (sources g !! root_source);
        st ← match vol with
             | Some v =>
                 let new_reference_volume :=
                   if (length v =? s_channels si)%nat then v
                   else pa_cvolume_scale (reference_volume (sv st s)) (pa_cvolume_max v) in
                 let new_reference_volume :=
                   pa_cvolume_remap new_reference_volume (channel_map si) (channel_map ri) in
                 r ← update_reference_volume fuel st root_source new_reference_volume
                                             (channel_map ri) save;
                 let '(st, changed) := r in
                 if (changed : bool) then
                   root_flat ← pa_source_flat_volume_enabled root_source;
                   if (root_flat : bool) then
                     st ← propagate_reference_volume fuel st root_source;
                     compute_real_volume fuel st root_source
                   else
                     update_real_volume fuel st root_source
                                        (Reference_volume_of root_source) (channel_map ri)
                 else Done st
             | None =>
                 root_flat ← pa_source_flat_volume_enabled root_source;
                 if negb (root_flat : bool) then Abort
                 else
                   st ← compute_real_volume fuel st root_source;
                   let new_reference_volume :=
                     pa_cvolume_merge (reference_volume (sv st s))
                                      (real_volume (sv st root_source)) in
                   let new_reference_volume :=
                     if negb (bool_decide (s = root_source))
                        && negb (bool_decide (channel_map si = channel_map ri))
                     then pa_cvolume_remap new_reference_volume (channel_map si) (channel_map ri)
                     else new_reference_volume in
                   r ← update_reference_volume fuel st root_source new_reference_volume
                                               (channel_map ri) save;
                   compute_reference_ratios fuel (fst r) root_source
             end;
        Done (finish_set_volume st root_source ri send_msg)
    end.

(** *** The maximum of the stream volumes, in the words of the specification *)

(** The attached streams that have a volume of their own: the outputs of
    [s] and, in place of an output that feeds a filter source sharing the
    volume, the streams of that filter source. *)
Fixpoint attached_streams (fuel : nat) (s : nat) : outcome (list nat) :=
  match fuel with
  | O => OutOfFuel
  | S fuel =>
      si ← of_option (sources g !! s);
      for_each (fun acc o =>
                  oi ← of_option (source_outputs g !! o);
                  d ← sharing_destination oi;
                  match d with
                  | Some d => l ← attached_streams fuel d; Done (acc ++ l)
                  | None => Done (acc ++ [o])
                  end)
               [] (outputs si)
  end.

(** The channelwise maximum over the streams [os] of the stream's volume
    remapped, with minimum impact, to the channel map [cm]; the template of
    the remapping is the maximum so far, which starts at [start]. *)
Definition merge_streams (st : state) (cm : pa_channel_map) (start : pa_cvolume)
    (os : list nat) : outcome pa_cvolume :=
  for_each (fun acc o =>
              oi ← of_option (source_outputs g !! o);
              remapped ← cvolume_remap_minimal_impact (volume (ov st o)) acc
                                                      (o_channel_map oi) cm;
              Done (pa_cvolume_merge acc remapped))
           start os.

Definition maximum_stream_volume (st : state) (cm : pa_channel_map) (os : list nat)
  : outcome pa_cvolume :=
  merge_streams st cm (pa_cvolume_mute (length cm)) os.

(** An output is plain when its volume is its own: it does not feed a
    filter source that shares the volume of its master. *)
Definition plain (o : nat) : Prop :=
  exists oi, source_outputs g !! o = Some oi /\ sharing_destination oi = Done None.

(** The depth of the sharing tree below a source is at most [n]. *)
Inductive tree_depth : nat -> nat -> Prop :=
| tree_depth_node (n : nat) (s : nat) :
    (forall si o oi d,
        sources g !! s = Some si -> o ∈ outputs si ->
        source_outputs g !! o = Some oi ->
        sharing_destination oi = Done (Some d) ->
        tree_depth n d) ->
    tree_depth (S n) s.

(** *** What the functions leave alone *)

Lemma for_each_preserves {A B : Type} (R : B -> B -> Prop) (f : B -> A -> outcome B)
    (l : list A) :
  (forall b, R b b) ->
  (forall a b c, R a b -> R b c -> R a c) ->
  (forall b a b', a ∈ l -> f b a = Done b' -> R b b') ->
  forall b b', for_each f b l = Done b' -> R b b'.
Proof.
  intros Hrefl Htrans. induction l as [|a l IH]; simpl; intros Hstep b b' H.
  - injection H as <-. apply Hrefl.
  - destruct (f b a) as [b1| |] eqn:Hf; simpl in H; try discriminate.
    apply (Htrans _ b1).
    + apply (Hstep b a b1); [apply elem_of_cons; auto | exact Hf].
    + apply IH; [|exact H]. intros b0 a0 b0' Hin. apply Hstep. apply elem_of_cons. auto.
Qed.

(** The volumes of all sources and the [volume] of all streams are as
    before. *)
Definition same_volumes (st st' : state) : Prop :=
  (forall x, sv st' x = sv st x) /\ (forall o, volume (ov st' o) = volume (ov st o)).

(** The sources that do not share their volume, the reference volumes of
    all sources and the [volume] of the plain streams are as before. *)
Definition same_plain (st st' : state) : Prop :=
  (forall x xi, sources g !! x = Some xi -> share_volume_with_master xi = false ->
                sv st' x = sv st x)
  /\ (forall x, reference_volume (sv st' x) = reference_volume (sv st x))
  /\ (forall o, plain o -> volume (ov st' o) = volume (ov st o)).

(** The sources that do not share their volume, the real volumes of all
    sources and all streams are as before. *)
Definition same_real (st st' : state) : Prop :=
  (forall x xi, sources g !! x = Some xi -> share_volume_with_master xi = false ->
                sv st' x = sv st x)
  /\ (forall x, real_volume (sv st' x) = real_volume (sv st x))
  /\ (forall o, ov st' o = ov st o).

Lemma same_volumes_refl (st : state) : same_volumes st st.
Proof. split; reflexivity. Qed.

Lemma same_volumes_trans (a b c : state) :
  same_volumes a b -> same_volumes b c -> same_volumes a c.
Proof.
  intros [H1 H2] [H3 H4]. split; intros x; [rewrite H3, H1 | rewrite H4, H2]; reflexivity.
Qed.

Lemma same_plain_refl (st : state) : same_plain st st.
Proof. repeat split; reflexivity. Qed.

Lemma same_plain_trans (a b c : state) :
  same_plain a b -> same_plain b c -> same_plain a c.
Proof.
  intros (H1 & H2 & H3) (H4 & H5 & H6). repeat split.
  - intros x xi Hx Hs. rewrite (H4 x xi Hx Hs). exact (H1 x xi Hx Hs).
  - intros x. rewrite H5. apply H2.
  - intros o Ho. rewrite (H6 o Ho). exact (H3 o Ho).
Qed.

Lemma same_real_refl (st : state) : same_real st st.
Proof. repeat split; reflexivity. Qed.

Lemma same_real_trans (a b c : state) :
  same_real a b -> same_real b c -> same_real a c.
Proof.
  intros (H1 & H2 & H3) (H4 & H5 & H6). repeat split.
  - intros x xi Hx Hs. rewrite (H4 x xi Hx Hs). exact (H1 x xi Hx Hs).
  - intros x. rewrite H5. apply H2.
  - intros o. rewrite H6. apply H3.
Qed.

Lemma same_volumes_plain (st st' : state) : same_volumes st st' -> same_plain st st'.
Proof.
  intros [H1 H2]. repeat split.
  - intros x _ _ _. apply H1.
  - intros x. rewrite H1. reflexivity.
  - intros o _. apply H2.
Qed.

Lemma same_volumes_post (st : state) (e : event) : same_volumes st (post st e).
Proof. split; reflexivity. Qed.

(** Writing a ratio or a soft volume of a stream. *)
Lemma same_volumes_set_ov (st : state) (o : nat) (f : output_volumes -> output_volumes) :
  (forall x, volume (f x) = volume x) -> same_volumes st (set_ov st o f).
Proof.
  intros Hf. split; [reflexivity|]. intros o'. simpl.
  destruct (decide (o' = o)); [apply Hf | reflexivity].
Qed.

(** A source with the flag is no source without it. *)
Lemma sharing_destination_shares (oi : output_info) (d : nat) :
  sharing_destination oi = Done (Some d) ->
  exists di, sources g !! d = Some di /\ share_volume_with_master di = true.
Proof.
  unfold sharing_destination. destruct (destination_source oi) as [d'|]; [|discriminate].
  destruct (sources g !! d') as [di|] eqn:Hd; simpl; [|discriminate].
  destruct (share_volume_with_master di) eqn:Hs; intros [= <-]. eauto.
Qed.

Lemma not_plain_of_sharing (o : nat) (oi : output_info) (d : nat) :
  source_outputs g !! o = Some oi ->
  sharing_destination oi = Done (Some d) ->
  ~ plain o.
Proof. intros Ho Hd (oi' & Ho' & Hp). congruence. Qed.

Lemma compute_reference_ratio_frame (st st' : state) (o : nat) :
  compute_reference_ratio st o = Done st' -> same_volumes st st'.
Proof.
  unfold compute_reference_ratio.
  destruct (source_outputs g !! o) as [oi|]; simpl; [|discriminate].
  destruct (o_source oi) as [s|]; simpl; [|discriminate].
  destruct (sources g !! s) as [si|]; simpl; [|discriminate].
  destruct (pa_source_flat_volume_enabled s) as [[|]| |]; simpl; try discriminate.
  intros [= <-]. apply same_volumes_set_ov. reflexivity.
Qed.

Lemma compute_reference_ratios_frame (fuel : nat) :
  forall st s st', compute_reference_ratios fuel st s = Done st' -> same_volumes st st'.
Proof.
  induction fuel as [|fuel IH]; simpl; intros st s st'; [discriminate|].
  destruct (assert_linked_flat s) as [si| |]; simpl; try discriminate.
  apply for_each_preserves; [apply same_volumes_refl | apply same_volumes_trans |].
  intros b o b' _.
  destruct (compute_reference_ratio b o) as [b1| |] eqn:Hr; simpl; try discriminate.
  apply compute_reference_ratio_frame in Hr.
  destruct (source_outputs g !! o) as [oi|]; simpl; [|discriminate].
  destruct (sharing_destination oi) as [[d|]| |]; simpl; try discriminate.
  - intros H. apply IH in H. eapply same_volumes_trans; eassumption.
  - intros [= <-]. exact Hr.
Qed.

Lemma compute_real_ratios_frame (fuel : nat) :
  forall st s st', compute_real_ratios fuel st s = Done st' -> same_volumes st st'.
Proof.
  induction fuel as [|fuel IH]; simpl; intros st s st'; [discriminate|].
  destruct (assert_linked_flat s) as [si| |]; simpl; try discriminate.
  apply for_each_preserves; [apply same_volumes_refl | apply same_volumes_trans |].
  intros b o b' _.
  destruct (source_outputs g !! o) as [oi|]; simpl; [|discriminate].
  destruct (sharing_destination oi) as [[d|]| |]; simpl; try discriminate.
  - intros H. apply IH in H.
    eapply same_volumes_trans; [|exact H]. apply same_volumes_set_ov. reflexivity.
  - unfold real_ratio_of. intros [= <-]. apply same_volumes_set_ov. reflexivity.
Qed.

Lemma same_plain_set_ov (st : state) (o : nat) (f : output_volumes -> output_volumes) :
  ~ plain o -> same_plain st (set_ov st o f).
Proof.
  intros Hn. repeat split. intros o' Hp. simpl.
  destruct (decide (o' = o)) as [->|]; [contradiction | reflexivity].
Qed.

Lemma same_plain_set_sv (st : state) (d : nat) (di : source_info)
    (f : source_volumes -> source_volumes) :
  sources g !! d = Some di -> share_volume_with_master di = true ->
  (forall x, reference_volume (f x) = reference_volume x) ->
  same_plain st (set_sv st d f).
Proof.
  intros Hd Hs Hf. repeat split.
  - intros x xi Hx Hxs. simpl. destruct (decide (x = d)) as [->|]; [congruence | reflexivity].
  - intros x. simpl. destruct (decide (x = d)); [apply Hf | reflexivity].
Qed.

Lemma same_plain_post (st : state) (e : event) : same_plain st (post st e).
Proof. repeat split; reflexivity. Qed.

(** Below the root [update_real_volume] writes the real volume of filter
    sources and the volume of the streams that feed them. *)
Lemma update_real_volume_sharing (fuel : nat) :
  forall st d nv cm st' di,
    sources g !! d = Some di -> share_volume_with_master di = true ->
    update_real_volume fuel st d nv cm = Done st' ->
    same_plain st st'.
Proof.
  induction fuel as [|fuel IH]; simpl; intros st d nv cm st' di Hd Hs; [discriminate|].
  rewrite Hd. simpl. intros H.
  apply (same_plain_trans st
           (set_sv st d (with_real_volume
                           (pa_cvolume_remap (deref st nv) cm (channel_map di))))).
  { apply (same_plain_set_sv st d di); auto. }
  revert H. apply for_each_preserves; [apply same_plain_refl | apply same_plain_trans |].
  intros b o b' _.
  destruct (source_outputs g !! o) as [oi|] eqn:Ho; simpl; [|discriminate].
  destruct (sharing_destination oi) as [[d'|]| |] eqn:Hsd; simpl; try discriminate.
  - destruct (sharing_destination_shares oi d' Hsd) as (di' & Hd' & Hs').
    pose proof (not_plain_of_sharing o oi d' Ho Hsd) as Hnp.
    destruct (pa_source_flat_volume_enabled d) as [flat| |]; simpl; try discriminate.
    destruct flat.
    + destruct (compute_reference_ratio _ o) as [b1| |] eqn:Hr; simpl; try discriminate.
      apply compute_reference_ratio_frame, same_volumes_plain in Hr.
      assert (Hb1 : same_plain b b1).
      { eapply same_plain_trans; [apply same_plain_set_ov; exact Hnp | exact Hr]. }
      destruct (negb (pa_cvolume_equal _ _)); simpl.
      * intros H. apply (IH _ _ _ _ _ di' Hd' Hs') in H.
        eapply same_plain_trans; [|exact H].
        eapply same_plain_trans; [exact Hb1|].
        destruct (has_volume_changed oi);
          [eapply same_plain_trans; apply same_plain_post | apply same_plain_post].
      * intros H. apply (IH _ _ _ _ _ di' Hd' Hs') in H.
        eapply same_plain_trans; eassumption.
    + simpl. apply (IH _ _ _ _ _ di' Hd' Hs').
  - intros [= <-]. apply same_plain_refl.
Qed.

(** On a source that does not share its volume [update_real_volume] sets
    the real volume to the given one, remapped to the source. *)
Lemma update_real_volume_root (fuel : nat) (st : state) (s : nat) (si : source_info)
    (nv : volume_ref) (cm : pa_channel_map) (st' : state) :
  sources g !! s = Some si -> share_volume_with_master si = false ->
  update_real_volume fuel st s nv cm = Done st' ->
  real_volume (sv st' s) = pa_cvolume_remap (deref st nv) cm (channel_map si)
  /\ (forall x, reference_volume (sv st' x) = reference_volume (sv st x))
  /\ (forall o, plain o -> volume (ov st' o) = volume (ov st o)).
Proof.
  intros Hs Hns. destruct fuel as [|fuel]; simpl; [discriminate|].
  rewrite Hs. simpl. intros H.
  set (st1 := set_sv st s (with_real_volume
                             (pa_cvolume_remap (deref st nv) cm (channel_map si)))) in *.
  assert (Hloop : same_plain st1 st').
  { revert H. apply for_each_preserves; [apply same_plain_refl | apply same_plain_trans |].
    intros b o b' _.
    destruct (source_outputs g !! o) as [oi|] eqn:Ho; simpl; [|discriminate].
    destruct (sharing_destination oi) as [[d'|]| |] eqn:Hsd; simpl; try discriminate.
    - destruct (sharing_destination_shares oi d' Hsd) as (di' & Hd' & Hs').
      pose proof (not_plain_of_sharing o oi d' Ho Hsd) as Hnp.
      destruct (pa_source_flat_volume_enabled s) as [flat| |]; simpl; try discriminate.
      destruct flat.
      + destruct (compute_reference_ratio _ o) as [b1| |] eqn:Hr; simpl; try discriminate.
        apply compute_reference_ratio_frame, same_volumes_plain in Hr.
        assert (Hb1 : same_plain b b1).
        { eapply same_plain_trans; [apply same_plain_set_ov; exact Hnp | exact Hr]. }
        destruct (negb (pa_cvolume_equal _ _)); simpl.
        * intros H. apply (update_real_volume_sharing _ _ _ _ _ _ di' Hd' Hs') in H.
          eapply same_plain_trans; [|exact H].
          eapply same_plain_trans; [exact Hb1|].
          destruct (has_volume_changed oi);
            [eapply same_plain_trans; apply same_plain_post | apply same_plain_post].
        * intros H. apply (update_real_volume_sharing _ _ _ _ _ _ di' Hd' Hs') in H.
          eapply same_plain_trans; eassumption.
      + simpl. apply (update_real_volume_sharing _ _ _ _ _ _ di' Hd' Hs').
    - intros [= <-]. apply same_plain_refl. }
  destruct Hloop as (H1 & H2 & H3).
  split; [|split].
  - rewrite (H1 s si Hs Hns). subst st1. simpl.
    destruct (decide (s = s)); [reflexivity | congruence].
  - intros x. rewrite H2. subst st1. simpl. destruct (decide (x = s)); reflexivity.
  - intros o Ho. rewrite (H3 o Ho). reflexivity.
Qed.

Lemma same_real_set_sv (st : state) (d : nat) (di : source_info)
    (f : source_volumes -> source_volumes) :
  sources g !! d = Some di -> share_volume_with_master di = true ->
  (forall x, real_volume (f x) = real_volume x) ->
  same_real st (set_sv st d f).
Proof.
  intros Hd Hs Hf. repeat split.
  - intros x xi Hx Hxs. simpl. destruct (decide (x = d)) as [->|]; [congruence | reflexivity].
  - intros x. simpl. destruct (decide (x = d)); [apply Hf | reflexivity].
Qed.

Lemma same_real_post (st : state) (e : event) : same_real st (post st e).
Proof. repeat split; reflexivity. Qed.

(** The loop of [update_reference_volume] over the outputs, given what the
    recursive calls do. *)
Lemma update_reference_volume_loop (fuel : nat) (v : pa_cvolume) (cm : pa_channel_map)
    (os : list nat) :
  (forall st d st' b di,
      sources g !! d = Some di -> share_volume_with_master di = true ->
      update_reference_volume fuel st d v cm false = Done (st', b) -> same_real st st') ->
  forall st st',
    for_each (fun st o =>
                oi ← of_option (source_outputs g !! o);
                d ← sharing_destination oi;
                match d with
                | Some d => fst <$> update_reference_volume fuel st d v cm false
                | None => Done st
                end) st os = Done st' ->
    same_real st st'.
Proof.
  intros Hrec. apply for_each_preserves; [apply same_real_refl | apply same_real_trans |].
  intros b o b' _.
  destruct (source_outputs g !! o) as [oi|] eqn:Ho; simpl; [|discriminate].
  destruct (sharing_destination oi) as [[d'|]| |] eqn:Hsd; simpl; try discriminate.
  - destruct (sharing_destination_shares oi d' Hsd) as (di' & Hd' & Hs').
    destruct (update_reference_volume fuel b d' v cm false) as [[b1 r]| |] eqn:Hu;
      simpl; try discriminate.
    intros [= <-]. exact (Hrec _ _ _ _ _ Hd' Hs' Hu).
  - intros [= <-]. apply same_real_refl.
Qed.

(** Below the root [update_reference_volume] writes the reference volume
    and the save flag of filter sources. *)
Lemma update_reference_volume_sharing (fuel : nat) (v : pa_cvolume) (cm : pa_channel_map) :
  forall st d save st' b di,
    sources g !! d = Some di -> share_volume_with_master di = true ->
    update_reference_volume fuel st d v cm save = Done (st', b) ->
    same_real st st'.
Proof.
  induction fuel as [|fuel IH]; simpl; intros st d save st' b di Hd Hs; [discriminate|].
  rewrite Hd. simpl. rewrite Hs.
  destruct (negb (PA_SOURCE_IS_LINKED (s_state di) && pa_cvolume_valid v)); [discriminate|].
  rewrite andb_false_r.
  match goal with
  | |- context [for_each ?f ?b0 ?l] => destruct (for_each f b0 l) as [st2| |] eqn:Hloop
  end; simpl; try discriminate.
  intros [= <- <-].
  apply update_reference_volume_loop in Hloop; [|intros; eapply IH; eassumption].
  eapply same_real_trans; [|exact Hloop].
  match goal with
  | |- same_real st (if ?c then post ?x ?e else ?x) =>
      apply (same_real_trans st x);
        [apply (same_real_set_sv st d di); auto
        | destruct c; [apply same_real_post | apply same_real_refl]]
  end.
Qed.

(** On a source that does not share its volume [update_reference_volume]
    sets the reference volume to the given one, remapped to the source, and
    reports whether that is a change. *)
Lemma update_reference_volume_root (fuel : nat) (st : state) (s : nat) (si : source_info)
    (v : pa_cvolume) (cm : pa_channel_map) (save : bool) (st' : state) (b : bool) :
  sources g !! s = Some si -> share_volume_with_master si = false ->
  update_reference_volume fuel st s v cm save = Done (st', b) ->
  reference_volume (sv st' s) = pa_cvolume_remap v cm (channel_map si)
  /\ b = negb (pa_cvolume_equal (pa_cvolume_remap v cm (channel_map si))
                                (reference_volume (sv st s)))
  /\ (forall x, real_volume (sv st' x) = real_volume (sv st x))
  /\ (forall o, ov st' o = ov st o).
Proof.
  intros Hs Hns. destruct fuel as [|fuel]; simpl; [discriminate|].
  rewrite Hs. simpl. rewrite Hns.
  destruct (negb (PA_SOURCE_IS_LINKED (s_state si) && pa_cvolume_valid v)); [discriminate|].
  rewrite andb_true_r.
  set (vol := pa_cvolume_remap v cm (channel_map si)).
  destruct (pa_cvolume_equal vol (reference_volume (sv st s))) eqn:Heq; simpl.
  - intros [= <- <-]. simpl. destruct (decide (s = s)); [|congruence].
    repeat split. intros x. destruct (decide (x = s)); reflexivity.
  - match goal with
    | |- context [for_each ?f ?b0 ?l] => destruct (for_each f b0 l) as [st2| |] eqn:Hloop
    end; simpl; try discriminate.
    intros [= <- <-].
    apply update_reference_volume_loop in Hloop;
      [|intros; eapply update_reference_volume_sharing; eassumption].
    destruct Hloop as (H1 & H2 & H3).
    split; [|split; [reflexivity|split]].
    + rewrite (H1 s si Hs Hns). simpl. destruct (decide (s = s)); [reflexivity | congruence].
    + intros x. rewrite H2. simpl. destruct (decide (x = s)); reflexivity.
    + intros o. rewrite H3. reflexivity.
Qed.

(** *** The maximum that [get_maximum_output_volume] computes *)

Lemma for_each_app {A B : Type} (f : B -> A -> outcome B) (l1 l2 : list A) :
  forall b, for_each f b (l1 ++ l2) = (b' ← for_each f b l1; for_each f b' l2).
Proof.
  induction l1 as [|a l1 IH]; simpl; intros b; [reflexivity|].
  destruct (f b a); simpl; auto.
Qed.

(** The maximum reads the [volume] of the streams it is taken over and
    nothing else of the state. *)
Lemma merge_streams_ext (st st' : state) (cm : pa_channel_map) (os : list nat) :
  (forall o, o ∈ os -> volume (ov st' o) = volume (ov st o)) ->
  forall start, merge_streams st' cm start os = merge_streams st cm start os.
Proof.
  unfold merge_streams. induction os as [|o os IH]; simpl; intros Hv start; [reflexivity|].
  rewrite (Hv o) by (apply elem_of_cons; auto).
  destruct (of_option (source_outputs g !! o)) as [oi| |]; simpl; auto.
  destruct (cvolume_remap_minimal_impact _ _ _ _); simpl; auto.
  apply IH. intros o' Ho'. apply Hv. apply elem_of_cons. auto.
Qed.

Lemma get_maximum_loop (fuel : nat) (acc : nat) (cm : pa_channel_map) (l : list nat) :
  (forall st d st',
      get_maximum_output_volume fuel st d acc cm = Done st' ->
      exists os, attached_streams fuel d = Done os /\ Forall plain os
                 /\ merge_streams st cm (real_volume (sv st acc)) os
                    = Done (real_volume (sv st' acc))
                 /\ (forall o, ov st' o = ov st o)) ->
  forall st st' pre,
    for_each (fun st o =>
                oi ← of_option (source_outputs g !! o);
                d ← sharing_destination oi;
                match d with
                | Some d => get_maximum_output_volume fuel st d acc cm
                | None =>
                    let max_volume := real_volume (sv st acc) in
                    remapped ← cvolume_remap_minimal_impact (volume (ov st o)) max_volume
                                                            (o_channel_map oi) cm;
                    Done (set_sv st acc
                            (with_real_volume (pa_cvolume_merge max_volume remapped)))
                end) st l = Done st' ->
    exists os,
      for_each (fun acc o =>
                  oi ← of_option (source_outputs g !! o);
                  d ← sharing_destination oi;
                  match d with
                  | Some d => l ← attached_streams fuel d; Done (acc ++ l)
                  | None => Done (acc ++ [o])
                  end) pre l = Done (pre ++ os)
      /\ Forall plain os
      /\ merge_streams st cm (real_volume (sv st acc)) os = Done (real_volume (sv st' acc))
      /\ (forall o, ov st' o = ov st o).
Proof.
  intros Hrec. induction l as [|o l IH]; simpl; intros st st' pre H.
  - injection H as <-. exists []. rewrite app_nil_r. repeat split; auto.
  - destruct (source_outputs g !! o) as [oi|] eqn:Ho; simpl in *; [|discriminate].
    destruct (sharing_destination oi) as [[d|]| |] eqn:Hsd; simpl in *; try discriminate.
    + destruct (get_maximum_output_volume fuel st d acc cm) as [st1| |] eqn:Hg;
        simpl in H; try discriminate.
      destruct (Hrec _ _ _ Hg) as (os1 & Hat & Hpl & Hm & Hov).
      rewrite Hat. simpl.
      destruct (IH _ _ (pre ++ os1) H) as (os2 & Hat2 & Hpl2 & Hm2 & Hov2).
      exists (os1 ++ os2). rewrite Hat2, app_assoc. split; [reflexivity|].
      split; [apply Forall_app; auto|]. split.
      * unfold merge_streams in *. rewrite for_each_app, Hm. simpl.
        rewrite <- Hm2. symmetry.
        apply (merge_streams_ext st st1 cm os2). intros o' _. rewrite Hov. reflexivity.
      * intros o'. rewrite Hov2, Hov. reflexivity.
    + destruct (cvolume_remap_minimal_impact (volume (ov st o)) (real_volume (sv st acc))
                                             (o_channel_map oi) cm) as [r| |] eqn:Hr;
        simpl in H; try discriminate.
      destruct (IH _ _ (pre ++ [o]) H) as (os2 & Hat2 & Hpl2 & Hm2 & Hov2).
      exists (o :: os2). rewrite Hat2, <- app_assoc. simpl. split; [reflexivity|].
      split; [constructor; [exists oi; auto | exact Hpl2]|]. split.
      * unfold merge_streams in *. simpl. rewrite Ho. simpl. rewrite Hr. simpl.
        rewrite <- Hm2. simpl. destruct (decide (acc = acc)); [|congruence]. simpl.
        symmetry.
        apply (merge_streams_ext st _ cm os2). intros o' _. reflexivity.
      * intros o'. rewrite Hov2. reflexivity.
Qed.

(** [get_maximum_output_volume] writes the real volume of the accumulator
    only. *)
Lemma get_maximum_loop_reference (fuel : nat) (acc : nat) (cm : pa_channel_map) :
  forall st s st',
    get_maximum_output_volume fuel st s acc cm = Done st' ->
    forall x, reference_volume (sv st' x) = reference_volume (sv st x).
Proof.
  induction fuel as [|fuel IH]; simpl; intros st s st'; [discriminate|].
  destruct (sources g !! s) as [si|]; simpl; [|discriminate].
  destruct (pa_source_flat_volume_enabled s) as [[|]| |]; simpl; try discriminate.
  apply (for_each_preserves
           (fun a b => forall x, reference_volume (sv b x) = reference_volume (sv a x))).
  - reflexivity.
  - intros a b c H1 H2 x. rewrite H2. apply H1.
  - intros b o b' _.
    destruct (source_outputs g !! o) as [oi|]; simpl; [|discriminate].
    destruct (sharing_destination oi) as [[d|]| |]; simpl; try discriminate.
    + apply IH.
    + destruct (cvolume_remap_minimal_impact _ _ _ _); simpl; try discriminate.
      intros [= <-] x. simpl. destruct (decide (x = acc)); reflexivity.
Qed.

(** [get_maximum_output_volume] leaves in the accumulator the maximum over
    the attached streams, started from what the accumulator held, and
    writes nothing else. *)
Lemma get_maximum_spec (fuel : nat) (acc : nat) (cm : pa_channel_map) :
  forall st s st',
    get_maximum_output_volume fuel st s acc cm = Done st' ->
    exists os, attached_streams fuel s = Done os /\ Forall plain os
               /\ merge_streams st cm (real_volume (sv st acc)) os
                  = Done (real_volume (sv st' acc))
               /\ (forall o, ov st' o = ov st o).
Proof.
  induction fuel as [|fuel IH]; simpl; intros st s st'; [discriminate|].
  destruct (sources g !! s) as [si|]; simpl; [|discriminate].
  destruct (pa_source_flat_volume_enabled s) as [[|]| |]; simpl; try discriminate.
  intros H. destruct (get_maximum_loop fuel acc cm (outputs si) IH st st' [] H)
    as (os & Hat & Hrest).
  exists os. split; [exact Hat | exact Hrest].
Qed.

(** *** The real volume after [pa_source_set_volume] *)

(** [pa_cvolume_remap] returns the volume as it is when the two channel
    maps are equal. *)
Hypothesis pa_cvolume_remap_same : forall v m, pa_cvolume_remap v m m = v.

Lemma pa_cvolume_merge_same (v : pa_cvolume) : pa_cvolume_merge v v = v.
Proof.
  unfold pa_cvolume_merge. induction v as [|x v IH]; simpl; [reflexivity|].
  rewrite IH, Z.max_id. reflexivity.
Qed.

Lemma first_hit_found {A : Type} (f : A -> outcome bool) (l : list A) (b : bool) (a : A) :
  first_hit f l = Done b -> a ∈ l -> f a = Done true -> b = true.
Proof.
  induction l as [|x l IH]; simpl; intros H Hin Ha; [inversion Hin|].
  destruct (f x) as [[|]| |] eqn:Hx; simpl in H; try discriminate.
  - injection H as <-. reflexivity.
  - apply elem_of_cons in Hin as [->|Hin]; [congruence | auto].
Qed.

(** A source with a plain output has outputs. *)
Lemma has_outputs_plain (fuel : nat) (s : nat) (si : source_info) (o : nat) (b : bool) :
  sources g !! s = Some si -> o ∈ outputs si -> plain o ->
  has_outputs fuel s = Done b -> b = true.
Proof.
  intros Hs Hin (oi & Ho & Hp). destruct fuel as [|fuel]; simpl; [discriminate|].
  rewrite Hs. simpl. intros H.
  apply (first_hit_found _ _ _ o H Hin). rewrite Ho. simpl. rewrite Hp. reflexivity.
Qed.

Lemma get_master_root (s : nat) (si : source_info) (r : option nat) :
  sources g !! s = Some si -> share_volume_with_master si = false ->
  pa_source_get_master s = Done r -> r = Some s.
Proof.
  intros Hs Hns. unfold pa_source_get_master. destruct master_fuel; simpl; [discriminate|].
  rewrite Hs. simpl. rewrite Hns. congruence.
Qed.

Lemma flat_volume_enabled_root (s : nat) (si : source_info) (b : bool) :
  sources g !! s = Some si -> share_volume_with_master si = false ->
  pa_source_flat_volume_enabled s = Done b -> b = flat_volume si.
Proof.
  intros Hs Hns. unfold pa_source_flat_volume_enabled.
  destruct (pa_source_get_master s) as [r| |] eqn:Hm; simpl; try discriminate.
  rewrite (get_master_root s si r Hs Hns Hm), Hs. simpl. congruence.
Qed.

(** The end of [pa_source_set_volume] writes soft volumes only. *)
Lemma finish_set_volume_frame (st : state) (r : nat) (ri : source_info) (send_msg : bool) :
  (forall x, real_volume (sv (finish_set_volume st r ri send_msg) x) = real_volume (sv st x))
  /\ (forall x, reference_volume (sv (finish_set_volume st r ri send_msg) x)
                = reference_volume (sv st x))
  /\ (forall o, ov (finish_set_volume st r ri send_msg) o = ov st o).
Proof.
  unfold finish_set_volume.
  destruct (has_set_volume ri), (deferred_volume ri), send_msg; simpl;
    repeat split; intros x; repeat case_decide; reflexivity.
Qed.

(** What [compute_real_volume] leaves in the real volume of a root: the
    reference volume when the tree has no stream, the maximum of the stream
    volumes, as they are afterwards, when it has. *)
Lemma compute_real_volume_spec (fuel : nat) (st : state) (s : nat) (si : source_info)
    (st' : state) :
  sources g !! s = Some si -> share_volume_with_master si = false ->
  compute_real_volume fuel st s = Done st' ->
  (forall x, reference_volume (sv st' x) = reference_volume (sv st x))
  /\ exists b,
       has_outputs fuel s = Done b
       /\ (b = false -> real_volume (sv st' s) = reference_volume (sv st s))
       /\ (b = true ->
           exists os,
             attached_streams fuel s = Done os /\ Forall plain os
             /\ maximum_stream_volume st' (channel_map si) os = Done (real_volume (sv st' s))).
Proof.
  intros Hs Hns. unfold compute_real_volume, assert_linked_flat. rewrite Hs. simpl.
  destruct (pa_source_flat_volume_enabled s) as [flat| |]; simpl; try discriminate.
  destruct (PA_SOURCE_IS_LINKED (s_state si) && flat); simpl; [|discriminate].
  rewrite Hns.
  destruct (has_outputs fuel s) as [[|]| |]; simpl; try discriminate.
  - destruct (get_maximum_output_volume fuel _ s s (channel_map si)) as [st1| |] eqn:Hg;
      simpl; try discriminate.
    destruct (update_real_volume fuel st1 s (Real_volume_of s) (channel_map si))
      as [st2| |] eqn:Hu; simpl; try discriminate.
    intros Hr. apply compute_real_ratios_frame in Hr as [Hsv Hov].
    destruct (get_maximum_spec _ _ _ _ _ _ Hg) as (os & Hat & Hpl & Hm & Hov1).
    destruct (update_real_volume_root _ _ _ _ _ _ _ Hs Hns Hu) as (Hreal & Href & Hpv).
    simpl in Hreal, Hm, Hov1. rewrite pa_cvolume_remap_same in Hreal.
    destruct (decide (s = s)) as [_|]; [|congruence]. simpl in Hm.
    split.
    + intros x. rewrite Hsv, Href, (get_maximum_loop_reference _ _ _ _ _ _ Hg x). simpl.
      destruct (decide (x = s)); reflexivity.
    + exists true. split; [reflexivity|]. split; [discriminate|]. intros _.
      exists os. split; [exact Hat|]. split; [exact Hpl|].
      unfold maximum_stream_volume. rewrite Hsv, Hreal, <- Hm.
      transitivity (merge_streams st (channel_map si)
                                  (pa_cvolume_mute (length (channel_map si))) os).
      * apply merge_streams_ext. intros o Ho. rewrite Hov.
        rewrite (Hpv o) by (rewrite Forall_forall in Hpl; apply Hpl; exact Ho).
        rewrite Hov1. reflexivity.
      * symmetry. apply merge_streams_ext. intros o _. reflexivity.
  - intros Hu.
    destruct (update_real_volume_root _ _ _ _ _ _ _ Hs Hns Hu) as (Hreal & Href & _).
    simpl in Hreal. rewrite pa_cvolume_remap_same in Hreal.
    split; [exact Href|]. exists false. split; [reflexivity|].
    split; [intros _; exact Hreal | discriminate].
Qed.

(** The reference volume a call with the volume [v] asks for on a root: [v]
    itself, or for a mono volume on a source with more channels the present
    reference volume scaled to it. *)
Definition requested_reference_volume (st : state) (s : nat) (si : source_info)
    (v : pa_cvolume) : pa_cvolume :=
  if (length v =? s_channels si)%nat then v
  else pa_cvolume_scale (reference_volume (sv st s)) (pa_cvolume_max v).

Lemma has_outputs_none (fuel : nat) (s : nat) (si : source_info) (b : bool) :
  sources g !! s = Some si -> outputs si = [] -> has_outputs fuel s = Done b -> b = false.
Proof.
  intros Hs He. destruct fuel as [|fuel]; simpl; [discriminate|].
  rewrite Hs. simpl. rewrite He. simpl. congruence.
Qed.

Lemma maximum_stream_volume_ext (st st' : state) (cm : pa_channel_map) (os : list nat) :
  (forall o, volume (ov st' o) = volume (ov st o)) ->
  maximum_stream_volume st' cm os = maximum_stream_volume st cm os.
Proof. intros H. apply merge_streams_ext. intros o _. apply H. Qed.

(** C1 (amended). Let [s] be its own volume-sharing root with flat volume,
    and let a call of [pa_source_set_volume] on it complete that is not
    refused for passthrough and that either synchronises with the streams
    (no volume given) or changes the reference volume.  Then, if [s] has an
    attached stream with a volume of its own, the real volume of [s] is the
    channelwise maximum over the attached streams of the stream's volume,
    as it is after the call, remapped with minimum impact to the channel map
    of [s]; and if [s] has no outputs, its real volume equals its reference
    volume. *)
Theorem set_volume_real_volume_is_maximum
    (fuel : nat) (st : state) (s : nat) (si : source_info)
    (vol : option pa_cvolume) (send_msg save : bool) (st' : state) :
  sources g !! s = Some si ->
  share_volume_with_master si = false ->
  flat_volume si = true ->
  pa_source_is_passthrough si
  && from_option (fun v => negb (pa_cvolume_is_norm v)) true vol = false ->
  (forall v, vol = Some v ->
             requested_reference_volume st s si v <> reference_volume (sv st s)) ->
  pa_source_set_volume fuel st s vol send_msg save = Done st' ->
  (forall o, o ∈ outputs si -> plain o ->
     exists os,
       attached_streams fuel s = Done os /\ Forall plain os
       /\ maximum_stream_volume st' (channel_map si) os = Done (real_volume (sv st' s)))
  /\ (outputs si = [] -> real_volume (sv st' s) = reference_volume (sv st' s)).
Proof.
  intros Hs Hns Hflat Hpass Hchg. unfold pa_source_set_volume. rewrite Hs. simpl.
  destruct (negb (PA_SOURCE_IS_LINKED (s_state si))); [discriminate|].
  destruct (negb (from_option pa_cvolume_valid true vol)); [discriminate|].
  destruct (if bool_decide (is_Some vol) then Done true
            else pa_source_flat_volume_enabled s) as [[|]| |]; simpl; try discriminate.
  match goal with |- context [negb ?b] => destruct (negb b) end; [discriminate|].
  rewrite Hpass.
  destruct (pa_source_get_master s) as [r| |] eqn:Hm; simpl; try discriminate.
  rewrite (get_master_root s si r Hs Hns Hm), Hs. simpl.
  destruct vol as [v|].
  - (* a volume is given and the reference volume changes *)
    specialize (Hchg v eq_refl). unfold requested_reference_volume in Hchg.
    rewrite pa_cvolume_remap_same.
    destruct (update_reference_volume fuel st s _ (channel_map si) save)
      as [[st1 changed]| |] eqn:Hu; simpl; try discriminate.
    destruct (update_reference_volume_root _ _ _ _ _ _ _ _ _ Hs Hns Hu) as (_ & Hb & _ & _).
    rewrite pa_cvolume_remap_same in Hb.
    unfold pa_cvolume_equal in Hb. rewrite (bool_decide_eq_false_2 _ Hchg) in Hb.
    subst changed. simpl.
    destruct (pa_source_flat_volume_enabled s) as [flat| |] eqn:Hfe; simpl; try discriminate.
    rewrite (flat_volume_enabled_root s si flat Hs Hns Hfe), Hflat.
    destruct (propagate_reference_volume fuel st1 s) as [st2| |]; simpl; try discriminate.
    destruct (compute_real_volume fuel st2 s) as [st3| |] eqn:Hc; simpl; try discriminate.
    intros [= <-].
    destruct (compute_real_volume_spec _ _ _ _ _ Hs Hns Hc) as (Href & b & Hho & Hno & Hyes).
    destruct (finish_set_volume_frame st3 s si send_msg) as (Hfr & Hfref & Hfov).
    split.
    + intros o Hin Hp. rewrite (has_outputs_plain _ _ _ _ _ Hs Hin Hp Hho) in Hyes.
      destruct (Hyes eq_refl) as (os & Hat & Hpl & Hmax).
      exists os. split; [exact Hat|]. split; [exact Hpl|].
      rewrite Hfr, <- Hmax. apply maximum_stream_volume_ext.
      intros o'. rewrite Hfov. reflexivity.
    + intros He. rewrite Hfr, Hfref, Href.
      apply Hno. exact (has_outputs_none _ _ _ _ Hs He Hho).
  - (* no volume: synchronise with the streams *)
    destruct (pa_source_flat_volume_enabled s) as [flat| |] eqn:Hfe; simpl; try discriminate.
    destruct flat; simpl; [|discriminate].
    destruct (compute_real_volume fuel st s) as [st1| |] eqn:Hc; simpl; try discriminate.
    rewrite (bool_decide_eq_true_2 (s = s) eq_refl). simpl.
    destruct (update_reference_volume fuel st1 s _ (channel_map si) save)
      as [[st2 changed]| |] eqn:Hu; simpl; try discriminate.
    destruct (compute_reference_ratios fuel st2 s) as [st3| |] eqn:Hr; simpl;
      try discriminate.
    intros [= <-].
    destruct (compute_real_volume_spec _ _ _ _ _ Hs Hns Hc) as (Href & b & Hho & Hno & Hyes).
    destruct (update_reference_volume_root _ _ _ _ _ _ _ _ _ Hs Hns Hu)
      as (Hnew & _ & Hreal2 & Hov2).
    rewrite pa_cvolume_remap_same in Hnew.
    apply compute_reference_ratios_frame in Hr as [Hsv3 Hov3].
    destruct (finish_set_volume_frame st3 s si send_msg) as (Hfr & Hfref & Hfov).
    split.
    + intros o Hin Hp. rewrite (has_outputs_plain _ _ _ _ _ Hs Hin Hp Hho) in Hyes.
      destruct (Hyes eq_refl) as (os & Hat & Hpl & Hmax).
      exists os. split; [exact Hat|]. split; [exact Hpl|].
      rewrite Hfr, Hsv3, Hreal2, <- Hmax. apply maximum_stream_volume_ext.
      intros o'. rewrite Hfov, Hov3, Hov2. reflexivity.
    + intros He. rewrite Hfr, Hfref, !Hsv3, Hreal2, Hnew.
      rewrite (Hno (has_outputs_none _ _ _ _ Hs He Hho)), Href.
      symmetry. apply pa_cvolume_merge_same.
Qed.

(** *** Enough fuel *)

(** The call ends by itself: it returns or it hits an assertion. *)
Definition terminates {A : Type} (x : outcome A) : Prop := x <> OutOfFuel.

Lemma terminates_bind {A B : Type} (x : outcome A) (k : A -> outcome B) :
  terminates x -> (forall a, x = Done a -> terminates (k a)) -> terminates (x ≫= k).
Proof.
  unfold terminates. destruct x; simpl; intros Hx Hk; [apply Hk; reflexivity | discriminate | contradiction].
Qed.

Lemma terminates_fmap {A B : Type} (f : A -> B) (x : outcome A) :
  terminates x -> terminates (f <$> x).
Proof. unfold terminates. destruct x; simpl; congruence. Qed.

Lemma terminates_of_option {A : Type} (x : option A) : terminates (of_option x).
Proof. destruct x; discriminate. Qed.

Lemma terminates_for_each {A B : Type} (f : B -> A -> outcome B) (l : list A) :
  (forall b a, a ∈ l -> terminates (f b a)) -> forall b, terminates (for_each f b l).
Proof.
  induction l as [|a l IH]; simpl; intros Hf b; [discriminate|].
  apply terminates_bind; [apply Hf; apply elem_of_cons; auto|].
  intros b' _. apply IH. intros b0 a0 Hin. apply Hf. apply elem_of_cons. auto.
Qed.

Lemma terminates_first_hit {A : Type} (f : A -> outcome bool) (l : list A) :
  (forall a, a ∈ l -> terminates (f a)) -> terminates (first_hit f l).
Proof.
  induction l as [|a l IH]; simpl; intros Hf; [discriminate|].
  apply terminates_bind; [apply Hf; apply elem_of_cons; auto|].
  intros [|] _; [discriminate|]. apply IH. intros a0 Hin. apply Hf. apply elem_of_cons. auto.
Qed.

Lemma of_option_done {A : Type} (x : option A) (a : A) : of_option x = Done a -> x = Some a.
Proof. destruct x; simpl; congruence. Qed.

(** Every walk towards a master ends within [master_fuel] steps. *)
Definition master_walks_end : Prop := forall s, terminates (pa_source_get_master s).

Section EnoughFuel.

Hypothesis Hwalk : master_walks_end.

Lemma terminates_flat_volume_enabled (s : nat) : terminates (pa_source_flat_volume_enabled s).
Proof.
  unfold pa_source_flat_volume_enabled. apply terminates_bind; [apply Hwalk|].
  intros [r|] _; [|discriminate].
  apply terminates_bind; [apply terminates_of_option | discriminate].
Qed.

Lemma terminates_sharing_destination (oi : output_info) : terminates (sharing_destination oi).
Proof.
  unfold sharing_destination. destruct (destination_source oi); [|discriminate].
  apply terminates_bind; [apply terminates_of_option | discriminate].
Qed.

Lemma terminates_assert_linked_flat (s : nat) : terminates (assert_linked_flat s).
Proof.
  unfold assert_linked_flat. apply terminates_bind; [apply terminates_of_option|].
  intros si _. apply terminates_bind; [apply terminates_flat_volume_enabled|].
  intros flat _. destruct (_ && _); discriminate.
Qed.

Lemma terminates_compute_reference_ratio (st : state) (o : nat) :
  terminates (compute_reference_ratio st o).
Proof.
  unfold compute_reference_ratio.
  apply terminates_bind; [apply terminates_of_option|]. intros oi _.
  apply terminates_bind; [apply terminates_of_option|]. intros s _.
  apply terminates_bind; [apply terminates_of_option|]. intros si _.
  apply terminates_bind; [apply terminates_flat_volume_enabled|]. intros flat _.
  destruct (negb flat); discriminate.
Qed.

Lemma terminates_remap_minimal_impact (v t : pa_cvolume) (from to : pa_channel_map) :
  terminates (cvolume_remap_minimal_impact v t from to).
Proof.
  unfold cvolume_remap_minimal_impact.
  repeat match goal with |- context [if ?b then _ else _] => destruct b end; discriminate.
Qed.

(** The step every loop over the outputs takes: into the filter source
    behind an output, which lies one level down in the tree. *)
Lemma tree_depth_child (n : nat) (s : nat) (si : source_info) (o : nat) (oi : output_info)
    (d : nat) :
  tree_depth (S n) s ->
  of_option (sources g !! s) = Done si -> o ∈ outputs si ->
  of_option (source_outputs g !! o) = Done oi ->
  sharing_destination oi = Done (Some d) ->
  tree_depth n d.
Proof.
  intros Ht Hs Hin Ho Hd. inversion Ht as [n' s' Hc]; subst.
  apply (Hc si o oi d); auto using of_option_done.
Qed.

Lemma assert_linked_flat_source (s : nat) (si : source_info) :
  assert_linked_flat s = Done si -> of_option (sources g !! s) = Done si.
Proof.
  unfold assert_linked_flat. destruct (sources g !! s); simpl; [|discriminate].
  destruct (pa_source_flat_volume_enabled s); simpl; try discriminate.
  destruct (_ && _); congruence.
Qed.

Lemma terminates_has_outputs (fuel : nat) :
  forall n s, tree_depth n s -> (n <= fuel)%nat -> terminates (has_outputs fuel s).
Proof.
  induction fuel as [|fuel IH]; intros n s Ht Hle;
    (destruct n as [|n]; [inversion Ht|]); [lia|]. simpl.
  apply terminates_bind; [apply terminates_of_option|]. intros si Hs.
  apply terminates_first_hit. intros o Hin.
  apply terminates_bind; [apply terminates_of_option|]. intros oi Ho.
  apply terminates_bind; [apply terminates_sharing_destination|]. intros [d|] Hd; [|discriminate].
  apply (IH n); [exact (tree_depth_child _ _ _ _ _ _ Ht Hs Hin Ho Hd) | lia].
Qed.

Lemma terminates_compute_reference_ratios (fuel : nat) :
  forall n s st, tree_depth n s -> (n <= fuel)%nat ->
                 terminates (compute_reference_ratios fuel st s).
Proof.
  induction fuel as [|fuel IH]; intros n s st Ht Hle;
    (destruct n as [|n]; [inversion Ht|]); [lia|]. simpl.
  apply terminates_bind; [apply terminates_assert_linked_flat|]. intros si Hs.
  apply assert_linked_flat_source in Hs.
  apply terminates_for_each. intros b o Hin.
  apply terminates_bind; [apply terminates_compute_reference_ratio|]. intros b1 _.
  apply terminates_bind; [apply terminates_of_option|]. intros oi Ho.
  apply terminates_bind; [apply terminates_sharing_destination|]. intros [d|] Hd; [|discriminate].
  apply (IH n); [exact (tree_depth_child _ _ _ _ _ _ Ht Hs Hin Ho Hd) | lia].
Qed.

Lemma terminates_compute_real_ratios (fuel : nat) :
  forall n s st, tree_depth n s -> (n <= fuel)%nat ->
                 terminates (compute_real_ratios fuel st s).
Proof.
  induction fuel as [|fuel IH]; intros n s st Ht Hle;
    (destruct n as [|n]; [inversion Ht|]); [lia|]. simpl.
  apply terminates_bind; [apply terminates_assert_linked_flat|]. intros si Hs.
  apply assert_linked_flat_source in Hs.
  apply terminates_for_each. intros b o Hin.
  apply terminates_bind; [apply terminates_of_option|]. intros oi Ho.
  apply terminates_bind; [apply terminates_sharing_destination|].
  intros [d|] Hd; [|unfold real_ratio_of; discriminate].
  apply (IH n); [exact (tree_depth_child _ _ _ _ _ _ Ht Hs Hin Ho Hd) | lia].
Qed.

Lemma terminates_get_maximum (fuel : nat) (acc : nat) (cm : pa_channel_map) :
  forall n s st, tree_depth n s -> (n <= fuel)%nat ->
                 terminates (get_maximum_output_volume fuel st s acc cm).
Proof.
  induction fuel as [|fuel IH]; intros n s st Ht Hle;
    (destruct n as [|n]; [inversion Ht|]); [lia|]. simpl.
  apply terminates_bind; [apply terminates_of_option|]. intros si Hs.
  apply terminates_bind; [apply terminates_flat_volume_enabled|]. intros flat _.
  destruct (negb flat); [discriminate|].
  apply terminates_for_each. intros b o Hin.
  apply terminates_bind; [apply terminates_of_option|]. intros oi Ho.
  apply terminates_bind; [apply terminates_sharing_destination|]. intros [d|] Hd.
  - apply (IH n); [exact (tree_depth_child _ _ _ _ _ _ Ht Hs Hin Ho Hd) | lia].
  - apply terminates_bind; [apply terminates_remap_minimal_impact | discriminate].
Qed.

Lemma terminates_update_real_volume (fuel : nat) (nv : volume_ref) (cm : pa_channel_map) :
  forall n s st, tree_depth n s -> (n <= fuel)%nat ->
                 terminates (update_real_volume fuel st s nv cm).
Proof.
  induction fuel as [|fuel IH]; intros n s st Ht Hle;
    (destruct n as [|n]; [inversion Ht|]); [lia|]. simpl.
  apply terminates_bind; [apply terminates_of_option|]. intros si Hs.
  apply terminates_for_each. intros b o Hin.
  apply terminates_bind; [apply terminates_of_option|]. intros oi Ho.
  apply terminates_bind; [apply terminates_sharing_destination|].
  intros [d|] Hd; [|discriminate].
  apply terminates_bind; [apply terminates_flat_volume_enabled|]. intros flat _.
  apply terminates_bind.
  - destruct flat; [|discriminate].
    apply terminates_bind; [apply terminates_compute_reference_ratio|]. intros b1 _.
    destruct (negb _); discriminate.
  - intros b1 _.
    apply (IH n); [exact (tree_depth_child _ _ _ _ _ _ Ht Hs Hin Ho Hd) | lia].
Qed.

Lemma terminates_propagate_reference_volume (fuel : nat) :
  forall n s st, tree_depth n s -> (n <= fuel)%nat ->
                 terminates (propagate_reference_volume fuel st s).
Proof.
  induction fuel as [|fuel IH]; intros n s st Ht Hle;
    (destruct n as [|n]; [inversion Ht|]); [lia|]. simpl.
  apply terminates_bind; [apply terminates_assert_linked_flat|]. intros si Hs.
  apply assert_linked_flat_source in Hs.
  apply terminates_for_each. intros b o Hin.
  apply terminates_bind; [apply terminates_of_option|]. intros oi Ho.
  apply terminates_bind; [apply terminates_sharing_destination|]. intros [d|] Hd.
  - apply (IH n); [exact (tree_depth_child _ _ _ _ _ _ Ht Hs Hin Ho Hd) | lia].
  - destruct (negb _); discriminate.
Qed.

Lemma terminates_update_reference_volume (fuel : nat) (v : pa_cvolume) (cm : pa_channel_map) :
  forall n s st save, tree_depth n s -> (n <= fuel)%nat ->
                      terminates (update_reference_volume fuel st s v cm save).
Proof.
  induction fuel as [|fuel IH]; intros n s st save Ht Hle;
    (destruct n as [|n]; [inversion Ht|]); [lia|]. simpl.
  apply terminates_bind; [apply terminates_of_option|]. intros si Hs.
  destruct (negb (_ && _)); [discriminate|].
  destruct (_ && _); [discriminate|].
  apply terminates_bind; [|discriminate].
  apply terminates_for_each. intros b o Hin.
  apply terminates_bind; [apply terminates_of_option|]. intros oi Ho.
  apply terminates_bind; [apply terminates_sharing_destination|].
  intros [d|] Hd; [|discriminate].
  apply terminates_fmap.
  apply (IH n); [exact (tree_depth_child _ _ _ _ _ _ Ht Hs Hin Ho Hd) | lia].
Qed.

Lemma terminates_compute_real_volume (fuel n : nat) (st : state) (s : nat) :
  tree_depth n s -> (n <= fuel)%nat -> terminates (compute_real_volume fuel st s).
Proof.
  intros Ht Hle. unfold compute_real_volume.
  apply terminates_bind; [apply terminates_assert_linked_flat|]. intros si _.
  destruct (share_volume_with_master si); [discriminate|].
  apply terminates_bind; [eapply terminates_has_outputs; eassumption|]. intros some _.
  destruct (negb some); [eapply terminates_update_real_volume; eassumption|].
  apply terminates_bind; [eapply terminates_get_maximum; eassumption|]. intros st1 _.
  apply terminates_bind; [eapply terminates_update_real_volume; eassumption|]. intros st2 _.
  eapply terminates_compute_real_ratios; eassumption.
Qed.

(** With more fuel than the sharing tree under the root is deep, and master
    walks that end, [pa_source_set_volume] ends by itself. *)
Lemma terminates_set_volume (fuel n : nat) (st : state) (s : nat)
    (vol : option pa_cvolume) (send_msg save : bool) :
  (forall r, pa_source_get_master s = Done (Some r) -> tree_depth n r) ->
  (n <= fuel)%nat ->
  terminates (pa_source_set_volume fuel st s vol send_msg save).
Proof.
  intros Ht Hle. unfold pa_source_set_volume.
  apply terminates_bind; [apply terminates_of_option|]. intros si _.
  destruct (negb _); [discriminate|]. destruct (negb _); [discriminate|].
  apply terminates_bind;
    [destruct (bool_decide _); [discriminate | apply terminates_flat_volume_enabled]|].
  intros flat _. destruct (negb flat); [discriminate|].
  destruct (negb _); [discriminate|]. destruct (_ && _); [discriminate|].
  apply terminates_bind; [apply Hwalk|]. intros [r|] Hr; [|discriminate].
  specialize (Ht r Hr).
  apply terminates_bind; [apply terminates_of_option|]. intros ri _.
  apply terminates_bind; [|discriminate].
  destruct vol as [v|].
  - apply terminates_bind; [eapply terminates_update_reference_volume; eassumption|].
    intros [st1 changed] _. destruct changed; [|discriminate].
    apply terminates_bind; [apply terminates_flat_volume_enabled|]. intros [|] _.
    + apply terminates_bind; [eapply terminates_propagate_reference_volume; eassumption|].
      intros st2 _. eapply terminates_compute_real_volume; eassumption.
    + eapply terminates_update_real_volume; eassumption.
  - apply terminates_bind; [apply terminates_flat_volume_enabled|]. intros flat' _.
    destruct (negb flat'); [discriminate|].
    apply terminates_bind; [eapply terminates_compute_real_volume; eassumption|].
    intros st1 _.
    apply terminates_bind; [eapply terminates_update_reference_volume; eassumption|].
    intros r' _. eapply terminates_compute_reference_ratios; eassumption.
Qed.

End EnoughFuel.

(** *** Passthrough *)

(** C10. On the monitor source of a passthrough sink [pa_source_set_volume]
    with no volume, or with a volume that is not NORM on every channel,
    returns at once: when its assertions hold it returns, and whenever it
    returns no reference, real or soft volume of any source and no volume of
    any stream has changed, and the only trace is the warning in the log; in
    particular no message has gone to the IO thread. *)
Theorem set_volume_refused_in_passthrough
    (fuel : nat) (st : state) (s : nat) (si : source_info)
    (vol : option pa_cvolume) (send_msg save : bool) :
  sources g !! s = Some si ->
  pa_source_is_passthrough si = true ->
  from_option (fun v => negb (pa_cvolume_is_norm v)) true vol = true ->
  (PA_SOURCE_IS_LINKED (s_state si) = true ->
   from_option pa_cvolume_valid true vol = true ->
   from_option (fun v => (length v =? 1)%nat || (length v =? s_channels si)%nat) true vol = true ->
   (vol = None -> pa_source_flat_volume_enabled s = Done true) ->
   pa_source_set_volume fuel st s vol send_msg save = Done (post st Log_warn_passthrough))
  /\ forall st',
       pa_source_set_volume fuel st s vol send_msg save = Done st' ->
       sv st' = sv st /\ ov st' = ov st
       /\ events st' = events st ++ [Log_warn_passthrough]
       /\ Msg_set_shared_volume s ∉ drop (length (events st)) (events st').
Proof.
  intros Hs Hp Hv. unfold pa_source_set_volume. rewrite Hs. simpl. split.
  - intros Hl Hval Hcompat Hflat. rewrite Hl, Hval. simpl.
    destruct vol as [v|]; simpl in *.
    + rewrite Hcompat, Hp, Hv. reflexivity.
    + rewrite (Hflat eq_refl). simpl. rewrite Hp. reflexivity.
  - intros st'.
    destruct (PA_SOURCE_IS_LINKED (s_state si)); simpl; [|discriminate].
    destruct (from_option pa_cvolume_valid true vol); simpl; [|discriminate].
    destruct (if bool_decide (is_Some vol) then Done true
              else pa_source_flat_volume_enabled s) as [[|]| |]; simpl; try discriminate.
    rewrite Hp, Hv. simpl.
    match goal with |- context [negb ?b] => destruct b end; simpl; [|discriminate].
    intros [= <-]. simpl.
    split; [reflexivity|]. split; [reflexivity|]. split; [reflexivity|].
    rewrite drop_app_length. intros H. apply list_elem_of_singleton in H. discriminate.
Qed.

End SetVolume.

(** *** Scenario S1: one flat-volume source with two streams *)

(** An instance of the volume arithmetic for the examples: linear volumes,
    and a remapping to another channel map that gives every channel the
    average. *)
Definition remap_avg (v : pa_cvolume) (from to : pa_channel_map) : pa_cvolume :=
  if bool_decide (from = to) then v else pa_cvolume_set (length to) (pa_cvolume_avg v).

Lemma remap_avg_same (v : pa_cvolume) (m : pa_channel_map) : remap_avg v m m = v.
Proof. unfold remap_avg. rewrite bool_decide_eq_true_2; reflexivity. Qed.

Definition multiply_linear (a b : pa_volume_t) : pa_volume_t := a * b / PA_VOLUME_NORM.
Definition divide_linear (a b : pa_volume_t) : pa_volume_t :=
  if b =? 0 then 0 else a * PA_VOLUME_NORM / b.
Definition scale_linear (v : pa_cvolume) (m : pa_volume_t) : pa_cvolume :=
  if pa_cvolume_max v =? 0 then pa_cvolume_set (length v) m
  else map (fun x => x * m / pa_cvolume_max v) v.

(** Sink 7 is in passthrough mode. *)
Definition passthrough_sink (snk : nat) : bool := (snk =? 7)%nat.

Definition stereo : pa_channel_map := [1; 2].
Definition norm2 : pa_cvolume := [65536; 65536].

(** Source 1 is a flat-volume source with the streams 10 and 11; source 2
    is the monitor source of sink 7, with the stream 12. *)
Definition s1_graph : graph :=
  mk_graph
    (<[1%nat := mk_source 1 PA_SOURCE_RUNNING true false false false stereo 2
                          [10; 11]%nat None None]>
       (<[2%nat := mk_source 2 PA_SOURCE_RUNNING true false false false stereo 2
                             [12]%nat None (Some 7%nat)]> ∅))
    (<[10%nat := mk_output 10 stereo 2 (Some 1%nat) None false]>
       (<[11%nat := mk_output 11 stereo 2 (Some 1%nat) None true]>
          (<[12%nat := mk_output 12 stereo 2 (Some 2%nat) None false]> ∅))).

(** Stream 10 is at (0.5, 0.5), stream 11 at (0.2, 1.0); every source is at
    NORM. *)
Definition s1_state : state :=
  mk_state
    (fun _ => mk_sv norm2 norm2 norm2 false)
    (fun o => if (o =? 10)%nat then mk_ov [32768; 32768] norm2 norm2 norm2 norm2
              else mk_ov [13107; 65536] norm2 norm2 norm2 norm2)
    [].

Definition s1_set_volume (s : nat) (vol : option pa_cvolume) : outcome state :=
  pa_source_set_volume remap_avg multiply_linear divide_linear scale_linear passthrough_sink
                       2147483647 (fun _ x => soft_volume x) s1_graph 4 4 s1_state s vol
                       true false.

Definition s1_result (s : nat) (vol : option pa_cvolume) : state :=
  match s1_set_volume s vol with Done st => st | _ => s1_state end.

(** S1: after the synchronisation the real volume is (0.5, 1.0) and the real
    ratios are (1.0, 0.5) and (0.4, 1.0). *)
Example s1_real_volume :
  real_volume (sv (s1_result 1 None) 1) = [32768; 65536]
  /\ real_ratio (ov (s1_result 1 None) 10) = [65536; 32768]
  /\ real_ratio (ov (s1_result 1 None) 11) = [26214; 65536].
Proof. vm_compute. repeat split. Qed.

Lemma set_volume_real_volume_is_maximum_witness :
  (forall o, o ∈ [10; 11]%nat -> plain s1_graph o ->
     exists os,
       attached_streams s1_graph 4 1 = Done os /\ Forall (plain s1_graph) os
       /\ maximum_stream_volume remap_avg s1_graph (s1_result 1 None) stereo os
          = Done (real_volume (sv (s1_result 1 None) 1)))
  /\ ([10; 11]%nat = [] ->
      real_volume (sv (s1_result 1 None) 1) = reference_volume (sv (s1_result 1 None) 1)).
Proof.
  apply (set_volume_real_volume_is_maximum
           remap_avg multiply_linear divide_linear scale_linear passthrough_sink
           2147483647 (fun _ x => soft_volume x) s1_graph 4 remap_avg_same
           4 s1_state 1
           (mk_source 1 PA_SOURCE_RUNNING true false false false stereo 2
                      [10; 11]%nat None None)
           None true false (s1_result 1 None)).
  - reflexivity.
  - reflexivity.
  - reflexivity.
  - reflexivity.
  - intros v Hv. discriminate.
  - vm_compute. reflexivity.
Defined.

(** C1 as stated fails: asked for the reference volume it already has, the
    source returns without looking at its streams, and its real volume stays
    at NORM although the maximum of the stream volumes is (0.5, 1.0). *)
Lemma set_volume_unchanged_reference_counterexample :
  exists st',
    s1_set_volume 1 (Some norm2) = Done st'
    /\ real_volume (sv st' 1) = [65536; 65536]
    /\ maximum_stream_volume remap_avg s1_graph st' stereo [10; 11]%nat
       = Done [32768; 65536]
    /\ attached_streams s1_graph 4 1 = Done [10; 11]%nat.
Proof.
  eexists. split; [vm_compute; reflexivity|]. vm_compute. repeat split.
Qed.

(** In S1 no source shares its volume: every master walk ends at once, the
    tree under source 1 has depth 1, and the call ends by itself whatever
    volume it is given. *)
Example s1_set_volume_terminates (vol : option pa_cvolume) :
  terminates (s1_set_volume 1 vol).
Proof.
  apply (terminates_set_volume remap_avg multiply_linear divide_linear scale_linear
           passthrough_sink 2147483647 (fun _ x => soft_volume x) s1_graph 4)
    with (n := 1%nat); [| |lia].
  - intros s. unfold pa_source_get_master. simpl.
    destruct (decide (s = 1%nat)) as [->|N1]; [vm_compute; discriminate|].
    destruct (decide (s = 2%nat)) as [->|N2]; [vm_compute; discriminate|].
    rewrite !lookup_insert_ne by congruence. rewrite lookup_empty. discriminate.
  - intros r Hr. vm_compute in Hr. injection Hr as <-.
    constructor. intros si o oi d Hs Hin Ho Hd.
    vm_compute in Hs. injection Hs as <-. simpl in Hin.
    apply list_elem_of_In in Hin. simpl in Hin.
    destruct Hin as [<-|[<-|[]]]; vm_compute in Ho; injection Ho as <-; discriminate.
Qed.

Lemma set_volume_refused_in_passthrough_witness :
  (PA_SOURCE_IS_LINKED PA_SOURCE_RUNNING = true ->
   from_option (pa_cvolume_valid 2147483647) true (Some [32768; 32768]) = true ->
   from_option (fun v => (length v =? 1)%nat || (length v =? 2)%nat) true
               (Some [32768; 32768]) = true ->
   (Some [32768; 32768] = None ->
    pa_source_flat_volume_enabled s1_graph 4 2 = Done true) ->
   s1_set_volume 2 (Some [32768; 32768]) = Done (post s1_state Log_warn_passthrough))
  /\ forall st',
       s1_set_volume 2 (Some [32768; 32768]) = Done st' ->
       sv st' = sv s1_state /\ ov st' = ov s1_state
       /\ events st' = events s1_state ++ [Log_warn_passthrough]
       /\ Msg_set_shared_volume 2 ∉ drop (length (events s1_state)) (events st').
Proof.
  apply (set_volume_refused_in_passthrough
           remap_avg multiply_linear divide_linear scale_linear passthrough_sink
           2147483647 (fun _ x => soft_volume x) s1_graph 4 4 s1_state 2
           (mk_source 2 PA_SOURCE_RUNNING true false false false stereo 2
                      [12]%nat None (Some 7%nat))
           (Some [32768; 32768]) true false).
  - reflexivity.
  - reflexivity.
  - reflexivity.
Defined.

End SourceVolume.
